(** * Resume-Screening-AI: the matching and skill-extraction engine

    A shallow embedding of [app/skills.py], [app/matcher.py], [app/pipeline.py],
    [app/models.py] and [eval/matrices.py], and the properties of its
    specification checked against it.

    Conventions of the embedding.
    - A Python [str] is a [string], the bytes of its UTF-8 encoding; the
      regular-expression engine works on the list of these bytes.  The
      character classes and [lower] are those of the 7-bit ASCII
      repertoire: they answer [false], and [lower] is the identity, on the
      other byte values.  The one constant of the source outside ASCII,
      the en dash of the date pattern, is the three bytes of its encoding.
    - A Python [float] is a real number ([R]); a Python [int] is a [Z] (or a
      [nat] where it is a length).
    - A Python [set] of strings is a [gset string]; the order in which a set
      is listed is a parameter ([SetOrder]).
    - A raised exception is the left summand of [result]. *)

From Stdlib Require Import Reals Lra Lia ZArith List Ascii String Bool Arith.
From Stdlib Require Import Sorted Permutation DecimalString.
From stdpp Require Import gmap strings.
Import ListNotations.

#[local] Set Warnings "-register-all".

(** ** Python values shared by the modules *)

Inductive exn : Type :=
| FileNotFoundError (msg : string)
| ValueError (msg : string)
| YAMLError
| IndexError
| ValidationError (field : string)
| ZeroDivisionError
| Exception (msg : string).

Definition result (A : Type) : Type := exn + A.

Definition Ok {A : Type} (a : A) : result A := inr a.
Definition Raise {A : Type} (e : exn) : result A := inl e.

Definition bind {A B : Type} (m : result A) (f : A -> result B) : result B :=
  match m with
  | inl e => inl e
  | inr a => f a
  end.

Notation "'try!' x ':=' m 'in' k" := (bind m (fun x => k))
  (at level 10, x name, m at level 100, k at level 200).

Definition is_ok {A : Type} (m : result A) : bool :=
  match m with
  | inl _ => false
  | inr _ => true
  end.

(** ** Characters and strings *)

Module Py.

Definition str := list ascii.

Definition ord (c : ascii) : nat := nat_of_ascii c.

Definition between (lo hi : nat) (c : ascii) : bool :=
  (lo <=? ord c) && (ord c <=? hi).

(** [a-z], [A-Z], [0-9] *)
Definition is_lower (c : ascii) : bool := between 97 122 c.
Definition is_upper (c : ascii) : bool := between 65 90 c.
Definition is_digit (c : ascii) : bool := between 48 57 c.

(** [\w] of [re] on ASCII: letters, digits and the underscore. *)
Definition is_word (c : ascii) : bool :=
  is_lower c || is_upper c || is_digit c || (ord c =? 95).

(** [\s] of [re] and the characters [str.strip] removes, on ASCII:
    tab, line feed, vertical tab, form feed, carriage return, the four
    separators 0x1c-0x1f and the space. *)
Definition is_space (c : ascii) : bool :=
  between 9 13 c || between 28 31 c || (ord c =? 32).

(** [str.lower] on one character. *)
Definition lower_char (c : ascii) : ascii :=
  if is_upper c then ascii_of_nat (ord c + 32) else c.

Definition lower (s : str) : str := map lower_char s.

Fixpoint lstrip (s : str) : str :=
  match s with
  | [] => []
  | c :: t => if is_space c then lstrip t else s
  end.

Fixpoint rstrip (s : str) : str :=
  match s with
  | [] => []
  | c :: t =>
      match rstrip t with
      | [] => if is_space c then [] else [c]
      | r => c :: r
      end
  end.

(** [str.strip()] *)
Definition strip (s : str) : str := rstrip (lstrip s).

(** [str.isdigit()]: non-empty and made of digits. *)
Definition isdigit (s : str) : bool :=
  match s with
  | [] => false
  | _ => forallb is_digit s
  end.

(** The value of a decimal numeral, as [int(s)] reads it. *)
Definition digit_value (c : ascii) : Z := Z.of_nat (ord c - 48).

Definition int_of_digits (s : str) : Z :=
  fold_left (fun acc c => (10 * acc + digit_value c)%Z) s 0%Z.

(** [float(s)] on a string of digits. *)
Definition float_of_digits (s : str) : R := IZR (int_of_digits s).

(** [max(xs)] on floats: fails with [ValueError] on the empty list. *)
Definition max_floats (xs : list R) : result R :=
  match xs with
  | [] => Raise (ValueError "max() arg is an empty sequence")
  | x :: t => Ok (fold_left Rmax t x)
  end.

Definition of_string (s : string) : str := list_ascii_of_string s.
Definition to_string (s : str) : string := string_of_list_ascii s.

(** [not text.strip()] *)
Definition is_blank (text : string) : bool :=
  match strip (of_string text) with
  | [] => true
  | _ => false
  end.

End Py.

(** ** The regular expressions of [re] that the source uses *)

Module Re.
Import Py.

Inductive re : Type :=
| Eps                                  (* the empty pattern *)
| Chr (p : ascii -> bool)              (* one character of a class *)
| Seq (a b : re)                       (* ab *)
| Alt (a b : re)                       (* a|b *)
| Star (greedy : bool) (a : re)        (* a* and a*? *)
| Group (a : re)                       (* (a), the capturing group 1 *)
| WordB.                               (* \b *)

(** Derived forms. *)
Definition Plus (a : re) : re := Seq a (Star true a).       (* a+ *)
Definition Opt (a : re) : re := Alt a Eps.                  (* a? *)
Definition Rep4 (a : re) : re := Seq a (Seq a (Seq a a)).   (* a{4} *)

(** A literal character, and under [re.IGNORECASE]. *)
Definition lit_char (ci : bool) (x : ascii) : re :=
  Chr (fun c => if ci then Ascii.eqb (lower_char c) (lower_char x)
                else Ascii.eqb c x).

Definition lit (ci : bool) (w : string) : re :=
  fold_right (fun x r => Seq (lit_char ci x) r) Eps (of_string w).

Definition newline : ascii := ascii_of_nat 10.
Definition hyphen : ascii := ascii_of_nat 45.

(** [.] without [re.DOTALL] *)
Definition any_char : re := Chr (fun c => negb (Ascii.eqb c newline)).

(** The position of the matcher: the character before it (for [\b]), the
    text still to read, and the text of group 1 when it has taken part. *)
Record mstate : Type := MState {
  m_prev : option ascii;
  m_rest : str;
  m_group : option str
}.

Definition word_before (s : mstate) : bool :=
  match m_prev s with
  | Some c => is_word c
  | None => false
  end.

Definition word_after (s : mstate) : bool :=
  match m_rest s with
  | c :: _ => is_word c
  | [] => false
  end.

(** The iterations of a star whose body is matched by [body]: a greedy
    star tries one more iteration before it stops, a lazy one stops before
    it tries one more.  An iteration that reads nothing is not taken; the
    fuel is the length of the text left, which bounds the iterations. *)
Fixpoint star_loop (greedy : bool)
  (body : mstate -> (mstate -> option mstate) -> option mstate)
  (k : mstate -> option mstate) (fuel : nat) (s : mstate) : option mstate :=
  let again (_ : unit) :=
    match fuel with
    | 0 => None
    | S fuel' =>
        body s (fun s' =>
          if length (m_rest s') <? length (m_rest s)
          then star_loop greedy body k fuel' s' else None)
    end in
  if greedy
  then match again tt with Some e => Some e | None => k s end
  else match k s with Some e => Some e | None => again tt end.

(** The backtracking matcher, in continuation-passing style: alternatives
    are tried in the order [re] tries them (left branch first), and the
    first position accepted by the continuation wins. *)
Fixpoint rmatch (r : re) (s : mstate) (k : mstate -> option mstate) : option mstate :=
  match r with
  | Eps => k s
  | Chr p =>
      match m_rest s with
      | c :: t => if p c then k (MState (Some c) t (m_group s)) else None
      | [] => None
      end
  | Seq a b => rmatch a s (fun s' => rmatch b s' k)
  | Alt a b =>
      match rmatch a s k with
      | Some e => Some e
      | None => rmatch b s k
      end
  | Star greedy a => star_loop greedy (rmatch a) k (length (m_rest s)) s
  | Group a =>
      rmatch a s (fun s' =>
        k (MState (m_prev s') (m_rest s')
             (Some (firstn (length (m_rest s) - length (m_rest s')) (m_rest s)))))
  | WordB => if xorb (word_before s) (word_after s) then k s else None
  end.

(** A match of [r] that starts at the given position. *)
Definition match_here (r : re) (prev : option ascii) (s : str) : option mstate :=
  rmatch r (MState prev s None) Some.

(** The text of group 1 ([''] when the group took no part). *)
Definition group1 (e : mstate) : str :=
  match m_group e with
  | Some g => g
  | None => []
  end.

(** [re.findall] for a pattern with one group: the texts of group 1 of the
    successive non-overlapping matches, scanning from the left.  None of
    the patterns of the source matches the empty string, so a match that
    reads nothing is not reported and the scan moves on by one character. *)
Fixpoint findall_from (fuel : nat) (r : re) (prev : option ascii) (s : str)
  : list str :=
  match fuel with
  | 0 => []
  | S fuel' =>
      match s with
      | [] => []
      | c :: t =>
          match match_here r prev s with
          | Some e =>
              if length (m_rest e) <? length s
              then group1 e :: findall_from fuel' r (m_prev e) (m_rest e)
              else findall_from fuel' r (Some c) t
          | None => findall_from fuel' r (Some c) t
          end
      end
  end.

Definition findall (r : re) (s : str) : list str :=
  findall_from (length s) r None s.

(** [re.sub(r, repl, s)] for a replacement without group references. *)
Fixpoint sub_from (fuel : nat) (r : re) (repl : str) (prev : option ascii)
  (s : str) : str :=
  match fuel with
  | 0 => s
  | S fuel' =>
      match s with
      | [] => []
      | c :: t =>
          match match_here r prev s with
          | Some e =>
              if length (m_rest e) <? length s
              then repl ++ sub_from fuel' r repl (m_prev e) (m_rest e)
              else c :: sub_from fuel' r repl (Some c) t
          | None => c :: sub_from fuel' r repl (Some c) t
          end
      end
  end.

Definition sub (r : re) (repl : string) (s : str) : str :=
  sub_from (length s) r (of_string repl) None s.

End Re.

(** ** [app/skills.py] *)

Module Skills.
Import Py Re.

(** [\bw\b] for a literal word [w]. *)
Definition word_re (w : string) : re := Seq WordB (Seq (lit false w) WordB).

(** The characters of the class [[a-z0-9+#.\- ]]. *)
Definition kept (c : ascii) : bool :=
  is_lower c || is_digit c
  || (ord c =? 43) || (ord c =? 35) || (ord c =? 46) || (ord c =? 45)
  || (ord c =? 32).

(** [[^a-z0-9+#.\- ]] *)
Definition not_kept_re : re := Chr (fun c => negb (kept c)).

(** [\s+] *)
Definition spaces_re : re := Plus (Chr is_space).

Definition normalize_text (text : str) : str :=
  match text with
  | [] => []
  | _ =>
      let text := lower text in
      let text := sub (word_re "ml") "machine learning" text in
      let text := sub (word_re "ai") "artificial intelligence" text in
      let text := sub (word_re "ui") "user interface" text in
      let text := sub (word_re "ux") "user experience" text in
      let text := sub (word_re "api") "rest apis" text in
      let text := sub (word_re "devops") "devops" text in
      let text := sub not_kept_re " " text in
      strip (sub spaces_re " " text)
  end.

Definition normalize (text : string) : string :=
  to_string (normalize_text (of_string text)).

(** What [yaml.safe_load] can return: scalars, sequences, and mappings
    (a [dict], listed in insertion order).  Floats, dates and the other
    scalars behave as the scalars listed here, and are left out. *)
Inductive yaml : Type :=
| YNull
| YBool (b : bool)
| YInt (n : Z)
| YStr (s : string)
| YSeq (items : list yaml)
| YMap (entries : list (yaml * yaml)).







End Skills.

(** ** [app/models.py] *)

Module Models.

Record Resume : Type := {
  raw_text : string;
  email : option string;
  phone : option string;
  skills : list string;
  skills_by_category : gmap string (list string);
  experience : R;
  education : option string
}.

Record JobDescription : Type := {
  jd_raw_text : string;
  required_skills : list string;
  preferred_skills : list string;
  jd_skills_by_category : gmap string (list string);
  title : option string;
  company : option string
}.

(** The property [JobDescription.skills]: required, then preferred. *)
Definition jd_skills (jd : JobDescription) : list string :=
  required_skills jd ++ preferred_skills jd.

Record MatchResult : Type := {
  resume : Resume;
  job_description : JobDescription;
  similarity_score : R;
  skill_coverage : R;
  skill_density : R;
  matching_skills : list string;
  missing_skills : list string;
  explanation : string
}.

(** A field declared [Field(..., ge=0.0, le=1.0)]. *)
Definition in_unit_interval (x : R) : Prop := (0 <= x <= 1)%R.

Definition check_unit (field : string) (x : R) : result R :=
  if Rle_dec 0 x then
    if Rle_dec x 1 then Ok x else Raise (ValidationError field)
  else Raise (ValidationError field).

(** The constructor [MatchResult(...)]: pydantic validates the three
    bounded fields and raises [ValidationError] when one is out of range. *)
Definition new_MatchResult (resume : Resume) (job_description : JobDescription)
  (similarity_score skill_coverage skill_density : R)
  (matching_skills missing_skills : list string) (explanation : string)
  : result MatchResult :=
  try! similarity_score := check_unit "similarity_score" similarity_score in
  try! skill_coverage := check_unit "skill_coverage" skill_coverage in
  try! skill_density := check_unit "skill_density" skill_density in
  Ok {| resume := resume;
        job_description := job_description;
        similarity_score := similarity_score;
        skill_coverage := skill_coverage;
        skill_density := skill_density;
        matching_skills := matching_skills;
        missing_skills := missing_skills;
        explanation := explanation |}.

End Models.

(** ** [app/matcher.py] *)

Module Matcher.
Import Py Models.

(** The order in which [list(s)] lists a set of strings.  Python leaves it
    unspecified; only that every element is listed exactly once is known. *)
Record SetOrder : Type := {
  to_list : gset string -> list string;
  to_list_elem : forall (s : gset string) (x : string), x ∈ to_list s <-> x ∈ s;
  to_list_NoDup : forall s : gset string, NoDup (to_list s)
}.

(** The embedding model, [self.model.encode(texts, normalize_embeddings=True)]:
    it may fail, and returns one vector per text otherwise. *)
Definition SentenceTransformer : Type := list string -> result (list (list R)).

Definition dot (u v : list R) : R :=
  fold_right Rplus 0%R (map (fun p => (fst p * snd p)%R) (combine u v)).

Definition norm (u : list R) : R := sqrt (dot u u).

(** Row normalisation of [sklearn]: a zero row is left as it is. *)
Definition l2_normalize (u : list R) : list R :=
  let n := norm u in
  let n := if Req_dec_T n 0 then 1%R else n in
  map (fun x => (x / n)%R) u.

(** [cosine_similarity([u], [v])[0][0]] of [sklearn]: the dot product of the
    normalised rows; rows of different lengths are refused. *)
Definition cosine_similarity (u v : list R) : result R :=
  if length u =? length v
  then Ok (dot (l2_normalize u) (l2_normalize v))
  else Raise (ValueError "Incompatible dimension for X and Y matrices").

(** [xs[i]] *)
Definition index {A : Type} (xs : list A) (i : nat) : result A :=
  match nth_error xs i with
  | Some x => Ok x
  | None => Raise IndexError
  end.

(** The body of the [try] of [calculate_semantic_similarity]. *)
Definition semantic_similarity_body (model : SentenceTransformer)
  (text1 text2 : string) : result R :=
  if is_blank text1 || is_blank text2 then Ok 0%R
  else
    try! embeddings := model [text1; text2] in
    try! e0 := index embeddings 0 in
    try! e1 := index embeddings 1 in
    try! similarity := cosine_similarity e0 e1 in
    Ok similarity.

(** [except Exception: ... return 0.0] *)
Definition calculate_semantic_similarity (model : SentenceTransformer)
  (text1 text2 : string) : R :=
  match semantic_similarity_body model text1 text2 with
  | inr similarity => similarity
  | inl _ => 0%R
  end.

(** [set(xs) if xs else set()] *)
Definition safe_set (xs : list string) : gset string :=
  match xs with
  | [] => ∅
  | _ => list_to_set xs
  end.

(** [len(a) / len(b)], a true division of two lengths. *)
Definition ratio (a b : gset string) : R := (INR (size a) / INR (size b))%R.

Definition calculate_skill_coverage (resume_skills jd_skills : list string) : R :=
  match jd_skills with
  | [] => 0%R
  | _ =>
      let resume_skills_set := safe_set resume_skills in
      let jd_skills_set := safe_set jd_skills in
      let matched_skills := resume_skills_set ∩ jd_skills_set in
      if decide (jd_skills_set = ∅) then 0%R
      else ratio matched_skills jd_skills_set
  end.

Definition calculate_skill_density (resume_skills jd_skills : list string) : R :=
  match resume_skills with
  | [] => 0%R
  | _ =>
      let resume_skills_set := safe_set resume_skills in
      let jd_skills_set := safe_set jd_skills in
      let relevant_skills := resume_skills_set ∩ jd_skills_set in
      if decide (resume_skills_set = ∅) then 0%R
      else ratio relevant_skills resume_skills_set
  end.

(** [', '.join(xs)] *)
Definition join (xs : list string) : string := String.concat ", " xs.

Definition _generate_explanation (similarity coverage density : R)
  (matching missing : list string) : string :=
  let overall_score := (0.4 * similarity + 0.4 * coverage + 0.2 * density)%R in
  let overall :=
    if Rle_dec 0.8 overall_score then "Excellent overall match for this position."
    else if Rle_dec 0.6 overall_score then "Good match with some areas for improvement."
    else if Rle_dec 0.4 overall_score then "Moderate match - consider additional preparation."
    else "Limited match - significant gaps identified." in
  let semantic :=
    if Rle_dec 0.7 similarity then "Excellent semantic alignment with the job description."
    else if Rle_dec 0.5 similarity then "Good semantic similarity with the role requirements."
    else "Limited semantic similarity with the job description." in
  let skill :=
    if Rle_dec 0.8 coverage then "Excellent skill coverage for this role."
    else if Rle_dec 0.6 coverage then "Good skill match for most requirements."
    else if Rle_dec 0.4 coverage then "Moderate skill coverage - some gaps exist."
    else "Significant skill gaps for this position." in
  let strong :=
    match matching with
    | [] => []
    | _ => ["Strong skills in: " +:+ join (firstn 5 matching) +:+ "."]
    end in
  let develop :=
    match missing with
    | [] => []
    | _ => ["Consider developing skills in: " +:+ join (firstn 3 missing) +:+ "."]
    end in
  String.concat " " ([overall; semantic; skill] ++ strong ++ develop).

(** [_safe_get_skills]: the list of skills of a resume, and the [skills]
    property of a job description; neither is ever [None]. *)
Definition _safe_get_skills (resume : Resume) : list string := skills resume.
Definition _safe_get_skills_jd (jd : JobDescription) : list string := jd_skills jd.

(** [match_resume_to_jd]; its [except] clause logs and re-raises. *)
Definition match_resume_to_jd (order : SetOrder) (model : SentenceTransformer)
  (resume : Resume) (jd : JobDescription) : result MatchResult :=
  let resume_skills := _safe_get_skills resume in
  let jd_skills := _safe_get_skills_jd jd in
  let similarity_score :=
    calculate_semantic_similarity model (raw_text resume) (jd_raw_text jd) in
  let skill_coverage := calculate_skill_coverage resume_skills jd_skills in
  let skill_density := calculate_skill_density resume_skills jd_skills in
  let resume_skills_set := safe_set resume_skills in
  let jd_skills_set := safe_set jd_skills in
  let matching_skills := to_list order (resume_skills_set ∩ jd_skills_set) in
  let missing_skills := to_list order (jd_skills_set ∖ resume_skills_set) in
  let explanation :=
    _generate_explanation similarity_score skill_coverage skill_density
      matching_skills missing_skills in
  new_MatchResult resume jd similarity_score skill_coverage skill_density
    matching_skills missing_skills explanation.

End Matcher.

(** ** [app/pipeline.py] *)

Module Pipeline.
Import Py Re Models.

(** *** Years of experience *)

(** [(\d+)] *)
Definition number : re := Group (Plus (Chr is_digit)).
(** [\s*] *)
Definition spaces : re := Star true (Chr is_space).
(** [\+?] *)
Definition opt_plus : re := Opt (lit_char true "+").
(** [years?] *)
Definition years : re := Seq (lit true "year") (Opt (lit_char true "s")).
(** [(\d+)\s*\+?\s*years?] *)
Definition n_years : re :=
  Seq number (Seq spaces (Seq opt_plus (Seq spaces years))).
(** [[\s\w]*] *)
Definition spaces_words : re := Star true (Chr (fun c => is_space c || is_word c)).
(** [.*?] *)
Definition anything_lazy : re := Star false any_char.

(** The five patterns, compiled with [re.IGNORECASE], in their order. *)
Definition patterns : list re :=
  [ Seq n_years (Seq spaces_words (lit true "experience"));
    Seq (lit true "experience") (Seq anything_lazy n_years);
    Seq n_years (Seq anything_lazy (lit true "experience"));
    Seq number (Seq spaces (lit true "yr"));
    Seq number (Seq spaces (Seq (lit true "yr") (lit_char true "."))) ].

(** The en dash [–] (U+2013): the three bytes 226, 128, 147 of its UTF-8
    encoding, which no case folding changes. *)
Definition en_dash : re := lit true "–".

(** [[\s\-–]*]: each iteration reads one character of the class, which is
    one byte for white space and the hyphen, and three for the en dash. *)
Definition separators : re :=
  Star true (Alt (Chr (fun c => is_space c || Ascii.eqb c hyphen)) en_dash).
(** [\d{4}] *)
Definition year4 : re := Rep4 (Chr is_digit).

(** [(\d{4}[\s\-–]*\d{4}|\d{4}[\s\-–]*(?:present|current|now))] *)
Definition date_pattern : re :=
  Group (Alt (Seq year4 (Seq separators year4))
             (Seq year4 (Seq separators
                (Alt (lit true "present") (Alt (lit true "current") (lit true "now")))))).

(** The loop over the patterns: the first pattern with a match decides, by
    [max([float(match) for match in matches if match.isdigit()])]. *)
Fixpoint explicit_years (patterns : list re) (text : str) : option (result R) :=
  match patterns with
  | [] => None
  | pattern :: rest =>
      match findall pattern text with
      | [] => explicit_years rest text
      | matches => Some (max_floats (map float_of_digits (List.filter isdigit matches)))
      end
  end.

(** The body of the [try] of [_extract_experience]. *)
Definition extract_experience_body (text : str) : result R :=
  match explicit_years patterns text with
  | Some years => years
  | None =>
      match findall date_pattern text with
      | [] => Ok 0%R
      | date_matches => Ok (Rmin (INR (length date_matches)) 15)
      end
  end.

(** [except Exception: ... return 0.0] *)
Definition _extract_experience (text : string) : R :=
  match extract_experience_body (of_string text) with
  | inr years => years
  | inl _ => 0%R
  end.

(** *** Processing files *)

(** The collaborators of [parser.py] and [skills.py] that the pipeline
    calls: reading a file may fail, the extraction heuristics do not. *)
Record Collaborators : Type := {
  text_from_file : string -> result string;
  extract_pii : string -> option string * option string;
  extract_name : string -> option string;
  extract_skills : string -> list (Skills.yaml * Skills.yaml) -> list string;
  extract_skills_with_categories :
    string -> list (Skills.yaml * Skills.yaml) -> gmap string (list string)
}.

Record ProcessingPipeline : Type := {
  collaborators : Collaborators;
  ontology : list (Skills.yaml * Skills.yaml)
}.

(** What the functions write to the logger. *)
Inductive log_record : Type :=
| InfoProcessing (file_path : string)
| InfoProcessed (n_skills : nat) (experience : R)
| ErrorResume (file_path : string) (e : exn)
| ErrorBatch (file_path : string) (e : exn)
| WarningFailed (failed_files : list string)
| InfoSummary (n_resumes n_paths : nat).

(** The body of the [try] of [process_resume]; the suggestions that it
    asks of [get_skill_suggestions] are not used and are left out. *)
Definition process_resume_body (self : ProcessingPipeline) (file_path : string)
  : result Resume :=
  let c := collaborators self in
  try! raw_text := text_from_file c file_path in
  if is_blank raw_text then Raise (ValueError "No text content found in the file")
  else
    let '(email, phone) := extract_pii c raw_text in
    let name := extract_name c raw_text in
    let skills := extract_skills c raw_text (ontology self) in
    let skills_by_category := extract_skills_with_categories c raw_text (ontology self) in
    let experience := _extract_experience raw_text in
    Ok {| raw_text := raw_text;
          email := email;
          phone := phone;
          skills := skills;
          skills_by_category := skills_by_category;
          experience := experience;
          education := name |}.

(** [process_resume]: the outcome and the log; a failure is logged and
    raised again. *)
Definition process_resume (self : ProcessingPipeline) (file_path : string)
  : result Resume * list log_record :=
  match process_resume_body self file_path with
  | inr resume =>
      (Ok resume,
       [InfoProcessing file_path;
        InfoProcessed (length (skills resume)) (experience resume)])
  | inl e => (Raise e, [InfoProcessing file_path; ErrorResume file_path e])
  end.

(** The [for] loop of [process_multiple_resumes], on the two lists it
    appends to and the log. *)
Fixpoint batch_loop (self : ProcessingPipeline) (file_paths : list string)
  (resumes : list Resume) (failed_files : list string) (log : list log_record)
  : list Resume * list string * list log_record :=
  match file_paths with
  | [] => (resumes, failed_files, log)
  | file_path :: rest =>
      match process_resume self file_path with
      | (inr resume, l) =>
          batch_loop self rest (resumes ++ [resume]) failed_files (log ++ l)
      | (inl e, l) =>
          batch_loop self rest resumes (failed_files ++ [file_path])
            (log ++ l ++ [ErrorBatch file_path e])
      end
  end.

(** [process_multiple_resumes]: the value returned, and the log. *)
Definition process_multiple_resumes (self : ProcessingPipeline)
  (file_paths : list string) : list Resume * list log_record :=
  let '(resumes, failed_files, log) := batch_loop self file_paths [] [] [] in
  let log :=
    match failed_files with
    | [] => log
    | _ => log ++ [WarningFailed failed_files]
    end in
  (resumes, log ++ [InfoSummary (length resumes) (length file_paths)]).

End Pipeline.

(** ** [eval/matrices.py] *)

Module Metrics.

(** [xs[:k]] for any integer [k]: a negative [k] counts from the end. *)
Definition slice_to {A : Type} (xs : list A) (k : Z) : list A :=
  if (k <? 0)%Z then firstn (Z.to_nat (Z.of_nat (length xs) + k)) xs
  else firstn (Z.to_nat k) xs.

(** [sum(bs)] of a list of booleans. *)
Definition sum_bools (bs : list bool) : Z :=
  fold_right (fun (b : bool) acc => ((if b then 1 else 0) + acc)%Z) 0%Z bs.

(** [a / b] of two integers. *)
Definition true_div (a b : Z) : result R :=
  if (b =? 0)%Z then Raise ZeroDivisionError else Ok (IZR a / IZR b)%R.

Definition precision_at_k (relevant_items : list bool) (k : Z) : result R :=
  let k := if (Z.of_nat (length relevant_items) <? k)%Z
           then Z.of_nat (length relevant_items) else k in
  let top_k := slice_to relevant_items k in
  true_div (sum_bools top_k) k.

End Metrics.

(** ** [app/matcher.py]: ranking *)

Module Ranking.
Import Py Models Matcher.
Local Open Scope string_scope.

(** What [rank_resumes] can raise: the exception of a match, as it was
    raised, or the [KeyError] of a weight that [weights] does not hold. *)
Inductive rank_exn : Type :=
| MatchFailed (e : exn)
| KeyError (key : string).

(** The default of [weights]. *)
Definition default_weights : gmap string R :=
  <["skill_coverage" := 0.4%R]> (<["similarity" := 0.4%R]> (<["density" := 0.2%R]> ∅)).

(** [if not weights: weights = {...}]: [None] and the empty [dict] are
    replaced by the default. *)
Definition effective_weights (weights : option (gmap string R)) : gmap string R :=
  match weights with
  | None => default_weights
  | Some w => if Nat.eqb (size w) 0 then default_weights else w
  end.

(** [weights[key]] *)
Definition weight (weights : gmap string R) (key : string) : rank_exn + R :=
  match weights !! key with
  | Some w => inr w
  | None => inl (KeyError key)
  end.

(** The weighted score of one match; the three weights are looked up from
    left to right. *)
Definition weighted_score (weights : gmap string R) (match_result : MatchResult)
  (density : R) : rank_exn + R :=
  match weight weights "skill_coverage" with
  | inl e => inl e
  | inr wc =>
      match weight weights "similarity" with
      | inl e => inl e
      | inr ws =>
          match weight weights "density" with
          | inl e => inl e
          | inr wd =>
              inr (wc * skill_coverage match_result
                   + ws * similarity_score match_result
                   + wd * density)%R
          end
      end
  end.

(** The [for] loop of [rank_resumes]: the triples it appends to [results],
    up to the first exception. *)
Fixpoint rank_loop (order : SetOrder) (model : SentenceTransformer)
  (weights : gmap string R) (jd : JobDescription) (resumes : list Resume)
  : rank_exn + list (Resume * MatchResult * R) :=
  match resumes with
  | [] => inr []
  | resume :: rest =>
      match match_resume_to_jd order model resume jd with
      | inl e => inl (MatchFailed e)
      | inr match_result =>
          let density :=
            calculate_skill_density (_safe_get_skills resume) (_safe_get_skills_jd jd) in
          match weighted_score weights match_result density with
          | inl e => inl e
          | inr score =>
              match rank_loop order model weights jd rest with
              | inl e => inl e
              | inr results => inr ((resume, match_result, score) :: results)
              end
          end
      end
  end.

(** [xs.sort(key=key, reverse=True)]: a stable sort by decreasing key, here
    by insertion; [x], which comes before the elements of [l], is put
    before those of them whose key is not greater. *)
Fixpoint insert_desc {A : Type} (key : A -> R) (x : A) (l : list A) : list A :=
  match l with
  | [] => [x]
  | y :: t => if Rlt_dec (key x) (key y) then y :: insert_desc key x t else x :: l
  end.

Definition sort_desc {A : Type} (key : A -> R) (l : list A) : list A :=
  fold_right (insert_desc key) [] l.

(** [rank_resumes]; its [except] clause logs and re-raises. *)
Definition rank_resumes (order : SetOrder) (model : SentenceTransformer)
  (resumes : list Resume) (jd : JobDescription)
  (weights : option (gmap string R)) : rank_exn + list (Resume * MatchResult) :=
  let weights := effective_weights weights in
  match rank_loop order model weights jd resumes with
  | inl e => inl e
  | inr results =>
      inr (map (fun x => (fst (fst x), snd (fst x))) (sort_desc snd results))
  end.

End Ranking.

(** ** [eval/matrices.py]: the other metrics *)

Module RankingMetrics.
Import Metrics Ranking.

(** [sum(xs)] of a list of floats. *)
Definition sum_floats (xs : list R) : R := fold_left Rplus xs 0%R.

(** The loop of [average_precision]: [i] is the index of the next item,
    [relevant_count] the relevant items seen, [precisions] the list built. *)
Fixpoint precisions_loop (relevant_items : list bool) (i relevant_count : nat)
  (precisions : list R) : list R :=
  match relevant_items with
  | [] => precisions
  | is_relevant :: rest =>
      if is_relevant
      then precisions_loop rest (S i) (S relevant_count)
             (precisions ++ [(INR (S relevant_count) / INR (i + 1))%R])
      else precisions_loop rest (S i) relevant_count precisions
  end.

Definition average_precision (relevant_items : list bool) : R :=
  match precisions_loop relevant_items 0 0 [] with
  | [] => 0%R
  | precisions => (sum_floats precisions / INR (length precisions))%R
  end.

Definition mean_average_precision (all_relevant_items : list (list bool)) : R :=
  match map average_precision all_relevant_items with
  | [] => 0%R
  | aps => (sum_floats aps / INR (length aps))%R
  end.

(** [np.log2] *)
Definition log2 (x : R) : R := (ln x / ln 2)%R.

(** [sum(score / np.log2(i + 2) for i, score in enumerate(scores))], from
    the index [i] on. *)
Fixpoint dcg_from (i : nat) (scores : list R) : R :=
  match scores with
  | [] => 0%R
  | score :: rest => (score / log2 (INR i + 2) + dcg_from (S i) rest)%R
  end.

(** [normalized_dcg(relevance_scores, k)]; without [k], [k] is the length
    of the list. *)
Definition normalized_dcg (relevance_scores : list R) (k : option Z) : R :=
  let k := match k with
           | None => Z.of_nat (length relevance_scores)
           | Some k => k
           end in
  let scores := slice_to relevance_scores k in
  let ideal_scores := slice_to (sort_desc (fun x => x) relevance_scores) k in
  let dcg := dcg_from 0 scores in
  let ideal_dcg := dcg_from 0 ideal_scores in
  if Rlt_dec 0 ideal_dcg then (dcg / ideal_dcg)%R else 0%R.

(** The state of an [EvaluationMetrics] object. *)
Record EvaluationMetrics : Type := {
  all_relevant_items : list (list bool);
  all_relevance_scores : list (list R)
}.

(** [EvaluationMetrics()] *)
Definition new_metrics : EvaluationMetrics :=
  {| all_relevant_items := []; all_relevance_scores := [] |}.

Definition add_query_results (self : EvaluationMetrics)
  (ranked_results : list bool) (relevance_scores : list R) : EvaluationMetrics :=
  {| all_relevant_items := all_relevant_items self ++ [ranked_results];
     all_relevance_scores := all_relevance_scores self ++ [relevance_scores] |}.

(** A list comprehension over a function that may raise. *)
Fixpoint map_result {A B : Type} (f : A -> result B) (xs : list A) : result (list B) :=
  match xs with
  | [] => Ok []
  | x :: rest =>
      match f x with
      | inl e => Raise e
      | inr y =>
          match map_result f rest with
          | inl e => Raise e
          | inr ys => Ok (y :: ys)
          end
      end
  end.

(** [sum(xs) / len(xs) if xs else 0.0] *)
Definition mean_or_zero (xs : list R) : R :=
  match xs with
  | [] => 0%R
  | _ => (sum_floats xs / INR (length xs))%R
  end.

(** The values that [calculate_all_metrics] stores under the keys [P@k],
    [MAP] and [nDCG@k]. *)
Record AllMetrics : Type := {
  p_at_k : R;
  MAP : R;
  ndcg_at_k : R
}.

Definition calculate_all_metrics (self : EvaluationMetrics) (k : Z)
  : result AllMetrics :=
  match map_result (fun relevant_items => precision_at_k relevant_items k)
          (all_relevant_items self) with
  | inl e => Raise e
  | inr p_at_k =>
      let ndcg_scores :=
        map (fun scores => normalized_dcg scores (Some k)) (all_relevance_scores self) in
      Ok {| p_at_k := mean_or_zero p_at_k;
            MAP := mean_average_precision (all_relevant_items self);
            ndcg_at_k := mean_or_zero ndcg_scores |}
  end.

End RankingMetrics.

(** ** [app/skills.py]: the extraction of skills *)

Module SkillExtraction.
Import Py Re Skills Metrics.

(** A loaded ontology: the [dict] of categories, in insertion order. *)
Definition Ontology : Type := list (string * list string).

(** [re.search(r, s)]: is there a position of [s], its end included, at
    which [r] matches? *)
Fixpoint search_from (r : re) (prev : option ascii) (s : str) : bool :=
  match match_here r prev s with
  | Some _ => true
  | None =>
      match s with
      | [] => false
      | c :: t => search_from r (Some c) t
      end
  end.

Definition search (r : re) (s : str) : bool := search_from r None s.

(** [skill.lower()] *)
Definition skill_lower (skill : string) : string :=
  to_string (lower (of_string skill)).

(** [skill.lower().replace("-", " ")] *)
Definition unhyphenated (skill : string) : string :=
  to_string (map (fun c => if Ascii.eqb c hyphen then " "%char else c)
               (lower (of_string skill))).

(** ["-" in skill] *)
Definition has_hyphen (skill : string) : bool :=
  existsb (fun c => Ascii.eqb c hyphen) (of_string skill).

(** [r"\b" + re.escape(w) + r"\b"]: every character of [w] stands for
    itself. *)
Definition pattern (skill : string) : re := word_re (skill_lower skill).
Definition hyphen_pattern (skill : string) : re := word_re (unhyphenated skill).

(** The body of the inner loop of [extract_skills]. *)
Definition scan_skill (norm_text : str) (found : gset string) (skill : string)
  : gset string :=
  let found := if search (pattern skill) norm_text then {[skill]} ∪ found else found in
  if has_hyphen skill
  then if search (hyphen_pattern skill) norm_text then {[skill]} ∪ found else found
  else found.

(** [sorted] on strings, by insertion in increasing order. *)
Fixpoint insert_sorted (x : string) (l : list string) : list string :=
  match l with
  | [] => [x]
  | y :: t => if String.leb x y then x :: l else y :: insert_sorted x t
  end.

Definition sorted (l : list string) : list string := fold_right insert_sorted [] l.

Definition extract_skills (text : string) (ontology : Ontology) : list string :=
  match text, ontology with
  | EmptyString, _ => []
  | _, [] => []
  | _, _ =>
      let norm_text := normalize_text (of_string text) in
      let found :=
        fold_left (fun found item => fold_left (scan_skill norm_text) (snd item) found)
          ontology (∅ : gset string) in
      sorted (elements found)
  end.

(** The body of the inner loop of [extract_skills_with_categories]. *)
Definition scan_category_skill (norm_text : str) (category_skills : list string)
  (skill : string) : list string :=
  let category_skills :=
    if search (pattern skill) norm_text then category_skills ++ [skill]
    else category_skills in
  if has_hyphen skill
  then if search (hyphen_pattern skill) norm_text then category_skills ++ [skill]
       else category_skills
  else category_skills.

Definition extract_skills_with_categories (text : string) (ontology : Ontology)
  : gmap string (list string) :=
  match text, ontology with
  | EmptyString, _ => ∅
  | _, [] => ∅
  | _, _ =>
      let norm_text := normalize_text (of_string text) in
      fold_left
        (fun skills_by_category item =>
           let category_skills := fold_left (scan_category_skill norm_text) (snd item) [] in
           match category_skills with
           | [] => skills_by_category
           | _ => <[fst item := sorted (elements (list_to_set category_skills : gset string))]>
                    skills_by_category
           end)
        ontology (∅ : gmap string (list string))
  end.

(** [w in s] on strings. *)
Fixpoint startswith (w s : str) : bool :=
  match w, s with
  | [], _ => true
  | x :: w', c :: t => Ascii.eqb c x && startswith w' t
  | _ :: _, [] => false
  end.

Fixpoint contains (w s : str) : bool :=
  startswith w s ||
  match s with
  | [] => false
  | _ :: t => contains w t
  end.

(** [skill not in suggestions] *)
Definition not_in (skill : string) (suggestions : list string) : bool :=
  negb (existsb (String.eqb skill) suggestions).

(** The inner loop of [get_skill_suggestions]; it stops at the [break]. *)
Fixpoint suggest_skills (norm_text : str) (max_suggestions : Z)
  (skills : list string) (suggestions : list string) : list string :=
  match skills with
  | [] => suggestions
  | skill :: rest =>
      if contains (lower (of_string skill)) norm_text && not_in skill suggestions
      then let suggestions := suggestions ++ [skill] in
           if (max_suggestions <=? Z.of_nat (length suggestions))%Z
           then suggestions
           else suggest_skills norm_text max_suggestions rest suggestions
      else suggest_skills norm_text max_suggestions rest suggestions
  end.

(** The outer loop, with its own [break]. *)
Fixpoint suggest_categories (norm_text : str) (max_suggestions : Z)
  (ontology : Ontology) (suggestions : list string) : list string :=
  match ontology with
  | [] => suggestions
  | item :: rest =>
      let suggestions := suggest_skills norm_text max_suggestions (snd item) suggestions in
      if (max_suggestions <=? Z.of_nat (length suggestions))%Z
      then suggestions
      else suggest_categories norm_text max_suggestions rest suggestions
  end.

Definition get_skill_suggestions (text : string) (ontology : Ontology)
  (max_suggestions : Z) : list string :=
  match text, ontology with
  | EmptyString, _ => []
  | _, [] => []
  | _, _ =>
      let norm_text := normalize_text (of_string text) in
      slice_to (suggest_categories norm_text max_suggestions ontology []) max_suggestions
  end.

(** [calculate_skill_overlap(skills1, skills2)] *)
Definition calculate_skill_overlap (skills1 skills2 : list string) : R :=
  match skills1, skills2 with
  | [], _ => 0%R
  | _, [] => 0%R
  | _, _ =>
      let set1 : gset string := list_to_set skills1 in
      let set2 : gset string := list_to_set skills2 in
      let intersection := set1 ∩ set2 in
      let union := set1 ∪ set2 in
      if Nat.eqb (size union) 0 then 0%R
      else (INR (size intersection) / INR (size union))%R
  end.

End SkillExtraction.

(** ** [app/pipeline.py]: job descriptions *)

Module JobPipeline.
Import Py Re Models Pipeline SkillExtraction.
Local Open Scope string_scope.
Local Open Scope list_scope.

(** [text.split('\n')]: the lines, of which there is always one. *)
Fixpoint split_lines (s : str) : list str :=
  match s with
  | [] => [[]]
  | c :: t =>
      if Ascii.eqb c newline then [] :: split_lines t
      else match split_lines t with
           | line :: lines => (c :: line) :: lines
           | [] => [[c]]
           end
  end.

(** [len(line.split())]: the number of runs of characters that are not
    white space; [in_word] tells whether the position is inside one. *)
Fixpoint count_words (in_word : bool) (line : str) : nat :=
  match line with
  | [] => 0
  | c :: t =>
      if is_space c then count_words false t
      else if in_word then count_words true t
           else S (count_words true t)
  end.

(** [any(keyword in line.lower() for keyword in keywords)] *)
Definition any_keyword (keywords : list string) (line : str) : bool :=
  existsb (fun keyword => contains (of_string keyword) (lower line)) keywords.

(** The loop of [_extract_job_title] and of [_extract_company], which
    differ in the number of words allowed and in the keywords. *)
Fixpoint first_line (max_words : nat) (keywords : list string) (lines : list str)
  : option string :=
  match lines with
  | [] => None
  | line :: rest =>
      let line := strip line in
      if match line with [] => false | _ => true end
         && Nat.leb (count_words false line) max_words
         && any_keyword keywords line
      then Some (to_string line)
      else first_line max_words keywords rest
  end.

Definition title_keywords : list string :=
  ["engineer"; "developer"; "analyst"; "manager"; "specialist"].

Definition company_keywords : list string :=
  ["inc"; "corp"; "llc"; "ltd"; "company"].

Definition _extract_job_title (text : string) : option string :=
  first_line 6 title_keywords (firstn 20 (split_lines (of_string text))).

Definition _extract_company (text : string) : option string :=
  first_line 4 company_keywords (firstn 20 (split_lines (of_string text))).

(** What [process_job_description] writes to the logger. *)
Inductive jd_log_record : Type :=
| InfoProcessingJob (file_path : string)
| InfoJobProcessed (n_required : nat)
| ErrorJob (file_path : string) (e : exn).

(** The body of the [try] of [process_job_description]; [required_skills]
    is [None] when the argument is left out. *)
Definition process_job_description_body (self : ProcessingPipeline)
  (file_path : string) (required_skills : option (list string))
  : result JobDescription :=
  let c := collaborators self in
  try! raw_text := text_from_file c file_path in
  if is_blank raw_text then Raise (ValueError "No text content found in the file")
  else
    let extracted_skills := Pipeline.extract_skills c raw_text (ontology self) in
    let final_required_skills :=
      match required_skills with
      | Some (skill :: more) => skill :: more
      | _ => extracted_skills
      end in
    let skills_by_category :=
      Pipeline.extract_skills_with_categories c raw_text (ontology self) in
    let title := _extract_job_title raw_text in
    let company := _extract_company raw_text in
    Ok {| jd_raw_text := raw_text;
          required_skills := final_required_skills;
          preferred_skills := [];
          jd_skills_by_category := skills_by_category;
          title := title;
          company := company |}.

(** [process_job_description]: the outcome and the log; a failure is
    logged and raised again. *)
Definition process_job_description (self : ProcessingPipeline)
  (file_path : string) (required_skills : option (list string))
  : result JobDescription * list jd_log_record :=
  match process_job_description_body self file_path required_skills with
  | inr jd =>
      (Ok jd,
       [InfoProcessingJob file_path;
        InfoJobProcessed (length (Models.required_skills jd))])
  | inl e => (Raise e, [InfoProcessingJob file_path; ErrorJob file_path e])
  end.

End JobPipeline.

(** * Properties *)

(** ** The matcher of regular expressions *)

Module ReFacts.
Import Py Re.

Lemma star_loop_0 greedy body k s :
  star_loop greedy body k 0 s = k s.
Proof. cbn. destruct greedy; destruct (k s); reflexivity. Qed.

Lemma star_loop_S greedy body k fuel s :
  star_loop greedy body k (S fuel) s =
  let again :=
    body s (fun s' => if length (m_rest s') <? length (m_rest s)
                      then star_loop greedy body k fuel s' else None) in
  if greedy
  then match again with Some e => Some e | None => k s end
  else match k s with Some e => Some e | None => again end.
Proof. reflexivity. Qed.

Lemma rmatch_Chr p s k :
  rmatch (Chr p) s k =
  match m_rest s with
  | c :: t => if p c then k (MState (Some c) t (m_group s)) else None
  | [] => None
  end.
Proof. reflexivity. Qed.

(** What [\d+] reads: a non-empty run of digits. *)
Lemma star_chr_reads (p : ascii -> bool) (k : mstate -> option mstate) :
  forall fuel s e,
    star_loop true (rmatch (Chr p)) k fuel s = Some e ->
    exists ds s', m_rest s = ds ++ m_rest s' /\ forallb p ds = true /\
                  m_group s' = m_group s /\ k s' = Some e.
Proof.
  induction fuel as [|fuel IH]; intros s e H.
  - rewrite star_loop_0 in H. exists [], s. auto.
  - rewrite star_loop_S, rmatch_Chr in H. cbv zeta in H.
    destruct (m_rest s) as [|c t] eqn:Es; [exists [], s; rewrite Es; auto|].
    destruct (p c) eqn:Ep; [|exists [], s; rewrite Es; auto].
    cbn [m_rest] in H.
    destruct (length t <? length (c :: t)); [|exists [], s; rewrite Es; auto].
    destruct (star_loop true (rmatch (Chr p)) k fuel
                (MState (Some c) t (m_group s))) as [e'|] eqn:Er;
      [|exists [], s; rewrite Es; auto].
    destruct (IH _ _ Er) as (ds & s' & H1 & H2 & H3 & H4).
    cbn [m_rest m_group] in H1, H3.
    exists (c :: ds), s'. rewrite H1. cbn [forallb]. rewrite Ep, H2.
    injection H as <-. auto.
Qed.

Lemma plus_chr_reads (p : ascii -> bool) (k : mstate -> option mstate) s e :
  rmatch (Plus (Chr p)) s k = Some e ->
  exists ds s', m_rest s = ds ++ m_rest s' /\ ds <> [] /\ forallb p ds = true /\
                m_group s' = m_group s /\ k s' = Some e.
Proof.
  unfold Plus. change (rmatch (Seq (Chr p) (Star true (Chr p))) s k)
    with (rmatch (Chr p) s (fun s' => star_loop true (rmatch (Chr p)) k (length (m_rest s')) s')).
  rewrite rmatch_Chr. destruct (m_rest s) as [|c t] eqn:Es; [discriminate|].
  destruct (p c) eqn:Ep; [|discriminate]. cbn [m_rest]. intros H.
  apply star_chr_reads in H. destruct H as (ds & s' & H1 & H2 & H3 & H4).
  cbn [m_rest m_group] in H1, H3.
  exists (c :: ds), s'. rewrite H1. cbn [forallb]. rewrite Ep, H2.
  repeat split; auto; discriminate.
Qed.

(** Every group of the pattern is [(\d+)]. *)
Fixpoint digit_groups (r : re) : Prop :=
  match r with
  | Group a => a = Plus (Chr is_digit)
  | Seq a b | Alt a b => digit_groups a /\ digit_groups b
  | Star _ a => digit_groups a
  | _ => True
  end.

(** Every match of the pattern passes through a group. *)
Fixpoint captures (r : re) : bool :=
  match r with
  | Group _ => true
  | Seq a b => captures a || captures b
  | Alt a b => captures a && captures b
  | _ => false
  end.

Definition digits_captured (s : mstate) : Prop :=
  exists g, m_group s = Some g /\ isdigit g = true.

Lemma isdigit_forallb (ds : str) : ds <> [] -> forallb is_digit ds = true -> isdigit ds = true.
Proof. destruct ds; [congruence|]. intros _ H. exact H. Qed.

Definition passes (r : re) (s s' : mstate) : Prop :=
  (digits_captured s -> digits_captured s') /\
  (captures r = true -> digits_captured s').

Lemma star_loop_passes (greedy : bool) (a : re) (k : mstate -> option mstate) :
  (forall s k e, rmatch a s k = Some e ->
     exists s', k s' = Some e /\ passes a s s') ->
  forall fuel s e,
    star_loop greedy (rmatch a) k fuel s = Some e ->
    exists s', k s' = Some e /\ (digits_captured s -> digits_captured s').
Proof.
  intros IHa. induction fuel as [|fuel IH]; intros s e H.
  - rewrite star_loop_0 in H. exists s. auto.
  - rewrite star_loop_S in H. cbv zeta in H.
    assert (Hagain : forall e,
      rmatch a s (fun s' => if length (m_rest s') <? length (m_rest s)
                            then star_loop greedy (rmatch a) k fuel s' else None) = Some e ->
      exists s', k s' = Some e /\ (digits_captured s -> digits_captured s')).
    { intros e0 H0. apply IHa in H0. destruct H0 as (s1 & H1 & [Hp _]).
      destruct (length (m_rest s1) <? length (m_rest s)); [|discriminate].
      apply IH in H1. destruct H1 as (s2 & H2 & Hp2). exists s2. auto. }
    destruct greedy.
    + destruct (rmatch a s _) as [e0|] eqn:E0.
      * injection H as <-. apply Hagain. reflexivity.
      * exists s. auto.
    + destruct (k s) as [e0|] eqn:Ek.
      * exists s. rewrite Ek. auto.
      * apply Hagain. exact H.
Qed.

Lemma rmatch_passes (r : re) :
  digit_groups r ->
  forall s k e, rmatch r s k = Some e -> exists s', k s' = Some e /\ passes r s s'.
Proof.
  unfold passes.
  induction r as [|p|a IHa b IHb|a IHa b IHb|greedy a IHa|a IHa|];
    intros Hd s k e H; cbn [rmatch captures] in *.
  - exists s. split; [exact H|]. split; [auto|discriminate].
  - destruct (m_rest s) as [|c t]; [discriminate|].
    destruct (p c); [|discriminate].
    eexists. split; [exact H|]. split; [|discriminate].
    intros (g & Hg & Hi). exists g. auto.
  - destruct Hd as [Hda Hdb].
    apply (IHa Hda) in H. destruct H as (s1 & H1 & Hp1 & Hc1).
    apply (IHb Hdb) in H1. destruct H1 as (s2 & H2 & Hp2 & Hc2).
    exists s2. split; [exact H2|]. split; [auto|].
    intros Hc. apply orb_true_iff in Hc. destruct Hc; auto.
  - destruct Hd as [Hda Hdb].
    destruct (rmatch a s k) as [e0|] eqn:Ea.
    + injection H as <-. apply (IHa Hda) in Ea. destruct Ea as (s1 & H1 & Hp1 & Hc1).
      exists s1. split; [exact H1|]. split; [auto|].
      intros Hc. apply andb_true_iff in Hc. destruct Hc; auto.
    + apply (IHb Hdb) in H. destruct H as (s1 & H1 & Hp1 & Hc1).
      exists s1. split; [exact H1|]. split; [auto|].
      intros Hc. apply andb_true_iff in Hc. destruct Hc; auto.
  - destruct (star_loop_passes greedy a k (IHa Hd) _ _ _ H) as (s' & H1 & H2).
    exists s'. split; [exact H1|]. split; [exact H2|discriminate].
  - cbn in Hd. subst a. apply plus_chr_reads in H.
    destruct H as (ds & s' & H1 & H2 & H3 & H4 & H5).
    eexists. split; [exact H5|].
    assert (Hg : digits_captured
                   (MState (m_prev s') (m_rest s')
                      (Some (firstn (length (m_rest s) - length (m_rest s')) (m_rest s))))).
    { exists ds. split; [|apply isdigit_forallb; assumption].
      cbn [m_group]. f_equal. rewrite H1, length_app.
      replace (length ds + length (m_rest s') - length (m_rest s')) with (length ds) by lia.
      rewrite firstn_app, firstn_all, Nat.sub_diag. cbn. apply app_nil_r. }
    split; auto.
  - destruct (xorb _ _); [|discriminate]. exists s. split; [exact H|].
    split; [auto|discriminate].
Qed.

(** Every text that [findall] reports for such a pattern is a numeral. *)
Lemma findall_numerals (r : re) :
  digit_groups r -> captures r = true ->
  forall fuel prev s, Forall (fun g => isdigit g = true) (findall_from fuel r prev s).
Proof.
  intros Hd Hc. induction fuel as [|fuel IH]; intros prev s; cbn [findall_from].
  - constructor.
  - destruct s as [|c t]; [constructor|].
    destruct (match_here r prev (c :: t)) as [e|] eqn:E; [|apply IH].
    destruct (length (m_rest e) <? length (c :: t)); [|apply IH].
    constructor; [|apply IH].
    unfold match_here in E. apply (rmatch_passes r Hd) in E.
    destruct E as (s' & [= ->] & _ & Hg). destruct (Hg Hc) as (g & Hg1 & Hg2).
    unfold group1. rewrite Hg1. exact Hg2.
Qed.

Lemma filter_all {A : Type} (f : A -> bool) (xs : list A) :
  Forall (fun x => f x = true) xs -> List.filter f xs = xs.
Proof.
  induction 1 as [|x xs Hx _ IH]; [reflexivity|].
  cbn. rewrite Hx, IH. reflexivity.
Qed.

(** *** The fuel of the matcher is enough *)

Lemma star_loop_ext greedy body (k1 k2 : mstate -> option mstate) :
  (forall s c1 c2, (forall s', c1 s' = c2 s') -> body s c1 = body s c2) ->
  (forall s, k1 s = k2 s) ->
  forall fuel s, star_loop greedy body k1 fuel s = star_loop greedy body k2 fuel s.
Proof.
  intros Hb Hk. induction fuel as [|fuel IH]; intros s.
  - rewrite !star_loop_0. apply Hk.
  - rewrite !star_loop_S. cbv zeta. rewrite (Hk s).
    rewrite (Hb s _ (fun s' => if length (m_rest s') <? length (m_rest s)
                               then star_loop greedy body k2 fuel s' else None));
      [reflexivity|].
    intros s'. destruct (length (m_rest s') <? length (m_rest s)); [apply IH|reflexivity].
Qed.

(** The matcher depends on its continuation only through its values. *)
Lemma rmatch_ext (r : re) :
  forall s k1 k2, (forall s', k1 s' = k2 s') -> rmatch r s k1 = rmatch r s k2.
Proof.
  induction r as [|p|a IHa b IHb|a IHa b IHb|greedy a IHa|a IHa|];
    intros s k1 k2 Hk; cbn [rmatch].
  - apply Hk.
  - destruct (m_rest s) as [|c t]; [reflexivity|]. destruct (p c); [apply Hk|reflexivity].
  - apply IHa. intros s'. apply IHb. exact Hk.
  - rewrite (IHa s k1 k2 Hk), (IHb s k1 k2 Hk). reflexivity.
  - apply star_loop_ext; [|exact Hk]. intros s0 c1 c2 Hc. apply IHa. exact Hc.
  - apply IHa. intros s'. apply Hk.
  - destruct (xorb _ _); [apply Hk|reflexivity].
Qed.

(** A continuation that always fails makes the match fail. *)
Lemma rmatch_fail (r : re) :
  forall s k, (forall s', k s' = None) -> rmatch r s k = None.
Proof.
  induction r as [|p|a IHa b IHb|a IHa b IHb|greedy a IHa|a IHa|];
    intros s k Hk; cbn [rmatch].
  - apply Hk.
  - destruct (m_rest s) as [|c t]; [reflexivity|]. destruct (p c); [apply Hk|reflexivity].
  - apply IHa. intros s'. apply IHb. exact Hk.
  - rewrite (IHa s k Hk), (IHb s k Hk). reflexivity.
  - generalize (length (m_rest s)). intros fuel. revert s.
    induction fuel as [|fuel IH]; intros s.
    + rewrite star_loop_0. apply Hk.
    + rewrite star_loop_S. cbv zeta. rewrite Hk, IHa; [destruct greedy; reflexivity|].
      intros s'. destruct (_ <? _); [apply IH|reflexivity].
  - apply IHa. intros s'. apply Hk.
  - destruct (xorb _ _); [apply Hk|reflexivity].
Qed.

(** With the fuel it is given, a star never stops for want of fuel: any
    larger amount gives the same match. *)
Lemma star_loop_fuel greedy (a : re) (k : mstate -> option mstate) :
  forall n m s, length (m_rest s) <= n -> length (m_rest s) <= m ->
    star_loop greedy (rmatch a) k n s = star_loop greedy (rmatch a) k m s.
Proof.
  assert (Hstep : forall n m s,
    (forall s', length (m_rest s') <= n -> length (m_rest s') <= m ->
       star_loop greedy (rmatch a) k n s' = star_loop greedy (rmatch a) k m s') ->
    length (m_rest s) <= S n -> length (m_rest s) <= S m ->
    star_loop greedy (rmatch a) k (S n) s = star_loop greedy (rmatch a) k (S m) s).
  { intros n m s IH Hn Hm. rewrite !star_loop_S. cbv zeta.
    rewrite (rmatch_ext a s
               (fun s' => if length (m_rest s') <? length (m_rest s)
                          then star_loop greedy (rmatch a) k n s' else None)
               (fun s' => if length (m_rest s') <? length (m_rest s)
                          then star_loop greedy (rmatch a) k m s' else None));
      [reflexivity|].
    intros s'. destruct (Nat.ltb_spec (length (m_rest s')) (length (m_rest s)));
      [apply IH; lia|reflexivity]. }
  assert (Hzero : forall m s, length (m_rest s) <= 0 ->
    star_loop greedy (rmatch a) k 0 s = star_loop greedy (rmatch a) k m s).
  { intros m s H0. destruct m as [|m]; [reflexivity|].
    rewrite star_loop_0, star_loop_S. cbv zeta.
    rewrite rmatch_fail; [destruct greedy; destruct (k s); reflexivity|].
    intros s'. destruct (Nat.ltb_spec (length (m_rest s')) (length (m_rest s)));
      [lia|reflexivity]. }
  induction n as [|n IH]; intros m s Hn Hm.
  - apply Hzero. exact Hn.
  - destruct m as [|m].
    + symmetry. apply Hzero. exact Hm.
    + apply Hstep; [|exact Hn|exact Hm]. intros s' H1 H2. apply IH; assumption.
Qed.

(** Likewise for the scans of [findall] and [sub]. *)
Lemma findall_from_fuel (r : re) :
  forall n m prev s, length s <= n -> length s <= m ->
    findall_from n r prev s = findall_from m r prev s.
Proof.
  induction n as [|n IH]; intros m prev s Hn Hm.
  - destruct s; [|cbn in Hn; lia]. destruct m; reflexivity.
  - destruct s as [|c t]; [destruct m; reflexivity|].
    destruct m as [|m]; [cbn in Hm; lia|]. cbn [findall_from].
    cbn in Hn, Hm. destruct (match_here r prev (c :: t)) as [e|]; [|apply IH; lia].
    destruct (Nat.ltb_spec (length (m_rest e)) (length (c :: t))) as [Hl|Hl].
    + f_equal. cbn in Hl. apply IH; lia.
    + apply IH; lia.
Qed.

Lemma sub_from_fuel (r : re) (repl : str) :
  forall n m prev s, length s <= n -> length s <= m ->
    sub_from n r repl prev s = sub_from m r repl prev s.
Proof.
  induction n as [|n IH]; intros m prev s Hn Hm.
  - destruct s; [|cbn in Hn; lia]. destruct m; reflexivity.
  - destruct s as [|c t]; [destruct m; reflexivity|].
    destruct m as [|m]; [cbn in Hm; lia|]. cbn [sub_from].
    cbn in Hn, Hm. destruct (match_here r prev (c :: t)) as [e|];
      [|f_equal; apply IH; lia].
    destruct (Nat.ltb_spec (length (m_rest e)) (length (c :: t))) as [Hl|Hl].
    + f_equal. cbn in Hl. apply IH; lia.
    + f_equal. apply IH; lia.
Qed.

End ReFacts.

(** ** [normalize] *)

Module NormalizeFacts.
Import Py Re Skills ReFacts.
Local Open Scope list_scope.

(** *** Characters *)

Ltac by_cases_on c :=
  destruct c as [[] [] [] [] [] [] [] []]; vm_compute; try reflexivity; try discriminate; auto.

Definition space : ascii := ascii_of_nat 32.

(** An ASCII character other than the underscore. *)
Definition plain (c : ascii) : bool := (ord c <? 128) && negb (ord c =? 95).

Lemma kept_lower_char c : kept c = true -> lower_char c = c.
Proof. by_cases_on c. Qed.

Lemma is_space_not_word c : is_space c = true -> is_word c = false.
Proof. by_cases_on c. Qed.

Lemma plain_lower_word_kept c :
  plain c = true -> is_word (lower_char c) = true -> kept (lower_char c) = true.
Proof. by_cases_on c. Qed.


(** *** The matcher on the patterns of [normalize] *)

(** [starts w s]: what follows [w] in [s] when [s] begins with [w]. *)
Fixpoint starts (w s : str) : option str :=
  match w with
  | [] => Some s
  | x :: w' =>
      match s with
      | c :: t => if Ascii.eqb c x then starts w' t else None
      | [] => None
      end
  end.

Fixpoint last_of (w : str) (d : option ascii) : option ascii :=
  match w with
  | [] => d
  | x :: w' => last_of w' (Some x)
  end.

Definition isw_opt (o : option ascii) : bool :=
  match o with
  | Some c => is_word c
  | None => false
  end.

Definition isw_hd (s : str) : bool :=
  match s with
  | c :: _ => is_word c
  | [] => false
  end.

(** A non-empty word of word characters. *)
Definition wordy (w : str) : Prop := w <> [] /\ forallb is_word w = true.

Lemma starts_app w : forall s t, starts w s = Some t -> s = w ++ t.
Proof.
  induction w as [|x w IH]; intros s t H; cbn in H.
  - injection H as <-. reflexivity.
  - destruct s as [|c s]; [discriminate|].
    destruct (Ascii.eqb c x) eqn:E; [|discriminate].
    apply Ascii.eqb_eq in E. subst c. cbn. f_equal. apply IH. exact H.
Qed.

Lemma starts_self w t : starts w (w ++ t) = Some t.
Proof.
  induction w as [|x w IH]; cbn; [reflexivity|].
  rewrite Ascii.eqb_refl. exact IH.
Qed.

Lemma last_of_wordy w : forall d, wordy w -> isw_opt (last_of w d) = true.
Proof.
  induction w as [|x w IH]; intros d [Hne Hw]; [congruence|].
  cbn in Hw. apply andb_true_iff in Hw. destruct Hw as [Hx Hw]. cbn [last_of].
  destruct w as [|y w']; [exact Hx|]. apply IH. split; [discriminate|exact Hw].
Qed.

Lemma rmatch_lit w : forall s k,
  rmatch (fold_right (fun x r => Seq (lit_char false x) r) Eps w) s k =
  match starts w (m_rest s) with
  | Some t => k (MState (last_of w (m_prev s)) t (m_group s))
  | None => None
  end.
Proof.
  induction w as [|x w IH]; intros s k.
  - destruct s. reflexivity.
  - cbn [fold_right rmatch lit_char starts last_of].
    destruct (m_rest s) as [|c t]; [reflexivity|].
    destruct (Ascii.eqb c x) eqn:E; [|reflexivity].
    apply Ascii.eqb_eq in E. subst c. rewrite IH. reflexivity.
Qed.

(** A match of [\bw\b] at a position. *)
Definition at_word (w : str) (prev : option ascii) (s : str) : option str :=
  if isw_opt prev then None
  else match starts w s with
       | Some t => if isw_hd t then None else Some t
       | None => None
       end.

Lemma match_here_word (w : string) prev s :
  wordy (of_string w) ->
  match_here (word_re w) prev s =
  match at_word (of_string w) prev s with
  | Some t => Some (MState (last_of (of_string w) prev) t None)
  | None => None
  end.
Proof.
  intros Hw. unfold match_here, word_re, lit, at_word.
  cbn [rmatch]. rewrite rmatch_lit. cbn [m_rest m_prev m_group rmatch].
  unfold word_before, word_after. cbn [m_prev m_rest].
  fold (isw_opt prev). fold (isw_hd s).
  destruct (starts (of_string w) s) as [t|] eqn:E.
  - fold (isw_opt (last_of (of_string w) prev)). fold (isw_hd t).
    rewrite (last_of_wordy _ prev Hw).
    assert (Hs : isw_hd s = true).
    { apply starts_app in E. subst s. destruct Hw as [Hne Hall].
      destruct (of_string w) as [|x w']; [congruence|].
      cbn in Hall |- *. apply andb_true_iff in Hall. tauto. }
    rewrite Hs. destruct (isw_opt prev), (isw_hd t); reflexivity.
  - destruct (xorb (isw_opt prev) (isw_hd s)), (isw_opt prev); reflexivity.
Qed.

Lemma match_here_chr p prev s :
  match_here (Chr p) prev s =
  match s with
  | c :: t => if p c then Some (MState (Some c) t None) else None
  | [] => None
  end.
Proof. reflexivity. Qed.

(** Where a run of characters of class [p] ends. *)
Fixpoint run_end (p : ascii -> bool) (prev : option ascii) (s : str)
  : option ascii * str :=
  match s with
  | c :: t => if p c then run_end p (Some c) t else (prev, s)
  | [] => (prev, s)
  end.

Lemma star_chr_run p : forall fuel prev s g,
  length s <= fuel ->
  star_loop true (rmatch (Chr p)) Some fuel (MState prev s g) =
  Some (MState (fst (run_end p prev s)) (snd (run_end p prev s)) g).
Proof.
  induction fuel as [|fuel IH]; intros prev s g Hlen.
  - rewrite star_loop_0. destruct s; [reflexivity|cbn in Hlen; lia].
  - rewrite star_loop_S, rmatch_Chr. cbv zeta. cbn [m_rest m_group].
    destruct s as [|c t]; [reflexivity|]. cbn [run_end].
    destruct (p c); [|reflexivity].
    cbn [m_rest]. replace (length t <? length (c :: t)) with true
      by (symmetry; apply Nat.ltb_lt; cbn; lia).
    rewrite IH by (cbn in Hlen; lia). reflexivity.
Qed.

Lemma match_here_plus p prev s :
  match_here (Plus (Chr p)) prev s =
  match s with
  | c :: t =>
      if p c
      then Some (MState (fst (run_end p (Some c) t)) (snd (run_end p (Some c) t)) None)
      else None
  | [] => None
  end.
Proof.
  unfold match_here, Plus.
  change (rmatch (Seq (Chr p) (Star true (Chr p))) (MState prev s None) Some)
    with (rmatch (Chr p) (MState prev s None)
            (fun s' => star_loop true (rmatch (Chr p)) Some (length (m_rest s')) s')).
  rewrite rmatch_Chr. cbn [m_rest m_group].
  destruct s as [|c t]; [reflexivity|]. destruct (p c); [|reflexivity].
  cbn [m_rest]. apply star_chr_run. lia.
Qed.

Lemma run_end_length p : forall prev s, length (snd (run_end p prev s)) <= length s.
Proof.
  intros prev s. revert prev. induction s as [|c t IH]; intros prev; cbn; [lia|].
  destruct (p c); [|cbn; lia]. specialize (IH (Some c)). lia.
Qed.

Lemma sub_from_cons n r rep prev c t :
  sub_from (S n) r rep prev (c :: t) =
  match match_here r prev (c :: t) with
  | Some e =>
      if length (m_rest e) <? length (c :: t)
      then rep ++ sub_from n r rep (m_prev e) (m_rest e)
      else c :: sub_from n r rep (Some c) t
  | None => c :: sub_from n r rep (Some c) t
  end.
Proof. reflexivity. Qed.

(** The three substitutions, one step at a time. *)
Lemma sub_word_cons n (w : string) rep prev c t :
  wordy (of_string w) ->
  sub_from (S n) (word_re w) rep prev (c :: t) =
  match at_word (of_string w) prev (c :: t) with
  | Some t' => rep ++ sub_from n (word_re w) rep (last_of (of_string w) prev) t'
  | None => c :: sub_from n (word_re w) rep (Some c) t
  end.
Proof.
  intros Hw. rewrite sub_from_cons, match_here_word by exact Hw.
  destruct (at_word (of_string w) prev (c :: t)) as [t'|] eqn:E; [|reflexivity].
  cbn [m_rest m_prev].
  replace (length t' <? length (c :: t)) with true; [reflexivity|].
  symmetry. apply Nat.ltb_lt. unfold at_word in E.
  destruct (isw_opt prev); [discriminate|].
  destruct (starts (of_string w) (c :: t)) as [t''|] eqn:Es; [|discriminate].
  destruct (isw_hd t''); [discriminate|]. injection E as ->.
  apply starts_app in Es. rewrite Es, length_app.
  destruct Hw as [Hne _]. destruct (of_string w); [congruence|cbn; lia].
Qed.

Lemma sub_chr n p rep : forall prev s,
  length s <= n ->
  sub_from n (Chr p) rep prev s = flat_map (fun c => if p c then rep else [c]) s.
Proof.
  induction n as [|n IH]; intros prev s Hlen.
  - destruct s; [reflexivity|cbn in Hlen; lia].
  - destruct s as [|c t]; [reflexivity|].
    rewrite sub_from_cons, match_here_chr. cbn [flat_map].
    destruct (p c).
    + cbn [m_rest m_prev].
      replace (length t <? length (c :: t)) with true
        by (symmetry; apply Nat.ltb_lt; cbn; lia).
      rewrite IH by (cbn in Hlen; lia). reflexivity.
    + rewrite IH by (cbn in Hlen; lia). reflexivity.
Qed.

Lemma sub_plus_cons n p rep prev c t :
  sub_from (S n) (Plus (Chr p)) rep prev (c :: t) =
  if p c
  then rep ++ sub_from n (Plus (Chr p)) rep (fst (run_end p (Some c) t))
                (snd (run_end p (Some c) t))
  else c :: sub_from n (Plus (Chr p)) rep (Some c) t.
Proof.
  rewrite sub_from_cons, match_here_plus. destruct (p c); [|reflexivity].
  cbn [m_rest m_prev].
  replace (length (snd (run_end p (Some c) t)) <? length (c :: t)) with true;
    [reflexivity|].
  symmetry. apply Nat.ltb_lt. pose proof (run_end_length p (Some c) t). cbn. lia.
Qed.


(** *** Words of a text *)

(** The word characters a text begins with, and the further maximal
    runs of word characters, one for each character that is not a word
    character (a run may be empty). *)
Fixpoint hd_tok (s : str) : str :=
  match s with
  | c :: t => if is_word c then c :: hd_tok t else []
  | [] => []
  end.

Fixpoint rest_toks (s : str) : list str :=
  match s with
  | c :: t => if is_word c then rest_toks t else hd_tok t :: rest_toks t
  | [] => []
  end.

Definition toks (s : str) : list str := hd_tok s :: rest_toks s.

Lemma hd_tok_not_word s : isw_hd s = false -> hd_tok s = [].
Proof. destruct s as [|c t]; [reflexivity|]. cbn. intros ->. reflexivity. Qed.

Lemma hd_tok_nil_inv s : hd_tok s = [] -> isw_hd s = false.
Proof.
  destruct s as [|c t]; [reflexivity|]. cbn. destruct (is_word c); [discriminate|reflexivity].
Qed.

Lemma toks_app a : forall b,
  isw_hd b = false ->
  hd_tok (a ++ b) = hd_tok a /\ rest_toks (a ++ b) = rest_toks a ++ rest_toks b.
Proof.
  induction a as [|c a IH]; intros b Hb.
  - cbn. split; [apply hd_tok_not_word; exact Hb|reflexivity].
  - destruct (IH b Hb) as [H1 H2]. cbn. destruct (is_word c).
    + rewrite H1, H2. auto.
    + rewrite H1, H2. auto.
Qed.

Lemma toks_wordy w : wordy w -> hd_tok w = w /\ rest_toks w = [].
Proof.
  intros [_ H]. induction w as [|c w IH]; [auto|].
  cbn in H. apply andb_true_iff in H. destruct H as [Hc Hw].
  destruct (IH Hw) as [H1 H2]. cbn. rewrite Hc, H1, H2. auto.
Qed.

Lemma toks_wordy_app w t :
  wordy w -> isw_hd t = false ->
  hd_tok (w ++ t) = w /\ rest_toks (w ++ t) = rest_toks t.
Proof.
  intros Hw Ht. destruct (toks_app w t Ht) as [H1 H2].
  destruct (toks_wordy w Hw) as [H3 H4]. rewrite H1, H2, H3, H4. auto.
Qed.

(** A text is its first word followed by a text that begins no word. *)
Lemma hd_tok_split s : exists t, s = hd_tok s ++ t /\ isw_hd t = false.
Proof.
  induction s as [|c s IH].
  - exists []. auto.
  - cbn. destruct (is_word c) eqn:E.
    + destruct IH as (t & H1 & H2). exists t. split; [|exact H2].
      cbn. f_equal. exact H1.
    + exists (c :: s). cbn. rewrite E. auto.
Qed.

Lemma at_word_Some w prev s t :
  wordy w -> at_word w prev s = Some t ->
  isw_opt prev = false /\ s = w ++ t /\ isw_hd t = false.
Proof.
  intros Hw H. unfold at_word in H.
  destruct (isw_opt prev); [discriminate|].
  destruct (starts w s) as [t'|] eqn:Es; [|discriminate].
  destruct (isw_hd t') eqn:Et; [discriminate|]. injection H as <-.
  apply starts_app in Es. auto.
Qed.

Lemma at_word_None w prev s :
  wordy w -> at_word w prev s = None -> isw_opt prev = false -> hd_tok s <> w.
Proof.
  intros Hw H Hp E. destruct (hd_tok_split s) as (t & Hs & Ht).
  rewrite E in Hs. unfold at_word in H. rewrite Hp, Hs, starts_self, Ht in H.
  discriminate.
Qed.

(** The words of a text after [\bw\b] is replaced: the words of the text
    other than [w], and words of the replacement. *)
Lemma sub_word_toks (w : string) (rep : str) :
  wordy (of_string w) ->
  forall n prev s, length s <= n ->
    let out := sub_from n (word_re w) rep prev s in
    (isw_opt prev = true -> hd_tok out = hd_tok s) /\
    (isw_opt prev = false ->
       (hd_tok out = hd_tok s /\ hd_tok s <> of_string w) \/ In (hd_tok out) (toks rep)) /\
    (forall x, In x (rest_toks out) ->
       (In x (rest_toks s) /\ x <> of_string w) \/ In x (toks rep)).
Proof.
  intros Hw. induction n as [|n IH]; intros prev s Hlen out.
  - destruct s; [|cbn in Hlen; lia]. subst out. cbn.
    split; [auto|]. split; [|intros x []].
    intros _. left. split; [reflexivity|]. destruct Hw as [Hne _]. congruence.
  - destruct s as [|c t].
    + subst out. cbn. split; [auto|]. split; [|intros x []].
      intros _. left. split; [reflexivity|]. destruct Hw as [Hne _]. congruence.
    + subst out. rewrite sub_word_cons by exact Hw.
      destruct (at_word (of_string w) prev (c :: t)) as [t'|] eqn:E.
      * destruct (at_word_Some _ _ _ _ Hw E) as (Hp & Hs & Ht).
        assert (Hlen' : length t' <= n).
        { apply (f_equal (@length ascii)) in Hs. rewrite length_app in Hs.
          destruct Hw as [Hne _]. destruct (of_string w); [congruence|].
          cbn in Hs, Hlen. lia. }
        destruct (IH (last_of (of_string w) prev) t' Hlen') as (I1 & _ & I3).
        specialize (I1 (last_of_wordy _ prev Hw)).
        rewrite (hd_tok_not_word _ Ht) in I1. apply hd_tok_nil_inv in I1.
        destruct (toks_app rep _ I1) as [A1 A2].
        destruct (toks_wordy_app _ _ Hw Ht) as [B1 B2].
        rewrite A1, A2, Hs, B1, B2.
        split; [rewrite Hp; discriminate|]. split.
        -- intros _. right. left. reflexivity.
        -- intros x Hx. apply in_app_or in Hx. destruct Hx as [Hx|Hx].
           ++ right. right. exact Hx.
           ++ apply I3. exact Hx.
      * assert (Hlen' : length t <= n) by (cbn in Hlen; lia).
        destruct (IH (Some c) t Hlen') as (I1 & I2 & I3). cbn [isw_opt] in I1, I2.
        cbn [hd_tok rest_toks]. destruct (is_word c) eqn:Ec.
        -- specialize (I1 eq_refl). rewrite I1.
           split; [reflexivity|]. split; [|exact I3].
           intros Hp. left. split; [reflexivity|].
           pose proof (at_word_None _ _ _ Hw E Hp) as Hn. cbn in Hn.
           rewrite Ec in Hn. exact Hn.
        -- split; [reflexivity|]. split.
           ++ intros _. left. split; [reflexivity|]. destruct Hw as [Hne _]. congruence.
           ++ intros x [<-|Hx].
              ** destruct (I2 eq_refl) as [[H1 H2]|H1].
                 --- left. rewrite H1. split; [left; reflexivity|exact H2].
                 --- right. exact H1.
              ** destruct (I3 x Hx) as [[H1 H2]|H1]; [left; split; [right|]|right];
                   assumption.
Qed.


Lemma sub_word_In (w rep : string) (s : str) (x : str) :
  wordy (of_string w) ->
  In x (toks (sub (word_re w) rep s)) ->
  (In x (toks s) /\ x <> of_string w) \/ In x (toks (of_string rep)).
Proof.
  intros Hw Hx. unfold sub in Hx.
  destruct (sub_word_toks w (of_string rep) Hw (length s) None s (Nat.le_refl _))
    as (_ & H2 & H3).
  destruct Hx as [<-|Hx].
  - destruct (H2 eq_refl) as [[H H']|H]; [left|right; exact H].
    rewrite H. split; [left; reflexivity|exact H'].
  - destruct (H3 x Hx) as [[H H']|H]; [left|right; exact H].
    split; [right; exact H|exact H'].
Qed.

(** A text without the word [w] is left as it is. *)
Lemma sub_word_absent (w : string) (rep : str) :
  wordy (of_string w) ->
  forall n prev s, length s <= n ->
    (isw_opt prev = false -> hd_tok s <> of_string w) ->
    ~ In (of_string w) (rest_toks s) ->
    sub_from n (word_re w) rep prev s = s.
Proof.
  intros Hw. induction n as [|n IH]; intros prev s Hlen Hh Hr.
  - destruct s; [reflexivity|cbn in Hlen; lia].
  - destruct s as [|c t]; [reflexivity|]. rewrite sub_word_cons by exact Hw.
    destruct (at_word (of_string w) prev (c :: t)) as [t'|] eqn:E.
    + destruct (at_word_Some _ _ _ _ Hw E) as (Hp & Hs & Ht).
      exfalso. apply (Hh Hp). rewrite Hs.
      apply (toks_wordy_app _ _ Hw Ht).
    + f_equal. apply IH; [cbn in Hlen; lia| |].
      * cbn [isw_opt]. intros Hc E'. apply Hr. cbn. rewrite Hc. left. exact E'.
      * intros Hin. apply Hr. cbn. destruct (is_word c); [exact Hin|right; exact Hin].
Qed.

(** Replacing a word by itself changes nothing. *)
Lemma sub_word_self (w : string) :
  wordy (of_string w) ->
  forall n prev s, length s <= n ->
    sub_from n (word_re w) (of_string w) prev s = s.
Proof.
  intros Hw. induction n as [|n IH]; intros prev s Hlen.
  - destruct s; [reflexivity|cbn in Hlen; lia].
  - destruct s as [|c t]; [reflexivity|]. rewrite sub_word_cons by exact Hw.
    destruct (at_word (of_string w) prev (c :: t)) as [t'|] eqn:E.
    + destruct (at_word_Some _ _ _ _ Hw E) as (Hp & Hs & Ht).
      rewrite Hs. f_equal. apply IH.
      apply (f_equal (@length ascii)) in Hs. rewrite length_app in Hs.
      destruct Hw as [Hne _]. destruct (of_string w); [congruence|].
      cbn in Hs, Hlen. lia.
    + f_equal. apply IH. cbn in Hlen. lia.
Qed.

Lemma sub_word_Forall (P : ascii -> Prop) (w : string) (rep : str) :
  wordy (of_string w) -> Forall P rep ->
  forall n prev s, length s <= n -> Forall P s ->
    Forall P (sub_from n (word_re w) rep prev s).
Proof.
  intros Hw Hrep. induction n as [|n IH]; intros prev s Hlen Hs.
  - exact Hs.
  - destruct s as [|c t]; [constructor|]. rewrite sub_word_cons by exact Hw.
    destruct (at_word (of_string w) prev (c :: t)) as [t'|] eqn:E.
    + destruct (at_word_Some _ _ _ _ Hw E) as (Hp & Hs' & Ht).
      apply Forall_app. split; [exact Hrep|]. apply IH.
      * apply (f_equal (@length ascii)) in Hs'. rewrite length_app in Hs'.
        destruct Hw as [Hne _]. destruct (of_string w); [congruence|].
        cbn in Hs', Hlen. lia.
      * rewrite Hs' in Hs. apply Forall_app in Hs. tauto.
    + inversion Hs; subst. constructor; [assumption|].
      apply IH; [cbn in Hlen; lia|assumption].
Qed.

(** *** Removing the other characters *)

Definition clean_char (c : ascii) : ascii := if kept c then c else space.

Lemma sub_not_kept s : sub not_kept_re " " s = map clean_char s.
Proof.
  unfold sub, not_kept_re. rewrite sub_chr by lia.
  induction s as [|c t IH]; [reflexivity|].
  cbn [flat_map map]. rewrite IH. unfold clean_char.
  destruct (kept c); reflexivity.
Qed.

Lemma kept_clean_char c : kept (clean_char c) = true.
Proof. unfold clean_char. destruct (kept c) eqn:E; [exact E|reflexivity]. Qed.

Lemma clean_char_word c :
  (is_word c = true -> kept c = true) ->
  is_word (clean_char c) = is_word c /\ (is_word c = true -> clean_char c = c).
Proof.
  intros H. unfold clean_char. destruct (kept c) eqn:E; [auto|].
  destruct (is_word c); [discriminate H; reflexivity|]. split; [reflexivity|discriminate].
Qed.

Lemma map_clean_toks s :
  Forall (fun c => is_word c = true -> kept c = true) s ->
  hd_tok (map clean_char s) = hd_tok s /\
  rest_toks (map clean_char s) = rest_toks s.
Proof.
  induction 1 as [|c t Hc _ [IH1 IH2]]; [auto|].
  destruct (clean_char_word c Hc) as [H1 H2]. cbn. rewrite H1.
  destruct (is_word c); rewrite IH1, IH2; [rewrite H2 by reflexivity|]; auto.
Qed.

Lemma map_clean_kept s : Forall (fun c => kept c = true) (map clean_char s).
Proof. induction s; constructor; [apply kept_clean_char|assumption]. Qed.

Lemma map_clean_id s : Forall (fun c => kept c = true) s -> map clean_char s = s.
Proof.
  induction 1 as [|c t Hc _ IH]; [reflexivity|].
  cbn. rewrite IH. unfold clean_char. rewrite Hc. reflexivity.
Qed.

Lemma lower_id s : Forall (fun c => kept c = true) s -> lower s = s.
Proof.
  induction 1 as [|c t Hc _ IH]; [reflexivity|].
  cbn. unfold lower in IH. rewrite IH, (kept_lower_char c Hc). reflexivity.
Qed.


(** *** Collapsing white space *)

Definition sp_hd (s : str) : bool :=
  match s with
  | c :: _ => is_space c
  | [] => false
  end.

(** Every white-space character is one space, and no two are adjacent. *)
Fixpoint tight (s : str) : Prop :=
  match s with
  | [] => True
  | c :: t => (is_space c = true -> c = space /\ sp_hd t = false) /\ tight t
  end.

Lemma run_end_sp_hd prev s : sp_hd (snd (run_end is_space prev s)) = false.
Proof.
  revert prev. induction s as [|c t IH]; intros prev; [reflexivity|].
  cbn [run_end]. destruct (is_space c) eqn:E; [apply IH|]. cbn. exact E.
Qed.

Lemma run_end_id prev s : sp_hd s = false -> run_end is_space prev s = (prev, s).
Proof. destruct s as [|c t]; [reflexivity|]. cbn. intros ->. reflexivity. Qed.

Lemma run_end_toks prev s : incl (toks (snd (run_end is_space prev s))) (toks s).
Proof.
  revert prev. induction s as [|c t IH]; intros prev; [apply incl_refl|].
  cbn [run_end]. destruct (is_space c) eqn:E; [|apply incl_refl].
  intros x Hx. apply IH in Hx. unfold toks. cbn [hd_tok rest_toks].
  rewrite (is_space_not_word c E). right. exact Hx.
Qed.

Lemma run_end_Forall (P : ascii -> Prop) prev s :
  Forall P s -> Forall P (snd (run_end is_space prev s)).
Proof.
  intros H. revert prev. induction H as [|c t Hc Ht IH]; intros prev; [constructor|].
  cbn [run_end]. destruct (is_space c); [apply IH|]. constructor; assumption.
Qed.

Lemma squeeze_toks : forall n prev s, length s <= n ->
  let out := sub_from n spaces_re [space] prev s in
  hd_tok out = hd_tok s /\ incl (rest_toks out) (rest_toks s).
Proof.
  unfold spaces_re. induction n as [|n IH]; intros prev s Hlen.
  - destruct s; [|cbn in Hlen; lia]. cbn. split; [reflexivity|apply incl_refl].
  - destruct s as [|c t].
    + cbn. split; [reflexivity|apply incl_refl].
    + rewrite sub_plus_cons. destruct (is_space c) eqn:E.
      * pose proof (run_end_length is_space (Some c) t) as Hl.
        destruct (IH (fst (run_end is_space (Some c) t))
                    (snd (run_end is_space (Some c) t))) as [I1 I2];
          [cbn in Hlen; lia|].
        cbn [app hd_tok rest_toks].
        rewrite (is_space_not_word c E).
        change (is_word space) with false. cbv iota.
        split; [reflexivity|].
        intros x [<-|Hx].
        -- rewrite I1. apply (run_end_toks (Some c) t). left. reflexivity.
        -- apply (run_end_toks (Some c) t). right. apply I2. exact Hx.
      * destruct (IH (Some c) t) as [I1 I2]; [cbn in Hlen; lia|].
        cbn [hd_tok rest_toks]. destruct (is_word c).
        -- rewrite I1. split; [reflexivity|exact I2].
        -- split; [reflexivity|]. rewrite I1.
           intros x [<-|Hx]; [left; reflexivity|right; apply I2; exact Hx].
Qed.

Lemma squeeze_tight : forall n prev s, length s <= n ->
  let out := sub_from n spaces_re [space] prev s in
  tight out /\ (sp_hd s = false -> sp_hd out = false).
Proof.
  unfold spaces_re. induction n as [|n IH]; intros prev s Hlen.
  - destruct s; [|cbn in Hlen; lia]. cbn. auto.
  - destruct s as [|c t].
    + cbn. auto.
    + rewrite sub_plus_cons. destruct (is_space c) eqn:E.
      * pose proof (run_end_length is_space (Some c) t) as Hl.
        destruct (IH (fst (run_end is_space (Some c) t))
                    (snd (run_end is_space (Some c) t))) as [I1 I2];
          [cbn in Hlen; lia|].
        specialize (I2 (run_end_sp_hd _ _)).
        cbn [app tight sp_hd].
        split; [|rewrite E; discriminate].
        split; [|exact I1]. intros _. split; [reflexivity|exact I2].
      * destruct (IH (Some c) t) as [I1 I2]; [cbn in Hlen; lia|].
        cbn [tight sp_hd]. rewrite E. split; [|reflexivity].
        split; [discriminate|exact I1].
Qed.

Lemma squeeze_Forall (P : ascii -> Prop) :
  P space ->
  forall n prev s, length s <= n -> Forall P s ->
    Forall P (sub_from n spaces_re [space] prev s).
Proof.
  intros Hsp. unfold spaces_re. induction n as [|n IH]; intros prev s Hlen Hs.
  - exact Hs.
  - destruct s as [|c t]; [constructor|]. rewrite sub_plus_cons.
    inversion Hs; subst. destruct (is_space c).
    + pose proof (run_end_length is_space (Some c) t) as Hl.
      constructor; [exact Hsp|]. apply IH; [cbn in Hlen; lia|].
      apply run_end_Forall. assumption.
    + constructor; [assumption|]. apply IH; [cbn in Hlen; lia|assumption].
Qed.

Lemma squeeze_id : forall n prev s, length s <= n -> tight s ->
  sub_from n spaces_re [space] prev s = s.
Proof.
  unfold spaces_re. induction n as [|n IH]; intros prev s Hlen Ht.
  - reflexivity.
  - destruct s as [|c t]; [reflexivity|]. rewrite sub_plus_cons.
    destruct Ht as [Hc Ht]. destruct (is_space c) eqn:E.
    + destruct (Hc eq_refl) as [-> Hh]. rewrite (run_end_id _ _ Hh). cbn [fst snd].
      cbn [app]. f_equal.
      apply IH; [cbn in Hlen; lia|exact Ht].
    + f_equal. apply IH; [cbn in Hlen; lia|exact Ht].
Qed.

(** *** Trimming *)

Lemma lstrip_toks s : incl (toks (lstrip s)) (toks s).
Proof.
  induction s as [|c t IH]; [apply incl_refl|].
  cbn [lstrip]. destruct (is_space c) eqn:E; [|apply incl_refl].
  intros x Hx. apply IH in Hx. unfold toks. cbn [hd_tok rest_toks].
  rewrite (is_space_not_word c E). right. exact Hx.
Qed.

Lemma lstrip_Forall (P : ascii -> Prop) s : Forall P s -> Forall P (lstrip s).
Proof.
  induction 1 as [|c t Hc Ht IH]; [constructor|].
  cbn. destruct (is_space c); [exact IH|constructor; assumption].
Qed.

Lemma lstrip_tight s : tight s -> tight (lstrip s).
Proof.
  induction s as [|c t IH]; [auto|]. intros [Hc Ht].
  cbn [lstrip]. destruct (is_space c) eqn:E; [apply IH; exact Ht|].
  cbn [tight]. rewrite E. split; assumption.
Qed.

Lemma lstrip_sp_hd s : sp_hd (lstrip s) = false.
Proof.
  induction s as [|c t IH]; [reflexivity|].
  cbn [lstrip]. destruct (is_space c) eqn:E; [exact IH|]. cbn. exact E.
Qed.

Lemma lstrip_id s : sp_hd s = false -> lstrip s = s.
Proof. destruct s as [|c t]; [reflexivity|]. cbn. intros ->. reflexivity. Qed.

Lemma rstrip_cons c t :
  rstrip (c :: t) =
  match rstrip t with
  | [] => if is_space c then [] else [c]
  | r => c :: r
  end.
Proof. reflexivity. Qed.

Lemma rstrip_nil_inv s : rstrip s = [] -> forallb is_space s = true.
Proof.
  induction s as [|c t IH]; [reflexivity|]. rewrite rstrip_cons.
  destruct (rstrip t) as [|d r]; [|discriminate].
  destruct (is_space c) eqn:E; [|discriminate]. intros _. cbn. rewrite E. apply IH. reflexivity.
Qed.

Lemma spaces_hd_tok s : forallb is_space s = true -> hd_tok s = [].
Proof.
  destruct s as [|c t]; [reflexivity|]. cbn. intros H.
  apply andb_true_iff in H. destruct H as [H _].
  rewrite (is_space_not_word c H). reflexivity.
Qed.

Lemma rstrip_sp_hd s : sp_hd s = false -> sp_hd (rstrip s) = false.
Proof.
  destruct s as [|c t]; [reflexivity|]. cbn [sp_hd]. intros E. rewrite rstrip_cons.
  destruct (rstrip t); [rewrite E|]; cbn; [exact E|exact E].
Qed.

Lemma rstrip_hd_some s : rstrip s <> [] -> sp_hd (rstrip s) = sp_hd s.
Proof.
  destruct s as [|c t]; [reflexivity|]. rewrite rstrip_cons.
  destruct (rstrip t); [|reflexivity].
  destruct (is_space c) eqn:E; [congruence|]. intros _. cbn. reflexivity.
Qed.

Lemma rstrip_toks s :
  hd_tok (rstrip s) = hd_tok s /\ incl (rest_toks (rstrip s)) (rest_toks s).
Proof.
  induction s as [|c t [IH1 IH2]]; [split; [reflexivity|apply incl_refl]|].
  rewrite rstrip_cons. destruct (rstrip t) as [|d r] eqn:Er.
  - pose proof (spaces_hd_tok t (rstrip_nil_inv t Er)) as Ht.
    destruct (is_space c) eqn:E.
    + cbn. rewrite (is_space_not_word c E). split; [reflexivity|]. intros x [].
    + cbn. rewrite Ht. destruct (is_word c).
      * split; [reflexivity|]. intros x [].
      * split; [reflexivity|]. intros x [<-|[]]. left. reflexivity.
  - rewrite <- Er in IH1, IH2 |- *. cbn [hd_tok rest_toks]. destruct (is_word c).
    + rewrite IH1. split; [reflexivity|exact IH2].
    + rewrite IH1. split; [reflexivity|].
      intros x [<-|Hx]; [left; reflexivity|right; apply IH2; exact Hx].
Qed.

Lemma rstrip_Forall (P : ascii -> Prop) s : Forall P s -> Forall P (rstrip s).
Proof.
  induction 1 as [|c t Hc Ht IH]; [constructor|]. rewrite rstrip_cons.
  destruct (rstrip t).
  - destruct (is_space c); constructor; [assumption|constructor].
  - constructor; assumption.
Qed.

Lemma rstrip_tight s : tight s -> tight (rstrip s).
Proof.
  induction s as [|c t IH]; [auto|]. intros [Hc Ht]. rewrite rstrip_cons.
  destruct (rstrip t) as [|d r] eqn:Er.
  - destruct (is_space c) eqn:E; cbn; [exact I|]. rewrite E.
    split; [discriminate|exact I].
  - rewrite <- Er in IH |- *. cbn [tight]. split; [|apply IH; exact Ht].
    intros E. destruct (Hc E) as [-> Hh]. split; [reflexivity|].
    rewrite rstrip_hd_some by (rewrite Er; discriminate). exact Hh.
Qed.

Lemma rstrip_idem s : rstrip (rstrip s) = rstrip s.
Proof.
  induction s as [|c t IH]; [reflexivity|]. rewrite rstrip_cons.
  destruct (rstrip t) as [|d r] eqn:Er.
  - destruct (is_space c) eqn:E; [reflexivity|]. cbn. rewrite E. reflexivity.
  - rewrite rstrip_cons, IH. reflexivity.
Qed.

Lemma strip_idem s : strip (strip s) = strip s.
Proof.
  unfold strip.
  rewrite (lstrip_id (rstrip (lstrip s))) by (apply rstrip_sp_hd, lstrip_sp_hd).
  apply rstrip_idem.
Qed.

Lemma strip_toks s : incl (toks (strip s)) (toks s).
Proof.
  unfold strip. intros x Hx. apply lstrip_toks.
  destruct (rstrip_toks (lstrip s)) as [H1 H2]. unfold toks in *.
  destruct Hx as [<-|Hx]; [left; symmetry; exact H1|right; apply H2; exact Hx].
Qed.


(** *** The normal form *)

Local Open Scope string_scope.
Local Open Scope list_scope.

Definition abbreviations : list string := ["ml"; "ai"; "ui"; "ux"; "api"].

(** What [normalize] does to a non-empty text. *)
Definition steps (text : str) : str :=
  let text := lower text in
  let text := sub (word_re "ml") "machine learning" text in
  let text := sub (word_re "ai") "artificial intelligence" text in
  let text := sub (word_re "ui") "user interface" text in
  let text := sub (word_re "ux") "user experience" text in
  let text := sub (word_re "api") "rest apis" text in
  let text := sub (word_re "devops") "devops" text in
  let text := sub not_kept_re " " text in
  strip (sub spaces_re " " text).

Lemma normalize_text_steps (text : str) :
  normalize_text text = match text with [] => [] | _ => steps text end.
Proof. destruct text; reflexivity. Qed.

(** A word character is one of [a-z0-9]. *)
Definition word_kept (c : ascii) : bool := implb (is_word c) (kept c).

Record normal (s : str) : Prop := {
  normal_kept : Forall (fun c => kept c = true) s;
  normal_tight : tight s;
  normal_strip : strip s = s;
  normal_abbr : forall w, In w abbreviations -> ~ In (of_string w) (toks s)
}.

Ltac wordy_tac := split; [discriminate|reflexivity].

Lemma sub_absent (w rep : string) (s : str) :
  wordy (of_string w) -> ~ In (of_string w) (toks s) ->
  sub (word_re w) rep s = s.
Proof.
  intros Hw H. unfold sub. apply sub_word_absent; [exact Hw|lia| |].
  - intros _ E. apply H. left. exact E.
  - intros Hin. apply H. right. exact Hin.
Qed.

Lemma steps_normal_id (s : str) : normal s -> steps s = s.
Proof.
  intros [Hk Ht Hs Ha]. unfold steps. cbv zeta.
  rewrite (lower_id s Hk).
  rewrite (sub_absent "ml") by (try wordy_tac; apply Ha; cbn; tauto).
  rewrite (sub_absent "ai") by (try wordy_tac; apply Ha; cbn; tauto).
  rewrite (sub_absent "ui") by (try wordy_tac; apply Ha; cbn; tauto).
  rewrite (sub_absent "ux") by (try wordy_tac; apply Ha; cbn; tauto).
  rewrite (sub_absent "api") by (try wordy_tac; apply Ha; cbn; tauto).
  unfold sub at 3. rewrite (sub_word_self "devops") by (try wordy_tac; lia).
  rewrite sub_not_kept, (map_clean_id s Hk).
  change (sub spaces_re " " s) with (sub_from (length s) spaces_re [space] None s).
  rewrite squeeze_id by (try lia; exact Ht). exact Hs.
Qed.

Lemma word_kept_spec c : word_kept c = true <-> (is_word c = true -> kept c = true).
Proof.
  unfold word_kept. destruct (is_word c), (kept c); cbn; split; auto; discriminate.
Qed.

Lemma lower_word_kept (t : str) :
  forallb plain t = true -> Forall (fun c => word_kept c = true) (lower t).
Proof.
  induction t as [|c t IH]; [constructor|]. cbn. intros H.
  apply andb_true_iff in H. destruct H as [Hc Ht].
  constructor; [|apply IH; exact Ht].
  apply word_kept_spec. apply plain_lower_word_kept. exact Hc.
Qed.

Lemma sub_word_kept (w rep : string) (s : str) :
  wordy (of_string w) ->
  forallb word_kept (of_string rep) = true ->
  Forall (fun c => word_kept c = true) s ->
  Forall (fun c => word_kept c = true) (sub (word_re w) rep s).
Proof.
  intros Hw Hrep Hs. unfold sub. apply sub_word_Forall; [exact Hw| |lia|exact Hs].
  apply List.Forall_forall. intros c Hc.
  rewrite forallb_forall in Hrep. apply Hrep. exact Hc.
Qed.

Ltac back H :=
  apply sub_word_In in H; [|wordy_tac];
  destruct H as [[H ?]|H];
  [|exfalso; vm_compute in H; intuition discriminate].

Lemma steps_normal (t : str) : forallb plain t = true -> normal (steps t).
Proof.
  intros Hp. unfold steps. cbv zeta.
  pose proof (lower_word_kept t Hp) as H0.
  set (t0 := lower t) in *.
  pose proof (sub_word_kept "ml" "machine learning" t0 ltac:(wordy_tac) eq_refl H0) as H1.
  set (t1 := sub (word_re "ml") "machine learning" t0) in *.
  pose proof (sub_word_kept "ai" "artificial intelligence" t1 ltac:(wordy_tac) eq_refl H1) as H2.
  set (t2 := sub (word_re "ai") "artificial intelligence" t1) in *.
  pose proof (sub_word_kept "ui" "user interface" t2 ltac:(wordy_tac) eq_refl H2) as H3.
  set (t3 := sub (word_re "ui") "user interface" t2) in *.
  pose proof (sub_word_kept "ux" "user experience" t3 ltac:(wordy_tac) eq_refl H3) as H4.
  set (t4 := sub (word_re "ux") "user experience" t3) in *.
  pose proof (sub_word_kept "api" "rest apis" t4 ltac:(wordy_tac) eq_refl H4) as H5.
  set (t5 := sub (word_re "api") "rest apis" t4) in *.
  pose proof (sub_word_kept "devops" "devops" t5 ltac:(wordy_tac) eq_refl H5) as H6.
  set (t6 := sub (word_re "devops") "devops" t5) in *.
  assert (Ha6 : forall w, In w abbreviations -> ~ In (of_string w) (toks t6)).
  { intros w Hw Hin. cbn in Hw.
    destruct Hw as [<-|[<-|[<-|[<-|[<-|[]]]]]];
      (unfold t6 in Hin; back Hin; unfold t5 in Hin; back Hin;
       unfold t4 in Hin; back Hin; unfold t3 in Hin; back Hin;
       unfold t2 in Hin; back Hin; unfold t1 in Hin; back Hin; congruence). }
  rewrite sub_not_kept.
  assert (H6' : Forall (fun c => is_word c = true -> kept c = true) t6).
  { eapply List.Forall_impl; [|exact H6]. intros c Hc. apply word_kept_spec. exact Hc. }
  destruct (map_clean_toks t6 H6') as [E1 E2].
  pose proof (map_clean_kept t6) as K7.
  set (t7 := map clean_char t6) in *.
  change (sub spaces_re " " t7) with (sub_from (length t7) spaces_re [space] None t7).
  destruct (squeeze_toks (length t7) None t7 (Nat.le_refl _)) as [S1 S2].
  destruct (squeeze_tight (length t7) None t7 (Nat.le_refl _)) as [T8 _].
  pose proof (squeeze_Forall (fun c => kept c = true) eq_refl (length t7) None t7
                (Nat.le_refl _) K7) as K8.
  set (t8 := sub_from (length t7) spaces_re [space] None t7) in *.
  constructor.
  - unfold strip. apply rstrip_Forall, lstrip_Forall. exact K8.
  - unfold strip. apply rstrip_tight, lstrip_tight. exact T8.
  - apply strip_idem.
  - intros w Hw Hin. apply (Ha6 w Hw). apply strip_toks in Hin.
    unfold toks in Hin |- *. rewrite <- E1, <- E2.
    destruct Hin as [Hin|Hin]; [left; rewrite <- S1; exact Hin|right; apply S2; exact Hin].
Qed.

Lemma normalize_text_idempotent (t : str) :
  forallb plain t = true -> normalize_text (normalize_text t) = normalize_text t.
Proof.
  intros Hp. rewrite (normalize_text_steps t). destruct t as [|c t]; [reflexivity|].
  rewrite normalize_text_steps.
  destruct (steps (c :: t)) as [|d r] eqn:E; [reflexivity|].
  rewrite <- E. apply steps_normal_id. apply steps_normal. exact Hp.
Qed.

(** C5, as amended.  On a text of ASCII characters without an underscore,
    normalising twice gives what normalising once gives. *)
Theorem normalize_idempotent_plain (text : string) :
  forallb plain (of_string text) = true ->
  normalize (normalize text) = normalize text.
Proof.
  intros Hp. unfold normalize at 1. unfold normalize at 1.
  unfold of_string at 1. unfold to_string at 2.
  rewrite list_ascii_of_string_of_list_ascii.
  fold (of_string text). rewrite (normalize_text_idempotent _ Hp). reflexivity.
Qed.

Lemma normalize_idempotent_witness :
  forallb plain (of_string "Senior ML/AI engineer: REST API, C++ & UX (5+ yrs)") = true /\
  normalize (normalize "Senior ML/AI engineer: REST API, C++ & UX (5+ yrs)") =
  normalize "Senior ML/AI engineer: REST API, C++ & UX (5+ yrs)".
Proof.
  split; [reflexivity|].
  apply (normalize_idempotent_plain "Senior ML/AI engineer: REST API, C++ & UX (5+ yrs)").
  reflexivity.
Defined.

(** The claim C5 fails: the underscore is a word character, so ["_ml"]
    holds no word [ml]; it is then replaced by a space, and the second
    normalisation expands the [ml] that the first one has laid bare. *)
Lemma normalize_not_idempotent :
  normalize "_ml" = "ml" /\
  normalize (normalize "_ml") = "machine learning" /\
  ~ (forall text : string, normalize (normalize text) = normalize text).
Proof.
  assert (H1 : normalize "_ml" = "ml") by (vm_compute; reflexivity).
  assert (H2 : normalize (normalize "_ml") = "machine learning") by (vm_compute; reflexivity).
  split; [exact H1|]. split; [exact H2|].
  intros H. specialize (H "_ml"). rewrite H2, H1 in H. discriminate.
Qed.

End NormalizeFacts.

(** ** [load_ontology] *)

Module OntologyFacts.
Import Skills.
Local Open Scope string_scope.
Local Open Scope list_scope.












End OntologyFacts.

(** ** The matcher *)

Module MatcherFacts.
Import Py Models Matcher.
Local Open Scope string_scope.

Lemma safe_set_list_to_set (xs : list string) : safe_set xs = list_to_set xs.
Proof. destruct xs; reflexivity. Qed.

Lemma safe_set_empty (xs : list string) : safe_set xs = ∅ <-> xs = [].
Proof.
  rewrite safe_set_list_to_set. split; [|intros ->; reflexivity].
  destruct xs as [|x xs]; [reflexivity|]. intros H.
  assert (Hx : x ∈ (list_to_set (x :: xs) : gset string)) by set_solver.
  rewrite H in Hx. set_solver.
Qed.

(** A quotient of two lengths, the numerator of a subset. *)
Lemma ratio_bounds (a b : gset string) :
  a ⊆ b -> b <> ∅ -> (0 <= ratio a b <= 1)%R /\ (ratio a b = 1%R <-> a = b).
Proof.
  intros Hsub Hne. unfold ratio.
  assert (Hle : size a <= size b) by (apply subseteq_size; exact Hsub).
  assert (Hpos : 0 < size b).
  { destruct (size b) eqn:E; [|lia]. apply size_empty_iff in E.
    exfalso. apply Hne. apply leibniz_equiv. exact E. }
  assert (Ha : (0 <= INR (size a))%R) by apply pos_INR.
  assert (Hb : (0 < INR (size b))%R) by (apply lt_0_INR; lia).
  assert (Hab : (INR (size a) <= INR (size b))%R) by (apply le_INR; lia).
  split.
  - split.
    + apply Rmult_le_reg_r with (r := INR (size b)); [exact Hb|].
      unfold Rdiv. rewrite Rmult_assoc, Rinv_l by lra. lra.
    + apply Rmult_le_reg_r with (r := INR (size b)); [exact Hb|].
      unfold Rdiv. rewrite Rmult_assoc, Rinv_l by lra. lra.
  - split.
    + intros H.
      assert (E : INR (size a) = INR (size b)).
      { apply Rmult_eq_reg_r with (r := (/ INR (size b))%R).
        - unfold Rdiv in H. rewrite H, Rinv_r by lra. reflexivity.
        - apply Rinv_neq_0_compat. lra. }
      apply INR_eq in E. apply set_subseteq_size_eq; [exact Hsub|lia].
    + intros ->. unfold Rdiv. apply Rinv_r. lra.
Qed.

Lemma coverage_unfold (resume_skills jd_skills : list string) :
  jd_skills <> [] ->
  calculate_skill_coverage resume_skills jd_skills =
  ratio (list_to_set resume_skills ∩ list_to_set jd_skills) (list_to_set jd_skills).
Proof.
  intros Hne. unfold calculate_skill_coverage.
  destruct jd_skills as [|j js] eqn:E; [congruence|]. rewrite <- E in *. clear E.
  cbv zeta. destruct (decide (safe_set jd_skills = ∅)) as [H|H].
  - apply safe_set_empty in H. congruence.
  - rewrite !safe_set_list_to_set. reflexivity.
Qed.

Lemma density_unfold (resume_skills jd_skills : list string) :
  resume_skills <> [] ->
  calculate_skill_density resume_skills jd_skills =
  ratio (list_to_set resume_skills ∩ list_to_set jd_skills) (list_to_set resume_skills).
Proof.
  intros Hne. unfold calculate_skill_density.
  destruct resume_skills as [|j js] eqn:E; [congruence|]. rewrite <- E in *. clear E.
  cbv zeta. destruct (decide (safe_set resume_skills = ∅)) as [H|H].
  - apply safe_set_empty in H. congruence.
  - rewrite !safe_set_list_to_set. reflexivity.
Qed.

Lemma list_to_set_nonempty (xs : list string) :
  xs <> [] -> (list_to_set xs : gset string) <> ∅.
Proof. intros H E. apply H. apply safe_set_empty. rewrite safe_set_list_to_set. exact E. Qed.

Lemma coverage_in_unit (resume_skills jd_skills : list string) :
  in_unit_interval (calculate_skill_coverage resume_skills jd_skills).
Proof.
  destruct jd_skills as [|j js] eqn:E.
  - unfold in_unit_interval. cbn. lra.
  - rewrite <- E. rewrite coverage_unfold by congruence.
    apply ratio_bounds;
      [apply intersection_subseteq_r|apply list_to_set_nonempty; congruence].
Qed.

Lemma density_in_unit (resume_skills jd_skills : list string) :
  in_unit_interval (calculate_skill_density resume_skills jd_skills).
Proof.
  destruct resume_skills as [|j js] eqn:E.
  - unfold in_unit_interval. cbn. lra.
  - rewrite <- E. rewrite density_unfold by congruence.
    apply ratio_bounds;
      [apply intersection_subseteq_l|apply list_to_set_nonempty; congruence].
Qed.

(** C4.  The coverage of the job skills [J] by the resume skills [R] is
    [0.0] when the list [J] is empty and [|set(R) ∩ set(J)| / |set(J)|]
    otherwise; it lies in [[0,1]]; and it is [1] exactly when every skill
    of [J] is a skill of [R] and [J] is not empty. *)
Theorem calculate_skill_coverage_spec (resume_skills jd_skills : list string) :
  let R : gset string := list_to_set resume_skills in
  let J : gset string := list_to_set jd_skills in
  let coverage := calculate_skill_coverage resume_skills jd_skills in
  (jd_skills = [] -> coverage = 0%R) /\
  (jd_skills <> [] -> coverage = (INR (size (R ∩ J)) / INR (size J))%R) /\
  (0 <= coverage <= 1)%R /\
  (coverage = 1%R <-> J ⊆ R /\ jd_skills <> []).
Proof.
  intros R J coverage. split; [intros ->; reflexivity|].
  split; [intros H; unfold coverage; rewrite coverage_unfold by exact H; reflexivity|].
  split; [apply coverage_in_unit|].
  destruct (decide (jd_skills = [])) as [E|E].
  - subst jd_skills. unfold coverage. cbn. split; [lra|intros [_ H]; congruence].
  - unfold coverage. rewrite coverage_unfold by exact E. fold R J.
    destruct (ratio_bounds (R ∩ J) J) as [_ Hiff];
      [apply intersection_subseteq_r|apply list_to_set_nonempty; exact E|].
    rewrite Hiff. split.
    + intros H. split; [|exact E]. rewrite <- H. apply intersection_subseteq_l.
    + intros [H _]. apply leibniz_equiv. apply (anti_symm subseteq).
      * apply intersection_subseteq_r.
      * apply intersection_greatest; [exact H|reflexivity].
Qed.

(** The scenario of the specification and of [tests/test_pipeline.py]:
    two of the three job skills are covered. *)
Lemma calculate_skill_coverage_scenario :
  calculate_skill_coverage ["python"; "sql"; "machine learning"]
    ["python"; "sql"; "docker"] = (2 / 3)%R.
Proof.
  destruct (calculate_skill_coverage_spec ["python"; "sql"; "machine learning"]
              ["python"; "sql"; "docker"]) as (_ & H & _).
  rewrite H by discriminate.
  replace (size _) with 2 by (vm_compute; reflexivity).
  replace (size _) with 3 by (vm_compute; reflexivity).
  cbn [INR]. lra.
Defined.


(** The order of [elements]: one admissible listing order. *)
Definition elements_order : SetOrder :=
  {| to_list := elements;
     to_list_elem := fun s x => elem_of_elements s x;
     to_list_NoDup := fun s => NoDup_elements s |}.

(** A model whose inference fails. *)
Definition failing_model : SentenceTransformer :=
  fun _ => Raise (Exception "embedding failed").

(** A model whose two embeddings are opposite unit vectors. *)
Definition opposite_model : SentenceTransformer :=
  fun _ => Ok [[1%R]; [(-1)%R]].

(** A model whose two embeddings are the same unit vector. *)
Definition aligned_model : SentenceTransformer :=
  fun _ => Ok [[1%R]; [1%R]].

Definition plain_resume (text : string) (skills : list string) : Resume :=
  {| raw_text := text; email := None; phone := None; skills := skills;
     skills_by_category := ∅; experience := 0%R; education := None |}.

Definition plain_jd (text : string) (required preferred : list string)
  : JobDescription :=
  {| jd_raw_text := text; required_skills := required;
     preferred_skills := preferred; jd_skills_by_category := ∅;
     title := None; company := None |}.

Lemma check_unit_ok (field : string) (x : R) :
  in_unit_interval x -> check_unit field x = Ok x.
Proof.
  intros [H0 H1]. unfold check_unit.
  destruct (Rle_dec 0 x); [|contradiction].
  destruct (Rle_dec x 1); [reflexivity|contradiction].
Qed.

Lemma check_unit_inv (field : string) (x y : R) :
  check_unit field x = Ok y -> y = x /\ in_unit_interval x.
Proof.
  unfold check_unit, in_unit_interval.
  destruct (Rle_dec 0 x); [|discriminate].
  destruct (Rle_dec x 1); [|discriminate].
  intros [= <-]. auto.
Qed.

Lemma new_MatchResult_ok resume jd sim cov dens matching missing explanation :
  in_unit_interval sim -> in_unit_interval cov -> in_unit_interval dens ->
  new_MatchResult resume jd sim cov dens matching missing explanation =
  Ok {| resume := resume; job_description := jd; similarity_score := sim;
        skill_coverage := cov; skill_density := dens;
        matching_skills := matching; missing_skills := missing;
        explanation := explanation |}.
Proof.
  intros Hs Hc Hd. unfold new_MatchResult.
  rewrite (check_unit_ok _ _ Hs). cbn [bind Ok].
  rewrite (check_unit_ok _ _ Hc). cbn [bind Ok].
  rewrite (check_unit_ok _ _ Hd). reflexivity.
Qed.

Lemma new_MatchResult_inv resume jd sim cov dens matching missing explanation mr :
  new_MatchResult resume jd sim cov dens matching missing explanation = Ok mr ->
  similarity_score mr = sim /\ matching_skills mr = matching /\
  missing_skills mr = missing /\ in_unit_interval sim.
Proof.
  unfold new_MatchResult.
  destruct (check_unit "similarity_score" sim) as [e|s] eqn:Es; [discriminate|].
  apply check_unit_inv in Es. destruct Es as [-> Hs]. cbn [bind].
  destruct (check_unit "skill_coverage" cov) as [e|c] eqn:Ec; [discriminate|].
  cbn [bind].
  destruct (check_unit "skill_density" dens) as [e|d] eqn:Ed; [discriminate|].
  cbn [bind]. intros [= <-]. cbn. auto.
Qed.

(** The match returns a result exactly when the similarity is in range. *)
Lemma match_returns_iff order model resume jd :
  (exists mr, match_resume_to_jd order model resume jd = Ok mr) <->
  in_unit_interval
    (calculate_semantic_similarity model (raw_text resume) (jd_raw_text jd)).
Proof.
  unfold match_resume_to_jd. split.
  - intros [mr H]. apply new_MatchResult_inv in H. tauto.
  - intros H. eexists. apply new_MatchResult_ok;
      [exact H|apply coverage_in_unit|apply density_in_unit].
Qed.

Lemma similarity_blank (model : SentenceTransformer) (text1 text2 : string) :
  is_blank text1 = true \/ is_blank text2 = true ->
  calculate_semantic_similarity model text1 text2 = 0%R.
Proof.
  intros H. unfold calculate_semantic_similarity, semantic_similarity_body.
  destruct H as [-> | ->]; [reflexivity|].
  rewrite orb_true_r. reflexivity.
Qed.

Lemma similarity_body_fails (model : SentenceTransformer) (text1 text2 : string) e :
  semantic_similarity_body model text1 text2 = Raise e ->
  calculate_semantic_similarity model text1 text2 = 0%R.
Proof. intros H. unfold calculate_semantic_similarity. rewrite H. reflexivity. Qed.

(** On two non-blank texts that the model embeds, the value returned is
    the cosine of the two vectors as it is, without any clipping. *)
Lemma similarity_is_cosine (model : SentenceTransformer) (text1 text2 : string)
  (u v : list R) (rest : list (list R)) :
  is_blank text1 = false -> is_blank text2 = false ->
  model [text1; text2] = Ok (u :: v :: rest) ->
  length u = length v ->
  calculate_semantic_similarity model text1 text2 =
  dot (l2_normalize u) (l2_normalize v).
Proof.
  intros H1 H2 Hm Hl.
  unfold calculate_semantic_similarity, semantic_similarity_body.
  rewrite H1, H2, Hm. cbn [orb bind Ok index nth_error].
  unfold cosine_similarity. rewrite Hl, Nat.eqb_refl. reflexivity.
Qed.

Lemma l2_normalize_unit (x : R) : (x * x = 1)%R -> l2_normalize [x] = [x].
Proof.
  intros H. unfold l2_normalize, norm, dot. cbn [combine map fold_right fst snd].
  replace (x * x + 0)%R with 1%R by lra. rewrite sqrt_1.
  destruct (Req_dec_T 1 0); [lra|]. cbn [map]. f_equal. field.
Qed.

Lemma aligned_similarity (text1 text2 : string) :
  in_unit_interval (calculate_semantic_similarity aligned_model text1 text2).
Proof.
  unfold in_unit_interval.
  destruct (is_blank text1 || is_blank text2) eqn:E.
  - apply orb_true_iff in E. rewrite (similarity_blank _ _ _ E). lra.
  - apply orb_false_iff in E. destruct E as [E1 E2].
    rewrite (similarity_is_cosine aligned_model text1 text2 [1%R] [1%R] []);
      [|exact E1|exact E2|reflexivity|reflexivity].
    rewrite !l2_normalize_unit by lra. unfold dot. cbn. lra.
Qed.

(** C2.  On the texts ["a"] and ["b"] and a model that embeds them into
    the opposite unit vectors [(1)] and [(-1)], the value returned is the
    cosine [-1]: it is not clipped, and it is outside [[0,1]]. *)
Theorem similarity_not_clipped :
  calculate_semantic_similarity opposite_model "a" "b" = (-1)%R /\
  ~ in_unit_interval (calculate_semantic_similarity opposite_model "a" "b").
Proof.
  assert (H : calculate_semantic_similarity opposite_model "a" "b" = (-1)%R).
  { rewrite (similarity_is_cosine opposite_model "a" "b" [1%R] [(-1)%R] []);
      [|reflexivity|reflexivity|reflexivity|reflexivity].
    rewrite !l2_normalize_unit by lra. unfold dot. cbn. lra. }
  split; [exact H|]. rewrite H. unfold in_unit_interval. lra.
Qed.

(** C1, as amended.  When the embedding step fails (the model raises, it
    returns too few vectors, or the cosine is refused), the failure is
    caught: the similarity is [0.0] and the match returns a result whose
    [similarity_score] is [0.0]. *)
Theorem embedding_failure_defaults_to_zero (order : SetOrder)
  (model : SentenceTransformer) (resume : Resume) (jd : JobDescription) (e : exn) :
  semantic_similarity_body model (raw_text resume) (jd_raw_text jd) = Raise e ->
  calculate_semantic_similarity model (raw_text resume) (jd_raw_text jd) = 0%R /\
  exists mr, match_resume_to_jd order model resume jd = Ok mr /\
             similarity_score mr = 0%R.
Proof.
  intros H. pose proof (similarity_body_fails _ _ _ _ H) as Hz.
  split; [exact Hz|].
  destruct (proj2 (match_returns_iff order model resume jd)) as [mr Hmr].
  { rewrite Hz. unfold in_unit_interval. lra. }
  exists mr. split; [exact Hmr|].
  unfold match_resume_to_jd in Hmr. apply new_MatchResult_inv in Hmr.
  destruct Hmr as (-> & _). exact Hz.
Qed.

Lemma embedding_failure_witness :
  semantic_similarity_body failing_model "python developer" "java developer"
    = Raise (Exception "embedding failed") /\
  exists mr,
    match_resume_to_jd elements_order failing_model
      (plain_resume "python developer" ["python"])
      (plain_jd "java developer" ["java"] []) = Ok mr /\
    similarity_score mr = 0%R.
Proof.
  split; [reflexivity|].
  exact (proj2 (embedding_failure_defaults_to_zero elements_order failing_model
           (plain_resume "python developer" ["python"])
           (plain_jd "java developer" ["java"] [])
           (Exception "embedding failed") eq_refl)).
Defined.

(** The claim C1 fails: the model raises, and the match returns a result
    with the similarity [0.0] in place of the failure. *)
Lemma embedding_failure_is_swallowed :
  failing_model ["python developer"; "java developer"]
    = Raise (Exception "embedding failed") /\
  exists mr,
    match_resume_to_jd elements_order failing_model
      (plain_resume "python developer" ["python"])
      (plain_jd "java developer" ["java"] []) = Ok mr /\
    similarity_score mr = 0%R.
Proof.
  split; [reflexivity|].
  assert (Hz : calculate_semantic_similarity failing_model
                 "python developer" "java developer" = 0%R)
    by (apply (similarity_body_fails _ _ _ (Exception "embedding failed"));
        reflexivity).
  destruct (proj2 (match_returns_iff elements_order failing_model
                     (plain_resume "python developer" ["python"])
                     (plain_jd "java developer" ["java"] []))) as [mr Hmr].
  { cbn [raw_text jd_raw_text plain_resume plain_jd]. rewrite Hz.
    unfold in_unit_interval. lra. }
  exists mr. split; [exact Hmr|].
  unfold match_resume_to_jd in Hmr. apply new_MatchResult_inv in Hmr.
  destruct Hmr as (-> & _). exact Hz.
Qed.

(** X1.  What a match lists: [matching_skills] are the skills of the resume
    that are among all the skills of the job description, [missing_skills]
    are all the skills of the job description (required and preferred) that
    the resume lacks, each listed exactly once, and the two lists are
    disjoint. *)
Theorem match_skill_sets (order : SetOrder) (model : SentenceTransformer)
  (resume : Resume) (jd : JobDescription) (mr : MatchResult) :
  match_resume_to_jd order model resume jd = Ok mr ->
  (forall x, x ∈ matching_skills mr <-> x ∈ skills resume /\ x ∈ jd_skills jd) /\
  (forall x, x ∈ missing_skills mr <-> x ∈ jd_skills jd /\ x ∉ skills resume) /\
  (forall x, x ∈ matching_skills mr -> x ∉ missing_skills mr) /\
  NoDup (matching_skills mr) /\ NoDup (missing_skills mr).
Proof.
  intros H. unfold match_resume_to_jd in H. apply new_MatchResult_inv in H.
  destruct H as (_ & -> & -> & _).
  unfold _safe_get_skills, _safe_get_skills_jd. rewrite !safe_set_list_to_set.
  assert (Hm : forall x, x ∈ to_list order
                 (list_to_set (skills resume) ∩ list_to_set (jd_skills jd))
               <-> x ∈ skills resume /\ x ∈ jd_skills jd).
  { intros x. rewrite to_list_elem, elem_of_intersection, !elem_of_list_to_set.
    reflexivity. }
  assert (Hd : forall x, x ∈ to_list order
                 (list_to_set (jd_skills jd) ∖ list_to_set (skills resume))
               <-> x ∈ jd_skills jd /\ x ∉ skills resume).
  { intros x. rewrite to_list_elem, elem_of_difference, !elem_of_list_to_set.
    reflexivity. }
  split; [exact Hm|]. split; [exact Hd|].
  split; [|split; apply to_list_NoDup].
  intros x Hx Hx'. apply Hm in Hx. apply Hd in Hx'. tauto.
Qed.

(** The scenario of the specification. *)
Lemma match_skill_sets_witness :
  exists mr,
    match_resume_to_jd elements_order aligned_model
      (plain_resume "python and sql" ["python"; "sql"; "machine learning"])
      (plain_jd "python, sql, docker" ["python"; "sql"; "docker"] []) = Ok mr /\
    (forall x, x ∈ matching_skills mr <-> x ∈ ["python"; "sql"; "machine learning"]
                                         /\ x ∈ ["python"; "sql"; "docker"]) /\
    (forall x, x ∈ missing_skills mr <-> x ∈ ["python"; "sql"; "docker"]
                                         /\ x ∉ ["python"; "sql"; "machine learning"]).
Proof.
  destruct (proj2 (match_returns_iff elements_order aligned_model
      (plain_resume "python and sql" ["python"; "sql"; "machine learning"])
      (plain_jd "python, sql, docker" ["python"; "sql"; "docker"] [])))
    as [mr Hmr]; [apply aligned_similarity|].
  exists mr. split; [exact Hmr|].
  destruct (match_skill_sets _ _ _ _ _ Hmr) as (H1 & H2 & _).
  split; [exact H1|exact H2].
Defined.

(** C3.  On a job description with the required skill [python] and the
    preferred skill [docker], and a resume with the skill [python], the
    match lists [docker] in [missing_skills], although it is not among
    the required skills that the resume lacks. *)
Theorem missing_skills_include_preferred :
  exists mr,
    match_resume_to_jd elements_order aligned_model
      (plain_resume "python" ["python"])
      (plain_jd "python, docker a plus" ["python"] ["docker"]) = Ok mr /\
    "docker" ∈ missing_skills mr /\
    ~ ("docker" ∈ required_skills (plain_jd "python, docker a plus" ["python"] ["docker"])
       /\ "docker" ∉ skills (plain_resume "python" ["python"])).
Proof.
  destruct (proj2 (match_returns_iff elements_order aligned_model
      (plain_resume "python" ["python"])
      (plain_jd "python, docker a plus" ["python"] ["docker"])))
    as [mr Hmr]; [apply aligned_similarity|].
  exists mr. split; [exact Hmr|].
  pose proof Hmr as Hmr'. unfold match_resume_to_jd in Hmr'.
  apply new_MatchResult_inv in Hmr'. destruct Hmr' as (_ & _ & -> & _).
  split.
  - apply to_list_elem. rewrite !safe_set_list_to_set.
    apply elem_of_difference. rewrite !elem_of_list_to_set. cbn.
    split.
    + apply list_elem_of_In. cbn. auto.
    + intros H. apply list_elem_of_In in H. cbn in H.
      destruct H as [H|[]]. discriminate.
  - cbn. intros [H _]. apply list_elem_of_In in H. cbn in H.
    destruct H as [H|[]]. discriminate.
Qed.

End MatcherFacts.

(** ** The pipeline *)

Module PipelineFacts.
Import Py Re Models Pipeline ReFacts.
Local Open Scope string_scope.
Local Open Scope list_scope.

(** [x] is the greatest element of [xs]. *)
Definition is_max (x : R) (xs : list R) : Prop :=
  In x xs /\ forall y, In y xs -> (y <= x)%R.

Lemma fold_Rmax_is_max (t : list R) :
  forall x, is_max (fold_left Rmax t x) (x :: t).
Proof.
  induction t as [|y t IH]; intros x; cbn [fold_left].
  - split; [left; reflexivity|]. intros y [<-|[]]. lra.
  - destruct (IH (Rmax x y)) as [Hin Hle]. split.
    + destruct Hin as [E|Hin]; [|right; right; exact Hin].
      rewrite <- E. unfold Rmax. destruct (Rle_dec x y); [right; left|left]; reflexivity.
    + intros z [<-|[<-|Hz]].
      * etransitivity; [apply Rmax_l|]. apply Hle. left. reflexivity.
      * etransitivity; [apply Rmax_r|]. apply Hle. left. reflexivity.
      * apply Hle. right. exact Hz.
Qed.

Lemma max_floats_is_max (xs : list R) :
  xs <> [] -> exists m, max_floats xs = Ok m /\ is_max m xs.
Proof.
  destruct xs as [|x t]; [congruence|]. intros _.
  eexists. split; [reflexivity|]. apply fold_Rmax_is_max.
Qed.

Definition numeric (r : re) : Prop := digit_groups r /\ captures r = true.

Lemma patterns_numeric : Forall numeric patterns.
Proof. repeat constructor. Qed.

Lemma findall_isdigit (r : re) (text : str) :
  numeric r -> Forall (fun g => isdigit g = true) (findall r text).
Proof. intros [Hd Hc]. apply findall_numerals; assumption. Qed.














(** The resumes of the paths that are processed without an error. *)
Definition successes (self : ProcessingPipeline) (file_paths : list string)
  : list Resume :=
  flat_map (fun p => match fst (process_resume self p) with
                     | inr resume => [resume]
                     | inl _ => []
                     end) file_paths.

(** The paths on which [process_resume] raises. *)
Definition failures (self : ProcessingPipeline) (file_paths : list string)
  : list string :=
  List.filter (fun p => negb (is_ok (fst (process_resume self p)))) file_paths.

(** What one path adds to the log of the batch. *)
Definition batch_entry (self : ProcessingPipeline) (p : string) : list log_record :=
  snd (process_resume self p) ++
  match fst (process_resume self p) with
  | inl e => [ErrorBatch p e]
  | inr _ => []
  end.

Lemma batch_loop_spec (self : ProcessingPipeline) (file_paths : list string) :
  forall resumes failed_files log,
    batch_loop self file_paths resumes failed_files log =
    (resumes ++ successes self file_paths,
     failed_files ++ failures self file_paths,
     log ++ flat_map (batch_entry self) file_paths).
Proof.
  induction file_paths as [|p ps IH]; intros resumes failed_files log.
  - cbn. rewrite !app_nil_r. reflexivity.
  - cbn [batch_loop successes failures flat_map List.filter]. unfold batch_entry at 1.
    destruct (process_resume self p) as [[e|resume] l] eqn:E; cbn [fst snd is_ok negb];
      rewrite IH; unfold successes, failures; rewrite <- ?app_assoc; reflexivity.
Qed.

Lemma process_multiple_resumes_unfold (self : ProcessingPipeline) (file_paths : list string) :
  process_multiple_resumes self file_paths =
  (successes self file_paths,
   (flat_map (batch_entry self) file_paths ++
    match failures self file_paths with
    | [] => []
    | failed_files => [WarningFailed failed_files]
    end) ++ [InfoSummary (length (successes self file_paths)) (length file_paths)]).
Proof.
  unfold process_multiple_resumes. rewrite batch_loop_spec. cbn [app].
  destruct (failures self file_paths); [rewrite app_nil_r|]; reflexivity.
Qed.

(** C6, as amended.  The batch returns the resumes of the paths that are
    processed without an error, in the order of the paths, and nothing
    else; every failure is written to the log with its path, and the
    failed paths are listed in a warning. *)
Theorem process_multiple_resumes_spec (self : ProcessingPipeline)
  (file_paths : list string) :
  fst (process_multiple_resumes self file_paths) = successes self file_paths /\
  (forall p e, In p file_paths -> fst (process_resume self p) = Raise e ->
     In (ErrorBatch p e) (snd (process_multiple_resumes self file_paths))) /\
  (failures self file_paths <> [] ->
     In (WarningFailed (failures self file_paths))
        (snd (process_multiple_resumes self file_paths))).
Proof.
  rewrite process_multiple_resumes_unfold. cbn [fst snd].
  split; [reflexivity|]. split.
  - intros p e Hp He. apply in_or_app. left. apply in_or_app. left.
    apply in_flat_map. exists p. split; [exact Hp|].
    unfold batch_entry. rewrite He. apply in_or_app. right. left. reflexivity.
  - intros Hf. apply in_or_app. left. apply in_or_app. right.
    destruct (failures self file_paths); [congruence|left; reflexivity].
Qed.

(** A pipeline on an empty file system. *)
Definition no_files : ProcessingPipeline :=
  {| collaborators :=
       {| text_from_file := fun path => Raise (FileNotFoundError "File not found");
          extract_pii := fun _ => (None, None);
          extract_name := fun _ => None;
          extract_skills := fun _ _ => [];
          extract_skills_with_categories := fun _ _ => ∅ |};
     ontology := [] |}.

Lemma process_multiple_resumes_witness :
  fst (process_multiple_resumes no_files ["a.pdf"; "b.docx"]) = [] /\
  In (ErrorBatch "b.docx" (FileNotFoundError "File not found"))
     (snd (process_multiple_resumes no_files ["a.pdf"; "b.docx"])).
Proof.
  destruct (process_multiple_resumes_spec no_files ["a.pdf"; "b.docx"])
    as (H1 & H2 & _).
  split; [exact H1|]. apply H2; [right; left; reflexivity|reflexivity].
Defined.

(** The claim C6 fails: the value returned is the same for a batch with a
    failed path and for the empty batch, so the failures cannot be read
    off it. *)
Lemma batch_returns_successes_only :
  fst (process_multiple_resumes no_files ["missing.pdf"]) = [] /\
  fst (process_multiple_resumes no_files []) = [] /\
  failures no_files ["missing.pdf"] = ["missing.pdf"] /\
  ~ (exists failed_of : list Resume -> list string,
       forall self file_paths,
         failed_of (fst (process_multiple_resumes self file_paths)) =
         failures self file_paths).
Proof.
  split; [reflexivity|]. split; [reflexivity|]. split; [reflexivity|].
  intros [failed_of H].
  pose proof (H no_files ["missing.pdf"]) as H1.
  pose proof (H no_files []) as H2.
  change (fst (process_multiple_resumes no_files ["missing.pdf"])) with (@nil Resume) in H1.
  change (fst (process_multiple_resumes no_files [])) with (@nil Resume) in H2.
  rewrite H2 in H1. discriminate.
Qed.

End PipelineFacts.

(** ** The metrics *)

Module MetricsFacts.
Import Metrics.

Lemma sum_bools_count (bs : list bool) :
  sum_bools bs = Z.of_nat (length (List.filter (fun b : bool => b) bs)).
Proof.
  induction bs as [|b bs IH]; [reflexivity|].
  cbn [sum_bools fold_right List.filter]. fold (sum_bools bs). rewrite IH.
  destruct b; cbn [length]; lia.
Qed.

Lemma clamp_min (n : nat) (k : Z) :
  (if (Z.of_nat n <? k)%Z then Z.of_nat n else k) = Z.min k (Z.of_nat n).
Proof. destruct (Z.ltb_spec (Z.of_nat n) k); lia. Qed.

(** C9.  On a non-empty list and [k >= 1], the precision is the number of
    [True] among the first [min(k, len)] entries divided by [min(k, len)]. *)
Theorem precision_at_k_value (relevant_items : list bool) (k : Z) :
  relevant_items <> [] -> (1 <= k)%Z ->
  let m := Z.min k (Z.of_nat (length relevant_items)) in
  precision_at_k relevant_items k =
  Ok (INR (length (List.filter (fun b : bool => b) (firstn (Z.to_nat m) relevant_items)))
      / IZR m)%R.
Proof.
  intros Hne Hk m. unfold precision_at_k. rewrite clamp_min. fold m.
  assert (Hlen : (1 <= Z.of_nat (length relevant_items))%Z).
  { destruct relevant_items; [congruence|cbn [length]; lia]. }
  assert (Hm : (1 <= m)%Z) by (unfold m; lia).
  unfold slice_to, true_div.
  destruct (Z.ltb_spec m 0); [lia|].
  destruct (Z.eqb_spec m 0); [lia|].
  rewrite sum_bools_count, <- INR_IZR_INZ. reflexivity.
Qed.

(** The scenario of the specification. *)
Lemma precision_at_k_scenario :
  [true; false; true; true] <> [] /\ (1 <= 2)%Z /\
  Metrics.precision_at_k [true; false; true; true] 2 = Ok 0.5%R.
Proof.
  split; [discriminate|]. split; [lia|].
  rewrite (precision_at_k_value [true; false; true; true] 2); [|discriminate|lia].
  change (@eq (result R) (Ok (INR 1 / IZR 2)%R) (Ok 0.5%R)).
  cbn [INR]. f_equal. lra.
Defined.

(** C10, as amended.  The function raises exactly when [k = 0], or the
    list is empty and [k >= 1] (then [k] is clamped to [0]); the exception
    is [ZeroDivisionError]. *)
Theorem precision_at_k_raises (relevant_items : list bool) (k : Z) :
  (precision_at_k relevant_items k = Raise ZeroDivisionError <->
   k = 0%Z \/ (relevant_items = [] /\ (0 < k)%Z)) /\
  (is_ok (precision_at_k relevant_items k) = false <->
   precision_at_k relevant_items k = Raise ZeroDivisionError).
Proof.
  unfold precision_at_k. rewrite clamp_min. unfold true_div.
  destruct (Z.eqb_spec (Z.min k (Z.of_nat (length relevant_items))) 0) as [E|E].
  - split; [|split; [reflexivity|intros _; reflexivity]].
    split; [intros _|reflexivity].
    destruct relevant_items; cbn [length] in *; [|lia].
    destruct (Z.eq_dec k 0%Z); [left; assumption|right; split; [reflexivity|lia]].
  - split; [|split; discriminate].
    split; [discriminate|].
    intros [->| [-> Hk]]; cbn [length] in E; lia.
Qed.

Lemma precision_at_k_raises_witness :
  precision_at_k [] 3 = Raise ZeroDivisionError /\
  is_ok (precision_at_k [true; false] 5) = true.
Proof.
  split.
  - apply (proj1 (precision_at_k_raises [] 3)). right. split; [reflexivity|lia].
  - destruct (is_ok (precision_at_k [true; false] 5)) eqn:E; [reflexivity|].
    apply (proj2 (precision_at_k_raises [true; false] 5)) in E.
    apply (proj1 (precision_at_k_raises [true; false] 5)) in E.
    destruct E as [E|[E _]]; discriminate.
Defined.

(** The claim C10 fails for a negative [k]: on the empty list nothing is
    clamped, and the division by [k] returns a value. *)
Lemma precision_at_k_negative_k :
  precision_at_k [] (-1) = Ok 0%R /\
  ~ (forall k : Z, is_ok (precision_at_k [] k) = false).
Proof.
  assert (H : precision_at_k [] (-1) = Ok 0%R).
  { change (@eq (result R) (Ok (IZR 0 / IZR (-1))%R) (Ok 0%R)). f_equal. lra. }
  split; [exact H|].
  intros C. specialize (C (-1)%Z). rewrite H in C. discriminate.
Qed.
End MetricsFacts.

(** ** Sorting by decreasing key *)

Module SortFacts.
Import Ranking.

Section Sort.
Context {A : Type} (key : A -> R).

(** [b] may follow [a] in a list sorted by decreasing key. *)
Definition desc (a b : A) : Prop := (key b <= key a)%R.

(** The elements whose key is [k]. *)
Definition with_key (k : R) (l : list A) : list A :=
  List.filter (fun x => if Req_dec_T (key x) k then true else false) l.

Lemma insert_desc_perm (x : A) (l : list A) :
  Permutation (insert_desc key x l) (x :: l).
Proof.
  induction l as [|y t IH]; cbn [insert_desc]; [reflexivity|].
  destruct (Rlt_dec (key x) (key y)); [|reflexivity].
  rewrite IH. apply perm_swap.
Qed.

Lemma sort_desc_perm (l : list A) : Permutation (sort_desc key l) l.
Proof.
  induction l as [|x t IH]; [reflexivity|].
  cbn [sort_desc fold_right]. fold (sort_desc key t).
  rewrite insert_desc_perm, IH. reflexivity.
Qed.

Lemma insert_desc_sorted (x : A) (l : list A) :
  StronglySorted desc l -> StronglySorted desc (insert_desc key x l).
Proof.
  induction 1 as [|y t Ht IH Hy]; cbn [insert_desc].
  - constructor; constructor.
  - destruct (Rlt_dec (key x) (key y)) as [Hlt|Hge].
    + constructor; [exact IH|].
      apply List.Forall_forall. intros z Hz.
      apply (Permutation_in _ (insert_desc_perm x t)) in Hz.
      destruct Hz as [<-|Hz]; [unfold desc; lra|].
      rewrite List.Forall_forall in Hy. apply Hy. exact Hz.
    + constructor; [constructor; assumption|].
      constructor; [unfold desc; lra|].
      eapply List.Forall_impl; [|exact Hy]. intros z Hz. unfold desc in *. lra.
Qed.

Lemma sort_desc_sorted (l : list A) : StronglySorted desc (sort_desc key l).
Proof.
  induction l as [|x t IH]; [constructor|].
  cbn [sort_desc fold_right]. apply insert_desc_sorted. exact IH.
Qed.

Lemma insert_desc_with_key (k : R) (x : A) (l : list A) :
  StronglySorted desc l ->
  with_key k (insert_desc key x l) = with_key k (x :: l).
Proof.
  induction 1 as [|y t Ht IH Hy]; cbn [insert_desc]; [reflexivity|].
  destruct (Rlt_dec (key x) (key y)) as [Hlt|Hge]; [|reflexivity].
  unfold with_key in *. cbn [List.filter] in *. rewrite IH.
  destruct (Req_dec_T (key x) k), (Req_dec_T (key y) k); try reflexivity.
  exfalso. lra.
Qed.

(** The sort is stable: elements of equal keys keep their order. *)
Lemma sort_desc_stable (k : R) (l : list A) :
  with_key k (sort_desc key l) = with_key k l.
Proof.
  induction l as [|x t IH]; [reflexivity|].
  cbn [sort_desc fold_right]. fold (sort_desc key t).
  rewrite insert_desc_with_key by apply sort_desc_sorted.
  unfold with_key in *. cbn [List.filter]. rewrite IH. reflexivity.
Qed.

Lemma insert_desc_head (x : A) (l : list A) :
  Forall (desc x) l -> insert_desc key x l = x :: l.
Proof.
  destruct l as [|y t]; [reflexivity|]. intros H. inversion H; subst.
  cbn [insert_desc]. destruct (Rlt_dec (key x) (key y)); [|reflexivity].
  unfold desc in *. lra.
Qed.

(** A list that is sorted already is left as it is. *)
Lemma sort_desc_id (l : list A) : StronglySorted desc l -> sort_desc key l = l.
Proof.
  induction 1 as [|x t Ht IH Hx]; [reflexivity|].
  cbn [sort_desc fold_right]. fold (sort_desc key t). rewrite IH.
  apply insert_desc_head. exact Hx.
Qed.

End Sort.
End SortFacts.

(** ** More on the matcher *)

Module MatchFacts.
Import Py Models Matcher MatcherFacts.
Local Open Scope string_scope.

(** X2.  The density is [0] for a resume without skills; otherwise it is the
    share of the distinct skills of the resume that are among the skills of
    the job description, a value of [0, 1] that is [1] exactly when every
    skill of the resume is among them. *)
Theorem calculate_skill_density_spec (resume_skills jd_skills : list string) :
  let R : gset string := list_to_set resume_skills in
  let J : gset string := list_to_set jd_skills in
  let density := calculate_skill_density resume_skills jd_skills in
  (resume_skills = [] -> density = 0%R) /\
  (resume_skills <> [] -> density = (INR (size (R ∩ J)) / INR (size R))%R) /\
  (0 <= density <= 1)%R /\
  (density = 1%R <-> R ⊆ J /\ resume_skills <> []).
Proof.
  intros R J density. split; [intros ->; reflexivity|].
  split; [intros H; unfold density; rewrite density_unfold by exact H; reflexivity|].
  split; [apply density_in_unit|].
  destruct (decide (resume_skills = [])) as [E|E].
  - subst resume_skills. unfold density. cbn. split; [lra|intros [_ H]; congruence].
  - unfold density. rewrite density_unfold by exact E. fold R J.
    destruct (ratio_bounds (R ∩ J) R) as [_ Hiff];
      [apply intersection_subseteq_l|apply list_to_set_nonempty; exact E|].
    rewrite Hiff. split.
    + intros H. split; [|exact E]. rewrite <- H. apply intersection_subseteq_r.
    + intros [H _]. apply leibniz_equiv. apply (anti_symm subseteq).
      * apply intersection_subseteq_l.
      * apply intersection_greatest; [reflexivity|exact H].
Qed.

Lemma calculate_skill_density_scenario :
  calculate_skill_density ["python"; "sql"; "machine learning"]
    ["python"; "sql"; "docker"] = (2 / 3)%R.
Proof.
  destruct (calculate_skill_density_spec ["python"; "sql"; "machine learning"]
              ["python"; "sql"; "docker"]) as (_ & H & _).
  rewrite H by discriminate.
  replace (size (list_to_set ["python"; "sql"; "machine learning"]
                 ∩ list_to_set ["python"; "sql"; "docker"] : gset string))
    with 2 by (vm_compute; reflexivity).
  replace (size (list_to_set ["python"; "sql"; "machine learning"] : gset string))
    with 3 by (vm_compute; reflexivity).
  cbn [INR]. lra.
Defined.

(** The fields of the record that the constructor builds. *)
Lemma new_MatchResult_fields resume jd sim cov dens matching missing explanation mr :
  new_MatchResult resume jd sim cov dens matching missing explanation = Ok mr ->
  mr = {| Models.resume := resume; job_description := jd; similarity_score := sim;
          skill_coverage := cov; skill_density := dens;
          matching_skills := matching; missing_skills := missing;
          Models.explanation := explanation |} /\
  in_unit_interval sim /\ in_unit_interval cov /\ in_unit_interval dens.
Proof.
  unfold new_MatchResult.
  destruct (check_unit "similarity_score" sim) as [e|s] eqn:Es; [discriminate|].
  apply check_unit_inv in Es. destruct Es as [-> Hs]. cbn [bind].
  destruct (check_unit "skill_coverage" cov) as [e|c] eqn:Ec; [discriminate|].
  apply check_unit_inv in Ec. destruct Ec as [-> Hc]. cbn [bind].
  destruct (check_unit "skill_density" dens) as [e|d] eqn:Ed; [discriminate|].
  apply check_unit_inv in Ed. destruct Ed as [-> Hd]. cbn [bind].
  intros [= <-]. auto.
Qed.

Lemma check_unit_out (field : string) (x : R) :
  ~ in_unit_interval x -> check_unit field x = Raise (ValidationError field).
Proof.
  intros H. unfold check_unit, in_unit_interval in *.
  destruct (Rle_dec 0 x); [|reflexivity].
  destruct (Rle_dec x 1); [|reflexivity]. tauto.
Qed.

(** X3.  A match that returns holds the resume and the job description it
    was given and the three scores as the three functions compute them, and
    each of the three is in [0, 1]. *)
Theorem match_result_invariant (order : SetOrder) (model : SentenceTransformer)
  (resume : Resume) (jd : JobDescription) (mr : MatchResult) :
  match_resume_to_jd order model resume jd = Ok mr ->
  Models.resume mr = resume /\ job_description mr = jd /\
  similarity_score mr =
    calculate_semantic_similarity model (raw_text resume) (jd_raw_text jd) /\
  skill_coverage mr = calculate_skill_coverage (skills resume) (jd_skills jd) /\
  skill_density mr = calculate_skill_density (skills resume) (jd_skills jd) /\
  in_unit_interval (similarity_score mr) /\
  in_unit_interval (skill_coverage mr) /\
  in_unit_interval (skill_density mr).
Proof.
  intros H. unfold match_resume_to_jd in H. apply new_MatchResult_fields in H.
  destruct H as (-> & Hs & Hc & Hd). cbn.
  unfold _safe_get_skills, _safe_get_skills_jd in *. auto 10.
Qed.

Lemma match_result_invariant_witness :
  exists mr,
    match_resume_to_jd elements_order aligned_model
      (plain_resume "python and sql" ["python"; "sql"; "machine learning"])
      (plain_jd "python, sql, docker" ["python"; "sql"; "docker"] []) = Ok mr /\
    in_unit_interval (similarity_score mr) /\
    skill_coverage mr = calculate_skill_coverage ["python"; "sql"; "machine learning"]
                          ["python"; "sql"; "docker"].
Proof.
  destruct (proj2 (match_returns_iff elements_order aligned_model
      (plain_resume "python and sql" ["python"; "sql"; "machine learning"])
      (plain_jd "python, sql, docker" ["python"; "sql"; "docker"] [])))
    as [mr Hmr]; [apply aligned_similarity|].
  exists mr. split; [exact Hmr|].
  destruct (match_result_invariant _ _ _ _ _ Hmr) as (_ & _ & _ & Hc & _ & Hs & _).
  split; [exact Hs|exact Hc].
Defined.

(** X4.  A match fails exactly when the similarity is outside [0, 1]; it
    then raises the validation error of the field [similarity_score].
    Coverage and density never make it fail. *)
Theorem match_fails_iff (order : SetOrder) (model : SentenceTransformer)
  (resume : Resume) (jd : JobDescription) :
  let similarity :=
    calculate_semantic_similarity model (raw_text resume) (jd_raw_text jd) in
  (is_ok (match_resume_to_jd order model resume jd) = false <->
   ~ in_unit_interval similarity) /\
  (~ in_unit_interval similarity ->
   match_resume_to_jd order model resume jd =
   Raise (ValidationError "similarity_score")).
Proof.
  intros similarity.
  assert (Hout : ~ in_unit_interval similarity ->
                 match_resume_to_jd order model resume jd =
                 Raise (ValidationError "similarity_score")).
  { intros H. unfold match_resume_to_jd, new_MatchResult.
    fold similarity. rewrite (check_unit_out _ _ H). reflexivity. }
  split; [|exact Hout]. split.
  - intros H Hin.
    destruct (proj2 (match_returns_iff order model resume jd) Hin) as [mr Hmr].
    rewrite Hmr in H. discriminate.
  - intros H. rewrite (Hout H). reflexivity.
Qed.

Lemma opposite_similarity :
  calculate_semantic_similarity opposite_model "a" "b" = (-1)%R.
Proof.
  rewrite (similarity_is_cosine opposite_model "a" "b" [1%R] [(-1)%R] []);
    [|reflexivity|reflexivity|reflexivity|reflexivity].
  rewrite !l2_normalize_unit by lra. unfold dot. cbn. lra.
Qed.

Lemma opposite_match_raises :
  match_resume_to_jd elements_order opposite_model
    (plain_resume "a" ["python"]) (plain_jd "b" ["python"] []) =
  Raise (ValidationError "similarity_score").
Proof.
  unfold match_resume_to_jd, new_MatchResult.
  cbn [raw_text jd_raw_text plain_resume plain_jd].
  rewrite check_unit_out; [reflexivity|].
  rewrite opposite_similarity. unfold in_unit_interval. lra.
Qed.

Lemma match_fails_witness :
  match_resume_to_jd elements_order opposite_model
    (plain_resume "a" ["python"]) (plain_jd "b" ["python"] []) =
  Raise (ValidationError "similarity_score").
Proof.
  apply (proj2 (match_fails_iff elements_order opposite_model
                  (plain_resume "a" ["python"]) (plain_jd "b" ["python"] []))).
  cbn [raw_text jd_raw_text plain_resume plain_jd].
  rewrite opposite_similarity. unfold in_unit_interval. lra.
Defined.

Lemma to_list_length (order : SetOrder) (s : gset string) :
  length (to_list order s) = size s.
Proof.
  unfold size, set_size. cbn. apply Permutation_length.
  apply NoDup_Permutation; [apply to_list_NoDup|apply NoDup_elements|].
  intros x. rewrite to_list_elem, elem_of_elements. reflexivity.
Qed.

Lemma size_split (X Y : gset string) : size (X ∩ Y) + size (Y ∖ X) = size Y.
Proof.
  transitivity (size ((Y ∖ X) ∪ (Y ∩ X)));
    [|f_equal; apply difference_union_intersection_L].
  rewrite (size_union (Y ∖ X) (Y ∩ X)).
  - rewrite (leibniz_equiv _ _ (comm (∩) X Y)). lia.
  - intros x H1 H2. apply elem_of_difference in H1. apply elem_of_intersection in H2.
    tauto.
Qed.

(** X5.  Every skill of the job description is in exactly one of
    [matching_skills] and [missing_skills]; the lengths of the two lists add
    up to the number of distinct skills of the job description; the coverage
    is the share of the matching skills among them, and the density is the
    number of matching skills over the number of distinct skills of the
    resume. *)
Theorem match_lists_partition (order : SetOrder) (model : SentenceTransformer)
  (resume : Resume) (jd : JobDescription) (mr : MatchResult) :
  match_resume_to_jd order model resume jd = Ok mr ->
  (forall x, x ∈ jd_skills jd <->
             (x ∈ matching_skills mr /\ x ∉ missing_skills mr) \/
             (x ∈ missing_skills mr /\ x ∉ matching_skills mr)) /\
  length (matching_skills mr) + length (missing_skills mr) =
    size (list_to_set (jd_skills jd) : gset string) /\
  (jd_skills jd <> [] ->
   skill_coverage mr =
   (INR (length (matching_skills mr)) /
    INR (length (matching_skills mr) + length (missing_skills mr)))%R) /\
  (skills resume <> [] ->
   skill_density mr =
   (INR (length (matching_skills mr)) /
    INR (size (list_to_set (skills resume) : gset string)))%R).
Proof.
  intros H. unfold match_resume_to_jd in H. apply new_MatchResult_fields in H.
  destruct H as (-> & _). cbn [matching_skills missing_skills skill_coverage skill_density].
  unfold _safe_get_skills, _safe_get_skills_jd. rewrite !safe_set_list_to_set.
  set (R := list_to_set (skills resume) : gset string).
  set (J := list_to_set (jd_skills jd) : gset string).
  assert (Hlen : length (to_list order (R ∩ J)) + length (to_list order (J ∖ R))
                 = size J).
  { rewrite !to_list_length. apply size_split. }
  split; [|split; [exact Hlen|split]].
  - intros x. rewrite !to_list_elem. unfold R, J.
    rewrite elem_of_intersection, elem_of_difference, !elem_of_list_to_set.
    destruct (decide (x ∈ skills resume)); tauto.
  - intros Hne. rewrite Hlen, to_list_length. apply coverage_unfold. exact Hne.
  - intros Hne. rewrite to_list_length. apply density_unfold. exact Hne.
Qed.

Lemma match_lists_partition_witness :
  exists mr,
    match_resume_to_jd elements_order aligned_model
      (plain_resume "python and sql" ["python"; "sql"; "machine learning"])
      (plain_jd "python, sql, docker" ["python"; "sql"] ["docker"]) = Ok mr /\
    length (matching_skills mr) + length (missing_skills mr) = 3.
Proof.
  destruct (proj2 (match_returns_iff elements_order aligned_model
      (plain_resume "python and sql" ["python"; "sql"; "machine learning"])
      (plain_jd "python, sql, docker" ["python"; "sql"] ["docker"])))
    as [mr Hmr]; [apply aligned_similarity|].
  exists mr. split; [exact Hmr|].
  destruct (match_lists_partition _ _ _ _ _ Hmr) as (_ & H & _).
  rewrite H. vm_compute. reflexivity.
Defined.

End MatchFacts.

Module RankingFacts.
Import Py Models Matcher MatcherFacts Ranking SortFacts MatchFacts.
Local Open Scope string_scope.
Local Open Scope list_scope.

(** The weighted score of a match result under three weights. *)
Definition score (wc ws wd : R) (mr : MatchResult) : R :=
  (wc * skill_coverage mr + ws * similarity_score mr + wd * skill_density mr)%R.

(** The resumes that match without an error, with their results, in the
    order of the resumes. *)
Definition matched (order : SetOrder) (model : SentenceTransformer)
  (jd : JobDescription) (resumes : list Resume) : list (Resume * MatchResult) :=
  flat_map (fun r => match match_resume_to_jd order model r jd with
                     | inr mr => [(r, mr)]
                     | inl _ => []
                     end) resumes.

(** The three weights are in the dictionary. *)
Definition complete (w : gmap string R) (wc ws wd : R) : Prop :=
  w !! "skill_coverage" = Some wc /\ w !! "similarity" = Some ws /\
  w !! "density" = Some wd.

Lemma insert_desc_map {A B : Type} (f : A -> B) (key' : A -> R) (key : B -> R)
  (x : A) (l : list A) :
  (forall a, In a (x :: l) -> key' a = key (f a)) ->
  map f (insert_desc key' x l) = insert_desc key (f x) (map f l).
Proof.
  induction l as [|y t IH]; intros H; [reflexivity|]. cbn [insert_desc map].
  rewrite (H x), (H y) by (cbn; auto).
  destruct (Rlt_dec (key (f x)) (key (f y))); [|reflexivity].
  cbn [map]. rewrite IH; [reflexivity|].
  intros a [<-|Ha]; apply H; cbn; auto.
Qed.

(** Sorting decorated elements by their decoration, and undecorating. *)
Lemma sort_desc_map {A B : Type} (f : A -> B) (key' : A -> R) (key : B -> R)
  (l : list A) :
  (forall a, In a l -> key' a = key (f a)) ->
  map f (sort_desc key' l) = sort_desc key (map f l).
Proof.
  induction l as [|x t IH]; intros H; [reflexivity|].
  cbn [sort_desc fold_right map]. fold (sort_desc key' t).
  fold (sort_desc key (map f t)).
  rewrite (insert_desc_map f key' key).
  - rewrite IH; [reflexivity|]. intros a Ha. apply H. right. exact Ha.
  - intros a [<-|Ha]; [apply H; left; reflexivity|].
    apply (Permutation_in _ (sort_desc_perm key' t)) in Ha. apply H. right. exact Ha.
Qed.

Lemma weighted_score_complete w wc ws wd mr density :
  complete w wc ws wd ->
  weighted_score w mr density =
  inr (wc * skill_coverage mr + ws * similarity_score mr + wd * density)%R.
Proof.
  intros (Hc & Hs & Hd). unfold weighted_score, weight. rewrite Hc, Hs, Hd. reflexivity.
Qed.

Lemma match_density order model resume jd mr :
  match_resume_to_jd order model resume jd = Ok mr ->
  calculate_skill_density (_safe_get_skills resume) (_safe_get_skills_jd jd)
  = skill_density mr.
Proof.
  intros H. unfold match_resume_to_jd in H. apply new_MatchResult_fields in H.
  destruct H as (-> & _). reflexivity.
Qed.

Lemma rank_loop_complete order model w wc ws wd jd resumes :
  complete w wc ws wd ->
  (forall r, In r resumes -> is_ok (match_resume_to_jd order model r jd) = true) ->
  rank_loop order model w jd resumes =
  inr (map (fun p => (p, score wc ws wd (snd p))) (matched order model jd resumes)).
Proof.
  intros Hw. induction resumes as [|r rest IH]; intros Hok; [reflexivity|].
  cbn [rank_loop matched flat_map].
  pose proof (Hok r (or_introl eq_refl)) as Hr.
  destruct (match_resume_to_jd order model r jd) as [e|mr] eqn:E; [discriminate|].
  rewrite (weighted_score_complete _ _ _ _ _ _ Hw), (match_density _ _ _ _ _ E).
  fold (matched order model jd rest).
  rewrite IH by (intros r' Hr'; apply Hok; right; exact Hr'). reflexivity.
Qed.

Lemma matched_all order model jd resumes :
  (forall r, In r resumes -> is_ok (match_resume_to_jd order model r jd) = true) ->
  map fst (matched order model jd resumes) = resumes.
Proof.
  induction resumes as [|r rest IH]; intros Hok; [reflexivity|].
  cbn [matched flat_map]. pose proof (Hok r (or_introl eq_refl)) as Hr.
  destruct (match_resume_to_jd order model r jd) as [e|mr]; [discriminate|].
  cbn. f_equal. apply IH. intros r' Hr'. apply Hok. right. exact Hr'.
Qed.

Lemma matched_results order model jd resumes :
  Forall (fun p => match_resume_to_jd order model (fst p) jd = Ok (snd p))
    (matched order model jd resumes).
Proof.
  induction resumes as [|r rest IH]; [constructor|].
  cbn [matched flat_map].
  destruct (match_resume_to_jd order model r jd) as [e|mr] eqn:E; [exact IH|].
  constructor; [exact E|exact IH].
Qed.

(** The ranking is the stable sort of the matched resumes by decreasing
    weighted score. *)
Lemma rank_resumes_is_sort order model resumes jd weights wc ws wd :
  complete (effective_weights weights) wc ws wd ->
  (forall r, In r resumes -> is_ok (match_resume_to_jd order model r jd) = true) ->
  rank_resumes order model resumes jd weights =
  inr (sort_desc (fun p => score wc ws wd (snd p)) (matched order model jd resumes)).
Proof.
  intros Hw Hok. unfold rank_resumes. rewrite (rank_loop_complete _ _ _ _ _ _ _ _ Hw Hok).
  f_equal.
  rewrite (sort_desc_map (fun x : Resume * MatchResult * R => (fst (fst x), snd (fst x)))
             snd (fun p => score wc ws wd (snd p))).
  - rewrite map_map. f_equal.
    induction (matched order model jd resumes) as [|[a b] l IHl]; [reflexivity|].
    cbn. f_equal. exact IHl.
  - intros a Ha. apply in_map_iff in Ha. destruct Ha as ([r mr] & <- & _). reflexivity.
Qed.

Lemma aligned_match_ok (resume : Resume) (jd : JobDescription) :
  is_ok (match_resume_to_jd elements_order aligned_model resume jd) = true.
Proof.
  destruct (proj2 (match_returns_iff elements_order aligned_model resume jd)
              (aligned_similarity _ _)) as [mr ->].
  reflexivity.
Qed.

Lemma default_complete : complete (effective_weights None) 0.4 0.4 0.2.
Proof.
  unfold complete, effective_weights, default_weights.
  rewrite lookup_insert_eq.
  rewrite lookup_insert_ne, lookup_insert_eq by discriminate.
  rewrite !lookup_insert_ne, lookup_insert_eq by discriminate. auto.
Qed.

(** X6.  When the three weights are given and every match returns, the
    ranking holds every resume once, each with the result of its match, in
    order of decreasing weighted score. *)
Theorem rank_resumes_sorted (order : SetOrder) (model : SentenceTransformer)
  (resumes : list Resume) (jd : JobDescription)
  (weights : option (gmap string R)) (wc ws wd : R) :
  complete (effective_weights weights) wc ws wd ->
  (forall r, In r resumes -> is_ok (match_resume_to_jd order model r jd) = true) ->
  exists ranked,
    rank_resumes order model resumes jd weights = inr ranked /\
    Permutation (map fst ranked) resumes /\
    Forall (fun p => match_resume_to_jd order model (fst p) jd = Ok (snd p)) ranked /\
    StronglySorted (fun a b => (score wc ws wd (snd b) <= score wc ws wd (snd a))%R)
      ranked.
Proof.
  intros Hw Hok. eexists. split; [apply (rank_resumes_is_sort _ _ _ _ _ _ _ _ Hw Hok)|].
  pose proof (sort_desc_perm (fun p => score wc ws wd (snd p))
                (matched order model jd resumes)) as Hperm.
  split; [|split].
  - rewrite Hperm. rewrite (matched_all _ _ _ _ Hok). reflexivity.
  - apply List.Forall_forall. intros p Hp.
    apply (Permutation_in _ Hperm) in Hp.
    pose proof (matched_results order model jd resumes) as Hall.
    rewrite List.Forall_forall in Hall. apply Hall. exact Hp.
  - apply (sort_desc_sorted (fun p => score wc ws wd (snd p))).
Qed.

Definition alice : Resume := plain_resume "python developer" ["python"].
Definition bob : Resume := plain_resume "sql analyst" ["sql"; "excel"].
Definition posting : JobDescription := plain_jd "python and sql" ["python"; "sql"] [].

Lemma rank_resumes_sorted_witness :
  exists ranked,
    rank_resumes elements_order aligned_model [alice; bob] posting None = inr ranked /\
    Permutation (map fst ranked) [alice; bob] /\
    StronglySorted (fun a b => (score 0.4 0.4 0.2 (snd b) <= score 0.4 0.4 0.2 (snd a))%R)
      ranked.
Proof.
  destruct (rank_resumes_sorted elements_order aligned_model [alice; bob] posting None
              0.4 0.4 0.2 default_complete
              (fun r _ => aligned_match_ok r posting)) as (ranked & H1 & H2 & _ & H4).
  exists ranked. auto.
Defined.

(** X7.  The ranking is stable: resumes of equal weighted score keep the
    order in which they were given. *)
Theorem rank_resumes_stable (order : SetOrder) (model : SentenceTransformer)
  (resumes : list Resume) (jd : JobDescription)
  (weights : option (gmap string R)) (wc ws wd : R) :
  complete (effective_weights weights) wc ws wd ->
  (forall r, In r resumes -> is_ok (match_resume_to_jd order model r jd) = true) ->
  exists ranked,
    rank_resumes order model resumes jd weights = inr ranked /\
    forall k : R,
      with_key (fun p => score wc ws wd (snd p)) k ranked =
      with_key (fun p => score wc ws wd (snd p)) k (matched order model jd resumes).
Proof.
  intros Hw Hok. eexists. split; [apply (rank_resumes_is_sort _ _ _ _ _ _ _ _ Hw Hok)|].
  intros k. apply sort_desc_stable.
Qed.

Lemma rank_resumes_stable_witness :
  exists ranked,
    rank_resumes elements_order aligned_model [alice; alice; bob] posting None
      = inr ranked /\
    forall k : R,
      with_key (fun p => score 0.4 0.4 0.2 (snd p)) k ranked =
      with_key (fun p => score 0.4 0.4 0.2 (snd p)) k
        (matched elements_order aligned_model posting [alice; alice; bob]).
Proof.
  exact (rank_resumes_stable elements_order aligned_model [alice; alice; bob] posting
           None 0.4 0.4 0.2 default_complete
           (fun r _ => aligned_match_ok r posting)).
Defined.

Lemma rank_loop_failure order model w wc ws wd jd pre r post e :
  complete w wc ws wd ->
  (forall r', In r' pre -> is_ok (match_resume_to_jd order model r' jd) = true) ->
  match_resume_to_jd order model r jd = Raise e ->
  rank_loop order model w jd (pre ++ r :: post) = inl (MatchFailed e).
Proof.
  intros Hw Hok Hr. induction pre as [|r' pre IH]; cbn [app rank_loop].
  - rewrite Hr. reflexivity.
  - pose proof (Hok r' (or_introl eq_refl)) as Hr'.
    destruct (match_resume_to_jd order model r' jd) as [e'|mr]; [discriminate|].
    rewrite (weighted_score_complete _ _ _ _ _ _ Hw).
    rewrite IH by (intros x Hx; apply Hok; right; exact Hx). reflexivity.
Qed.

(** The first of the three keys, in the order in which a score reads
    them, that the weights do not hold. *)
Definition missing_key (w : gmap string R) : option string :=
  match w !! "skill_coverage" with
  | None => Some "skill_coverage"
  | Some _ =>
      match w !! "similarity" with
      | None => Some "similarity"
      | Some _ =>
          match w !! "density" with
          | None => Some "density"
          | Some _ => None
          end
      end
  end.

Lemma weighted_score_missing w key mr density :
  missing_key w = Some key -> weighted_score w mr density = inl (KeyError key).
Proof.
  unfold missing_key, weighted_score, weight.
  destruct (w !! "skill_coverage"); [|intros [= <-]; reflexivity].
  destruct (w !! "similarity"); [|intros [= <-]; reflexivity].
  destruct (w !! "density"); [discriminate|intros [= <-]; reflexivity].
Qed.

Lemma missing_key_complete w :
  missing_key w = None <-> exists wc ws wd, complete w wc ws wd.
Proof.
  unfold missing_key, complete. split.
  - destruct (w !! "skill_coverage") as [wc|]; [|discriminate].
    destruct (w !! "similarity") as [ws|]; [|discriminate].
    destruct (w !! "density") as [wd|]; [|discriminate].
    intros _. exists wc, ws, wd. auto.
  - intros (wc & ws & wd & -> & -> & ->). reflexivity.
Qed.

(** X8.  When the match of a resume raises and the matches of the resumes
    before it return, the ranking raises and returns nothing: it raises
    the exception of that match when no resume comes before it or the
    weights hold the three keys, and otherwise the [KeyError] of the first
    key that the weights lack, which the score of the first resume has
    raised before that match is made. *)
Theorem rank_resumes_first_failure (order : SetOrder) (model : SentenceTransformer)
  (pre post : list Resume) (r : Resume) (jd : JobDescription)
  (weights : option (gmap string R)) (e : exn) :
  (forall r', In r' pre -> is_ok (match_resume_to_jd order model r' jd) = true) ->
  match_resume_to_jd order model r jd = Raise e ->
  rank_resumes order model (pre ++ r :: post) jd weights =
  inl (match pre, missing_key (effective_weights weights) with
       | _ :: _, Some key => KeyError key
       | _, _ => MatchFailed e
       end).
Proof.
  intros Hok Hr. unfold rank_resumes. cbv zeta.
  destruct (missing_key (effective_weights weights)) as [key|] eqn:Hk.
  - destruct pre as [|r' pre]; cbn [app rank_loop].
    + rewrite Hr. reflexivity.
    + pose proof (Hok r' (or_introl eq_refl)) as Hr'.
      destruct (match_resume_to_jd order model r' jd) as [e'|mr]; [discriminate|].
      rewrite (weighted_score_missing _ _ _ _ Hk). reflexivity.
  - apply missing_key_complete in Hk. destruct Hk as (wc & ws & wd & Hw).
    rewrite (rank_loop_failure _ _ _ _ _ _ _ _ _ _ _ Hw Hok Hr).
    destruct pre; reflexivity.
Qed.

(** A resume without text, whose similarity to any text is [0.0]. *)
Definition silent : Resume := plain_resume "" ["python"].

Definition only_similarity : gmap string R := <["similarity" := 1%R]> ∅.

Lemma silent_match_ok (order : SetOrder) (model : SentenceTransformer)
  (jd : JobDescription) :
  is_ok (match_resume_to_jd order model silent jd) = true.
Proof.
  destruct (proj2 (match_returns_iff order model silent jd)) as [mr ->]; [|reflexivity].
  rewrite similarity_blank by (left; reflexivity). unfold in_unit_interval. lra.
Qed.

Lemma only_similarity_missing :
  missing_key (effective_weights (Some only_similarity)) = Some "skill_coverage".
Proof.
  unfold effective_weights, only_similarity.
  rewrite map_size_insert_None by apply lookup_empty. cbn [Nat.eqb].
  unfold missing_key. rewrite lookup_insert_ne by discriminate.
  rewrite lookup_empty. reflexivity.
Qed.

Lemma default_missing : missing_key (effective_weights None) = None.
Proof. apply missing_key_complete. exists 0.4%R, 0.4%R, 0.2%R. exact default_complete. Qed.

(** A resume that matches, then one whose match raises: with the default
    weights the exception of the match is raised, with weights that lack a
    key the [KeyError]. *)
Lemma rank_resumes_first_failure_witness :
  rank_resumes elements_order opposite_model
    ([silent] ++ plain_resume "a" ["python"] :: [alice]) (plain_jd "b" ["python"] []) None
  = inl (MatchFailed (ValidationError "similarity_score")) /\
  rank_resumes elements_order opposite_model
    ([silent] ++ plain_resume "a" ["python"] :: [alice]) (plain_jd "b" ["python"] [])
    (Some only_similarity)
  = inl (KeyError "skill_coverage").
Proof.
  assert (Hok : forall r', In r' [silent] ->
            is_ok (match_resume_to_jd elements_order opposite_model r'
                     (plain_jd "b" ["python"] [])) = true).
  { intros r' [<-|[]]. apply silent_match_ok. }
  split.
  - rewrite (rank_resumes_first_failure elements_order opposite_model [silent] [alice]
               (plain_resume "a" ["python"]) (plain_jd "b" ["python"] []) None
               (ValidationError "similarity_score") Hok opposite_match_raises).
    rewrite default_missing. reflexivity.
  - rewrite (rank_resumes_first_failure elements_order opposite_model [silent] [alice]
               (plain_resume "a" ["python"]) (plain_jd "b" ["python"] [])
               (Some only_similarity)
               (ValidationError "similarity_score") Hok opposite_match_raises).
    rewrite only_similarity_missing. reflexivity.
Defined.

(** X9.  The weights are read only when there is a resume to score: a
    dictionary without the key [skill_coverage] gives the empty ranking for
    no resume, and a [KeyError] as soon as a match has returned. *)
Theorem rank_resumes_missing_weight (order : SetOrder) (model : SentenceTransformer)
  (jd : JobDescription) (w : gmap string R) :
  size w <> 0 -> w !! "skill_coverage" = None ->
  rank_resumes order model [] jd (Some w) = inr [] /\
  forall r rest mr,
    match_resume_to_jd order model r jd = Ok mr ->
    rank_resumes order model (r :: rest) jd (Some w) = inl (KeyError "skill_coverage").
Proof.
  intros Hsize Hw. split; [reflexivity|].
  intros r rest mr Hr. unfold rank_resumes, effective_weights.
  destruct (Nat.eqb_spec (size w) 0) as [E|_]; [contradiction|].
  cbn [rank_loop]. rewrite Hr. unfold weighted_score, weight. rewrite Hw. reflexivity.
Qed.

Lemma rank_resumes_missing_weight_witness :
  rank_resumes elements_order aligned_model [] posting (Some only_similarity) = inr [] /\
  rank_resumes elements_order aligned_model [alice] posting (Some only_similarity)
  = inl (KeyError "skill_coverage").
Proof.
  assert (Hs : size only_similarity <> 0).
  { unfold only_similarity. rewrite map_size_insert_None by apply lookup_empty.
    discriminate. }
  assert (Hl : only_similarity !! "skill_coverage" = None).
  { unfold only_similarity. rewrite lookup_insert_ne by discriminate.
    apply lookup_empty. }
  destruct (rank_resumes_missing_weight elements_order aligned_model posting
              only_similarity Hs Hl) as [H1 H2].
  split; [exact H1|].
  destruct (proj2 (match_returns_iff elements_order aligned_model alice posting)
              (aligned_similarity _ _)) as [mr Hmr].
  exact (H2 alice [] mr Hmr).
Defined.

End RankingFacts.

(** ** The ranking metrics *)

Module RankingMetricsFacts.
Import Metrics Ranking RankingMetrics SortFacts MetricsFacts.

Lemma sum_floats_from (xs : list R) (a : R) :
  fold_left Rplus xs a = (a + sum_floats xs)%R.
Proof.
  unfold sum_floats. revert a.
  induction xs as [|x xs IH]; intros a; cbn [fold_left]; [lra|].
  rewrite (IH (a + x)%R), (IH (0 + x)%R). lra.
Qed.

Lemma sum_floats_cons (x : R) (xs : list R) :
  sum_floats (x :: xs) = (x + sum_floats xs)%R.
Proof.
  unfold sum_floats at 1. cbn [fold_left]. rewrite sum_floats_from. lra.
Qed.

Lemma sum_floats_app (xs ys : list R) :
  sum_floats (xs ++ ys) = (sum_floats xs + sum_floats ys)%R.
Proof.
  induction xs as [|x xs IH]; cbn [app].
  - unfold sum_floats at 2. cbn. lra.
  - rewrite !sum_floats_cons, IH. lra.
Qed.

Lemma sum_floats_le (hi : R) (xs : list R) :
  Forall (fun x => x <= hi)%R xs -> (sum_floats xs <= hi * INR (length xs))%R.
Proof.
  induction 1 as [|x xs Hx _ IH].
  - unfold sum_floats. cbn. lra.
  - rewrite sum_floats_cons. change (length (x :: xs)) with (S (length xs)).
    rewrite S_INR. lra.
Qed.

Lemma sum_floats_ge (lo : R) (xs : list R) :
  Forall (fun x => lo <= x)%R xs -> (lo * INR (length xs) <= sum_floats xs)%R.
Proof.
  induction 1 as [|x xs Hx _ IH].
  - unfold sum_floats. cbn. lra.
  - rewrite sum_floats_cons. change (length (x :: xs)) with (S (length xs)).
    rewrite S_INR. lra.
Qed.

(** The sum of a list of values between [lo] and [hi]. *)
Lemma sum_floats_bounds (lo hi : R) (xs : list R) :
  Forall (fun x => lo <= x <= hi)%R xs ->
  (lo * INR (length xs) <= sum_floats xs <= hi * INR (length xs))%R.
Proof.
  intros H. split.
  - apply sum_floats_ge. revert H. apply List.Forall_impl. intros a Ha; apply Ha.
  - apply sum_floats_le. revert H. apply List.Forall_impl. intros a Ha; apply Ha.
Qed.

Lemma mean_or_zero_bounds (lo hi : R) (xs : list R) :
  (lo <= 0 <= hi)%R ->
  Forall (fun x => lo <= x <= hi)%R xs ->
  (lo <= mean_or_zero xs <= hi)%R.
Proof.
  intros H0 H. destruct xs as [|x xs]; [cbn; lra|].
  unfold mean_or_zero.
  pose proof (sum_floats_bounds lo hi (x :: xs) H) as [Hl Hh].
  assert (Hn : (0 < INR (length (x :: xs)))%R) by (apply lt_0_INR; cbn; lia).
  split.
  - apply Rmult_le_reg_r with (INR (length (x :: xs))); [assumption|].
    unfold Rdiv. rewrite Rmult_assoc, Rinv_l by lra. lra.
  - apply Rmult_le_reg_r with (INR (length (x :: xs))); [assumption|].
    unfold Rdiv. rewrite Rmult_assoc, Rinv_l by lra. lra.
Qed.

(** A sum of values that are at most [1] reaches the length only when all
    are [1]. *)
Lemma sum_floats_full (xs : list R) :
  Forall (fun x => x <= 1)%R xs ->
  sum_floats xs = INR (length xs) -> Forall (fun x => x = 1%R) xs.
Proof.
  induction 1 as [|x xs Hx Hxs IH]; intros Hs; [constructor|].
  rewrite sum_floats_cons in Hs. change (length (x :: xs)) with (S (length xs)) in Hs.
  rewrite S_INR in Hs.
  pose proof (sum_floats_le 1 xs Hxs) as Hb.
  constructor; [lra|]. apply IH. lra.
Qed.

Lemma sum_floats_ones (xs : list R) :
  Forall (fun x => x = 1%R) xs -> sum_floats xs = INR (length xs).
Proof.
  induction 1 as [|x xs Hx _ IH]; [unfold sum_floats; cbn; lra|].
  change (length (x :: xs)) with (S (length xs)).
  rewrite sum_floats_cons, IH, Hx, S_INR. lra.
Qed.

(** *** [average_precision] *)

(** The list built by the loop extends the list it starts from. *)
Lemma precisions_loop_app (l : list bool) (i c : nat) (acc : list R) :
  precisions_loop l i c acc = acc ++ precisions_loop l i c [].
Proof.
  revert i c acc. induction l as [|b l IH]; intros i c acc; cbn [precisions_loop].
  - rewrite app_nil_r. reflexivity.
  - destruct b; [|apply IH].
    rewrite IH. rewrite (IH _ _ ([] ++ _)). cbn [app]. rewrite <- app_assoc. reflexivity.
Qed.

Lemma precisions_loop_true (l : list bool) (i c : nat) :
  precisions_loop (true :: l) i c [] =
  (INR (S c) / INR (i + 1))%R :: precisions_loop l (S i) (S c) [].
Proof. cbn [precisions_loop app]. rewrite precisions_loop_app. reflexivity. Qed.

Lemma precisions_loop_false (l : list bool) (i c : nat) :
  precisions_loop (false :: l) i c [] = precisions_loop l (S i) c [].
Proof. reflexivity. Qed.

(** One precision is recorded for each relevant item. *)
Lemma precisions_loop_length (l : list bool) (i c : nat) :
  length (precisions_loop l i c []) = length (List.filter (fun b : bool => b) l).
Proof.
  revert i c. induction l as [|[] l IH]; intros i c; [reflexivity| |].
  - rewrite precisions_loop_true. cbn [length List.filter]. rewrite IH. reflexivity.
  - rewrite precisions_loop_false. cbn [List.filter]. apply IH.
Qed.

Lemma ratio_unit (c i : nat) :
  c <= i -> (0 < INR (S c) / INR (i + 1) <= 1)%R.
Proof.
  intros H. assert (Hi : (0 < INR (i + 1))%R) by (apply lt_0_INR; lia).
  assert (Hc : (0 < INR (S c))%R) by (apply lt_0_INR; lia).
  assert (Hci : (INR (S c) <= INR (i + 1))%R) by (apply le_INR; lia).
  split.
  - apply Rdiv_lt_0_compat; assumption.
  - apply Rmult_le_reg_r with (INR (i + 1)); [assumption|].
    unfold Rdiv. rewrite Rmult_assoc, Rinv_l by lra. lra.
Qed.

Lemma ratio_one (c i : nat) :
  (INR (S c) / INR (i + 1) = 1)%R <-> c = i.
Proof.
  assert (Hi : (0 < INR (i + 1))%R) by (apply lt_0_INR; lia).
  split.
  - intros H. assert (E : INR (S c) = INR (i + 1)).
    { apply Rmult_eq_reg_r with (/ INR (i + 1))%R.
      - rewrite Rinv_r by lra. exact H.
      - apply Rinv_neq_0_compat. lra. }
    apply INR_eq in E. lia.
  - intros ->. replace (i + 1) with (S i) by lia. unfold Rdiv. apply Rinv_r.
    replace (S i) with (i + 1) by lia. lra.
Qed.

(** Every recorded precision is in (0, 1]. *)
Lemma precisions_loop_unit (l : list bool) (i c : nat) :
  c <= i -> Forall (fun p => 0 < p <= 1)%R (precisions_loop l i c []).
Proof.
  revert i c. induction l as [|[] l IH]; intros i c H; [constructor| |].
  - rewrite precisions_loop_true. constructor; [apply ratio_unit; assumption|].
    apply IH. lia.
  - rewrite precisions_loop_false. apply IH. lia.
Qed.

(** A ranking with its relevant items first. *)
Definition relevant_first (l : list bool) : Prop :=
  exists n m, l = repeat true n ++ repeat false m.

Lemma precisions_loop_none (l : list bool) (i c : nat) :
  Forall (fun b => b = false) l -> precisions_loop l i c [] = [].
Proof.
  intros H. revert i c. induction H as [|b l Hb _ IH]; intros i c; [reflexivity|].
  subst b. rewrite precisions_loop_false. apply IH.
Qed.

(** Once an irrelevant item has been passed, a later relevant one records a
    precision below [1]. *)
Lemma precisions_loop_late (l : list bool) (i c : nat) :
  c < i -> Forall (fun p => p = 1%R) (precisions_loop l i c []) ->
  Forall (fun b => b = false) l.
Proof.
  revert i c. induction l as [|[] l IH]; intros i c H Hall; [constructor| |].
  - rewrite precisions_loop_true in Hall. inversion Hall as [|? ? H1 _]; subst.
    apply ratio_one in H1. lia.
  - constructor; [reflexivity|]. rewrite precisions_loop_false in Hall.
    apply (IH (S i) c); [lia|assumption].
Qed.

Lemma precisions_loop_perfect (l : list bool) (i : nat) :
  Forall (fun p => p = 1%R) (precisions_loop l i i []) <-> relevant_first l.
Proof.
  revert i. induction l as [|[] l IH]; intros i.
  - split; [intros _; exists 0, 0; reflexivity|constructor].
  - rewrite precisions_loop_true. split.
    + intros Hall. inversion Hall as [|? ? _ Ht]; subst.
      apply IH in Ht. destruct Ht as (n & m & ->). exists (S n), m. reflexivity.
    + intros (n & m & E). constructor; [apply ratio_one; reflexivity|].
      apply IH. destruct n as [|n].
      * destruct m; discriminate.
      * exists n, m. cbn in E. congruence.
  - rewrite precisions_loop_false. split.
    + intros Hall. apply precisions_loop_late in Hall; [|lia].
      exists 0, (S (length l)). cbn [repeat app]. f_equal.
      clear -Hall. induction Hall as [|b l Hb _ IH']; [reflexivity|].
      subst b. cbn [length repeat]. f_equal. exact IH'.
    + intros (n & m & E). destruct n as [|n]; [|discriminate].
      cbn [repeat app] in E. rewrite precisions_loop_none; [constructor|].
      destruct m as [|m]; [discriminate|]. cbn in E. injection E as ->.
      clear. induction m; constructor; [reflexivity|assumption].
Qed.

Lemma average_precision_mean (l : list bool) :
  average_precision l = mean_or_zero (precisions_loop l 0 0 []).
Proof. unfold average_precision, mean_or_zero. destruct (precisions_loop l 0 0 []); reflexivity. Qed.

Lemma mean_or_zero_pos (xs : list R) :
  xs <> [] -> Forall (fun p => 0 < p <= 1)%R xs ->
  (0 < mean_or_zero xs <= 1)%R /\
  (mean_or_zero xs = 1%R <-> Forall (fun p => p = 1%R) xs).
Proof.
  intros Hne H. destruct xs as [|x xs]; [congruence|].
  unfold mean_or_zero. set (l := x :: xs) in *.
  assert (Hn : (0 < INR (length l))%R) by (apply lt_0_INR; cbn; lia).
  assert (Hle : Forall (fun p => p <= 1)%R l).
  { revert H. apply List.Forall_impl. intros a Ha; apply Ha. }
  pose proof (sum_floats_le 1 l Hle) as Hs.
  assert (Hpos : (0 < sum_floats l)%R).
  { unfold l. rewrite sum_floats_cons. inversion H as [|? ? Hx Hxs]; subst.
    assert (Hge : Forall (fun p => 0 <= p)%R xs).
    { revert Hxs. apply List.Forall_impl. intros a Ha. lra. }
    pose proof (sum_floats_ge 0 xs Hge). lra. }
  split; [split|split].
  - apply Rdiv_lt_0_compat; assumption.
  - apply Rmult_le_reg_r with (INR (length l)); [assumption|].
    unfold Rdiv. rewrite Rmult_assoc, Rinv_l by lra. lra.
  - intros E. apply sum_floats_full; [assumption|].
    apply Rmult_eq_reg_r with (/ INR (length l))%R.
    + rewrite Rinv_r by lra. exact E.
    + apply Rinv_neq_0_compat. lra.
  - intros Hall. rewrite (sum_floats_ones l Hall). unfold Rdiv. apply Rinv_r. lra.
Qed.

(** X10.  The average precision is in [0, 1]; it is [0] exactly when no item
    is relevant, and [1] exactly when some item is relevant and the relevant
    items come first. *)
Theorem average_precision_range (relevant_items : list bool) :
  (0 <= average_precision relevant_items <= 1)%R /\
  (average_precision relevant_items = 0%R <->
   Forall (fun b => b = false) relevant_items) /\
  (average_precision relevant_items = 1%R <->
   In true relevant_items /\ relevant_first relevant_items).
Proof.
  rewrite average_precision_mean.
  pose proof (precisions_loop_unit relevant_items 0 0 (le_n 0)) as Hu.
  pose proof (precisions_loop_length relevant_items 0 0) as Hlen.
  pose proof (precisions_loop_perfect relevant_items 0) as Hp.
  assert (Hcount : length (List.filter (fun b : bool => b) relevant_items) = 0 <->
                   Forall (fun b => b = false) relevant_items).
  { clear. induction relevant_items as [|[] l IH]; cbn [List.filter length].
    - split; [constructor|reflexivity].
    - split; [discriminate|]. intros H. inversion H; discriminate.
    - rewrite IH. split; [constructor; [reflexivity|assumption]|].
      intros H. inversion H; assumption. }
  assert (Hin : In true relevant_items <-> ~ Forall (fun b => b = false) relevant_items).
  { clear. induction relevant_items as [|[] l IH]; cbn [In].
    - split; [tauto|]. intros H. apply H. constructor.
    - split; [|auto]. intros _ H. inversion H; discriminate.
    - rewrite IH. split.
      + intros [H|H]; [discriminate|]. intros H'. inversion H'; auto.
      + intros H. right. intros H'. apply H. constructor; [reflexivity|assumption]. }
  destruct (precisions_loop relevant_items 0 0 []) as [|p ps] eqn:E.
  - cbn [length] in Hlen. symmetry in Hlen. apply Hcount in Hlen.
    cbn [mean_or_zero]. split; [lra|]. split; [tauto|].
    split; [lra|]. intros [H _]. apply Hin in H. tauto.
  - assert (Hne : p :: ps <> []) by discriminate.
    destruct (mean_or_zero_pos (p :: ps) Hne Hu) as [Hb H1].
    assert (Hsome : ~ Forall (fun b => b = false) relevant_items).
    { intros H. apply Hcount in H. rewrite H in Hlen. discriminate. }
    split; [lra|]. split; [split; [lra|tauto]|].
    rewrite H1, Hp, Hin. tauto.
Qed.


(** *** [mean_average_precision] *)

Lemma mean_average_precision_mean (all_relevant_items : list (list bool)) :
  mean_average_precision all_relevant_items =
  mean_or_zero (map average_precision all_relevant_items).
Proof.
  unfold mean_average_precision, mean_or_zero.
  destruct (map average_precision all_relevant_items); reflexivity.
Qed.

Lemma average_precision_unit (l : list bool) :
  (0 <= average_precision l <= 1)%R.
Proof.
  rewrite average_precision_mean.
  apply mean_or_zero_bounds; [lra|].
  generalize (precisions_loop_unit l 0 0 (le_n 0)).
  apply List.Forall_impl. intros a Ha. lra.
Qed.

(** X11.  The mean average precision is in [0, 1], is [0] without queries,
    and is [1] exactly when there is a query and every query has average
    precision [1]. *)
Theorem mean_average_precision_range (all_relevant_items : list (list bool)) :
  (0 <= mean_average_precision all_relevant_items <= 1)%R /\
  mean_average_precision [] = 0%R /\
  (mean_average_precision all_relevant_items = 1%R <->
   all_relevant_items <> [] /\
   Forall (fun l => average_precision l = 1%R) all_relevant_items).
Proof.
  rewrite mean_average_precision_mean.
  assert (Hu : Forall (fun x => 0 <= x <= 1)%R (map average_precision all_relevant_items)).
  { apply Forall_map. apply List.Forall_forall. intros l _. apply average_precision_unit. }
  split; [apply mean_or_zero_bounds; [lra|exact Hu]|].
  split; [reflexivity|].
  destruct all_relevant_items as [|q qs].
  - cbn. split; [lra|]. intros [H _]. congruence.
  - set (aps := map average_precision (q :: qs)) in *.
    assert (Hn : (0 < INR (length aps))%R) by (apply lt_0_INR; cbn; lia).
    assert (Hle : Forall (fun p => p <= 1)%R aps).
    { revert Hu. apply List.Forall_impl. intros a Ha; apply Ha. }
    assert (E : mean_or_zero aps = (sum_floats aps / INR (length aps))%R) by reflexivity.
    rewrite E. split.
    + intros H1. split; [discriminate|].
      assert (Hall : Forall (fun p => p = 1%R) aps).
      { apply sum_floats_full; [assumption|].
        apply Rmult_eq_reg_r with (/ INR (length aps))%R.
        - rewrite Rinv_r by lra. exact H1.
        - apply Rinv_neq_0_compat. lra. }
      unfold aps in Hall. apply Forall_map in Hall. exact Hall.
    + intros [_ Hall].
      assert (Hall' : Forall (fun p => p = 1%R) aps).
      { unfold aps. apply Forall_map. exact Hall. }
      rewrite (sum_floats_ones aps Hall'). unfold Rdiv. apply Rinv_r. lra.
Qed.

(** *** [precision_at_k] *)

Lemma filter_length_le {A : Type} (p : A -> bool) (l : list A) :
  length (List.filter p l) <= length l.
Proof.
  induction l as [|a l IH]; [reflexivity|]. cbn [List.filter].
  destruct (p a); cbn [length]; lia.
Qed.

(** What [precision_at_k] returns once [k] is clamped to [m >= 1]. *)
Lemma precision_at_k_clamped (relevant_items : list bool) (k : Z) :
  relevant_items <> [] -> (1 <= k)%Z ->
  exists m : nat, 1 <= m /\ Z.of_nat m = Z.min k (Z.of_nat (length relevant_items)) /\
  precision_at_k relevant_items k =
  Ok (INR (length (List.filter (fun b : bool => b) (firstn m relevant_items))) / INR m)%R.
Proof.
  intros Hne Hk.
  assert (Hlen : (1 <= Z.of_nat (length relevant_items))%Z).
  { destruct relevant_items; [congruence|cbn [length]; lia]. }
  exists (Z.to_nat (Z.min k (Z.of_nat (length relevant_items)))).
  split; [lia|]. split; [lia|].
  unfold precision_at_k. rewrite clamp_min.
  set (m := Z.min k (Z.of_nat (length relevant_items))).
  assert (Hm : (1 <= m)%Z) by (unfold m; lia).
  unfold slice_to, true_div.
  destruct (Z.ltb_spec m 0); [lia|].
  destruct (Z.eqb_spec m 0); [lia|].
  rewrite sum_bools_count, <- INR_IZR_INZ.
  rewrite (INR_IZR_INZ (Z.to_nat m)), Z2Nat.id by lia. reflexivity.
Qed.

(** X12.  On a non-empty ranking and [k >= 1] the precision is a value of
    [0, 1]; it is [1] exactly when the first [min(k, len)] items are all
    relevant. *)
Theorem precision_at_k_range (relevant_items : list bool) (k : Z) :
  relevant_items <> [] -> (1 <= k)%Z ->
  exists p : R, precision_at_k relevant_items k = Ok p /\ (0 <= p <= 1)%R /\
  (p = 1%R <->
   Forall (fun b => b = true)
     (firstn (Z.to_nat (Z.min k (Z.of_nat (length relevant_items)))) relevant_items)).
Proof.
  intros Hne Hk.
  destruct (precision_at_k_clamped relevant_items k Hne Hk) as (m & Hm & Em & E).
  rewrite E, <- Em, Nat2Z.id. eexists; split; [reflexivity|].
  set (top := firstn m relevant_items).
  assert (Htop : length top = m).
  { unfold top. rewrite length_firstn. lia. }
  pose proof (filter_length_le (fun b : bool => b) top) as Hle.
  set (c := length (List.filter (fun b : bool => b) top)) in *.
  assert (Hmpos : (0 < INR m)%R) by (apply lt_0_INR; lia).
  assert (Hc0 : (0 <= INR c)%R) by apply pos_INR.
  assert (Hcm : (INR c <= INR m)%R) by (apply le_INR; lia).
  split; [split|].
  - apply Rmult_le_reg_r with (INR m); [assumption|].
    unfold Rdiv. rewrite Rmult_assoc, Rinv_l by lra. lra.
  - apply Rmult_le_reg_r with (INR m); [assumption|].
    unfold Rdiv. rewrite Rmult_assoc, Rinv_l by lra. lra.
  - assert (Hall : c = length top <-> Forall (fun b => b = true) top).
    { unfold c. clear. induction top as [|[] l IH]; cbn [List.filter length].
      - split; [constructor|reflexivity].
      - split.
        + intros H. constructor; [reflexivity|]. apply IH. lia.
        + intros H. inversion H; subst. f_equal. apply IH. assumption.
      - pose proof (filter_length_le (fun b : bool => b) l) as Hl. split; [lia|].
        intros H. inversion H; discriminate. }
    rewrite <- Hall, Htop. split.
    + intros H1. apply INR_eq. apply Rmult_eq_reg_r with (/ INR m)%R.
      * rewrite Rinv_r by lra. exact H1.
      * apply Rinv_neq_0_compat. lra.
    + intros ->. unfold Rdiv. apply Rinv_r. lra.
Qed.

Lemma precision_at_k_range_witness :
  [true; false; true; true] <> [] /\ (1 <= 3)%Z /\
  exists p : R, precision_at_k [true; false; true; true] 3 = Ok p /\ (0 <= p <= 1)%R /\
  (p = 1%R <->
   Forall (fun b => b = true)
     (firstn (Z.to_nat (Z.min 3 (Z.of_nat (length [true; false; true; true]))))
        [true; false; true; true])).
Proof.
  split; [discriminate|]. split; [lia|].
  apply (precision_at_k_range [true; false; true; true] 3); [discriminate|lia].
Defined.

(** *** [normalized_dcg] *)

(** The weight [1 / log2(i + 2)] of position [i]. *)
Definition discount (i : nat) : R := (/ log2 (INR i + 2))%R.

Lemma ln_2_pos : (0 < ln 2)%R.
Proof. pose proof ln_lt_2. lra. Qed.

Lemma log2_increasing (x y : R) :
  (0 < x)%R -> (x < y)%R -> (log2 x < log2 y)%R.
Proof.
  intros Hx Hxy. unfold log2, Rdiv.
  apply Rmult_lt_compat_r; [apply Rinv_0_lt_compat, ln_2_pos|].
  apply ln_increasing; assumption.
Qed.

Lemma log2_pos (i : nat) : (0 < log2 (INR i + 2))%R.
Proof.
  pose proof (pos_INR i). unfold log2. apply Rdiv_lt_0_compat; [|apply ln_2_pos].
  rewrite <- ln_1. apply ln_increasing; lra.
Qed.

Lemma discount_pos (i : nat) : (0 < discount i)%R.
Proof. apply Rinv_0_lt_compat, log2_pos. Qed.

Lemma discount_decreasing (i : nat) : (discount (S i) < discount i)%R.
Proof.
  unfold discount. pose proof (pos_INR i).
  apply Rinv_lt_contravar.
  - apply Rmult_lt_0_compat; apply log2_pos.
  - rewrite S_INR. apply log2_increasing; lra.
Qed.

Lemma dcg_from_cons (i : nat) (x : R) (l : list R) :
  dcg_from i (x :: l) = (x * discount i + dcg_from (S i) l)%R.
Proof. reflexivity. Qed.

(** Moving a score towards the front, past smaller ones, does not lower
    the gain of the first [n] positions. *)
Lemma dcg_insert (x : R) (l : list R) (i n : nat) :
  (dcg_from i (firstn n (x :: l)) <=
   dcg_from i (firstn n (insert_desc (fun x => x) x l)))%R.
Proof.
  revert i n. induction l as [|y t IH]; intros i n; cbn [insert_desc]; [lra|].
  destruct (Rlt_dec x y) as [Hxy|]; [|lra].
  destruct n as [|[|n]].
  - cbn [firstn]. lra.
  - change (firstn 1 (x :: y :: t)) with [x].
    change (firstn 1 (y :: insert_desc (fun x => x) x t)) with [y].
    rewrite !dcg_from_cons. cbn [dcg_from].
    pose proof (discount_pos i). nra.
  - specialize (IH (S i) (S n)).
    change (firstn (S (S n)) (x :: y :: t)) with (x :: y :: firstn n t).
    change (firstn (S (S n)) (y :: insert_desc (fun x => x) x t))
      with (y :: firstn (S n) (insert_desc (fun x => x) x t)).
    change (firstn (S n) (x :: t)) with (x :: firstn n t) in IH.
    rewrite !dcg_from_cons in *.
    pose proof (discount_decreasing i). nra.
Qed.

(** No order of the scores gains more on its first [n] positions than the
    decreasing one. *)
Lemma dcg_sorted_max (l : list R) (i n : nat) :
  (dcg_from i (firstn n l) <= dcg_from i (firstn n (sort_desc (fun x => x) l)))%R.
Proof.
  revert i n. induction l as [|x t IH]; intros i n; [cbn; destruct n; cbn; lra|].
  change (sort_desc (fun x => x) (x :: t))
    with (insert_desc (fun x => x) x (sort_desc (fun x => x) t)).
  eapply Rle_trans; [|apply dcg_insert].
  destruct n as [|n]; [cbn; lra|].
  cbn [firstn]. rewrite !dcg_from_cons. specialize (IH (S i) n). lra.
Qed.

Lemma dcg_nonneg (l : list R) (i : nat) :
  Forall (fun x => 0 <= x)%R l -> (0 <= dcg_from i l)%R.
Proof.
  intros H. revert i. induction H as [|x l Hx _ IH]; intros i; [cbn; lra|].
  rewrite dcg_from_cons. specialize (IH (S i)). pose proof (discount_pos i). nra.
Qed.

Lemma sort_desc_length {A : Type} (key : A -> R) (l : list A) :
  length (sort_desc key l) = length l.
Proof. apply Permutation_length, sort_desc_perm. Qed.

(** Both slices of [normalized_dcg] take the same number of items. *)
Lemma slice_to_firstn (l : list R) (k : Z) :
  exists n, slice_to l k = firstn n l /\
            slice_to (sort_desc (fun x => x) l) k = firstn n (sort_desc (fun x => x) l).
Proof.
  unfold slice_to. rewrite sort_desc_length.
  destruct (k <? 0)%Z; eexists; split; reflexivity.
Qed.

Definition effective_k (relevance_scores : list R) (k : option Z) : Z :=
  match k with
  | None => Z.of_nat (length relevance_scores)
  | Some k => k
  end.

Lemma normalized_dcg_unfold (relevance_scores : list R) (k : option Z) :
  exists n,
    slice_to relevance_scores (effective_k relevance_scores k) = firstn n relevance_scores /\
    normalized_dcg relevance_scores k =
    if Rlt_dec 0 (dcg_from 0 (firstn n (sort_desc (fun x => x) relevance_scores)))
    then (dcg_from 0 (firstn n relevance_scores) /
          dcg_from 0 (firstn n (sort_desc (fun x => x) relevance_scores)))%R
    else 0%R.
Proof.
  destruct (slice_to_firstn relevance_scores (effective_k relevance_scores k)) as (n & E1 & E2).
  exists n. split; [exact E1|].
  unfold normalized_dcg. fold (effective_k relevance_scores k).
  cbv zeta. rewrite E1, E2. reflexivity.
Qed.

(** X13.  The normalised gain never exceeds [1], is not negative when no
    score is, and is [0] for an empty list. *)
Theorem normalized_dcg_range (relevance_scores : list R) (k : option Z) :
  (normalized_dcg relevance_scores k <= 1)%R /\
  (Forall (fun x => 0 <= x)%R relevance_scores ->
   0 <= normalized_dcg relevance_scores k)%R /\
  normalized_dcg [] k = 0%R.
Proof.
  split; [|split].
  - destruct (normalized_dcg_unfold relevance_scores k) as (n & _ & ->).
    pose proof (dcg_sorted_max relevance_scores 0 n) as Hmax.
    destruct (Rlt_dec 0 _) as [Hpos|]; [|lra].
    apply Rmult_le_reg_r with (dcg_from 0 (firstn n (sort_desc (fun x => x) relevance_scores)));
      [assumption|].
    unfold Rdiv. rewrite Rmult_assoc, Rinv_l by lra. lra.
  - intros Hnn. destruct (normalized_dcg_unfold relevance_scores k) as (n & _ & ->).
    destruct (Rlt_dec 0 _) as [Hpos|]; [|lra].
    assert (H0 : (0 <= dcg_from 0 (firstn n relevance_scores))%R).
    { apply dcg_nonneg, Forall_take, Hnn. }
    apply Rmult_le_reg_r with (dcg_from 0 (firstn n (sort_desc (fun x => x) relevance_scores)));
      [assumption|].
    unfold Rdiv. rewrite Rmult_assoc, Rinv_l by lra. lra.
  - destruct (normalized_dcg_unfold [] k) as (n & _ & ->).
    change (sort_desc (fun x : R => x) []) with (@nil R).
    rewrite firstn_nil. cbn [dcg_from]. destruct (Rlt_dec 0 0); [lra|reflexivity].
Qed.

(** X14.  A ranking already in decreasing order of relevance, whose kept
    part has a positive gain, has normalised gain [1]. *)
Theorem normalized_dcg_sorted (relevance_scores : list R) (k : option Z) :
  StronglySorted (fun a b => b <= a)%R relevance_scores ->
  (0 < dcg_from 0 (slice_to relevance_scores (effective_k relevance_scores k)))%R ->
  normalized_dcg relevance_scores k = 1%R.
Proof.
  intros Hs Hpos.
  destruct (normalized_dcg_unfold relevance_scores k) as (n & E & ->).
  rewrite E in Hpos.
  rewrite (sort_desc_id (fun x => x) relevance_scores Hs).
  destruct (Rlt_dec 0 _) as [|Hn]; [|contradiction].
  unfold Rdiv. apply Rinv_r. lra.
Qed.

Lemma normalized_dcg_sorted_witness :
  StronglySorted (fun a b => b <= a)%R [3; 2; 0]%R /\
  (0 < dcg_from 0 (slice_to [3; 2; 0]%R (effective_k [3; 2; 0]%R (Some 2%Z))))%R /\
  normalized_dcg [3; 2; 0]%R (Some 2%Z) = 1%R.
Proof.
  assert (Hs : StronglySorted (fun a b => b <= a)%R [3; 2; 0]%R).
  { repeat constructor; lra. }
  assert (Hp : (0 < dcg_from 0 (slice_to [3; 2; 0]%R (effective_k [3; 2; 0]%R (Some 2%Z))))%R).
  { change (0 < dcg_from 0 [3; 2])%R. rewrite !dcg_from_cons. cbn [dcg_from].
    pose proof (discount_pos 0). pose proof (discount_pos 1). nra. }
  split; [exact Hs|]. split; [exact Hp|].
  exact (normalized_dcg_sorted [3; 2; 0]%R (Some 2%Z) Hs Hp).
Defined.


(** *** [EvaluationMetrics] *)

Lemma precision_at_k_cases (relevant_items : list bool) (k : Z) :
  ((k = 0%Z \/ (relevant_items = [] /\ (0 < k)%Z)) /\
   precision_at_k relevant_items k = Raise ZeroDivisionError) \/
  (~ (k = 0%Z \/ (relevant_items = [] /\ (0 < k)%Z)) /\
   exists p, precision_at_k relevant_items k = Ok p).
Proof.
  unfold precision_at_k. rewrite clamp_min. unfold true_div.
  destruct (Z.eqb_spec (Z.min k (Z.of_nat (length relevant_items))) 0) as [E|E].
  - left. split; [|reflexivity].
    destruct relevant_items; cbn [length] in *; [|lia].
    destruct (Z.eq_dec k 0%Z); [left; assumption|right; split; [reflexivity|lia]].
  - right. split; [|eexists; reflexivity].
    intros [->|[-> Hk]]; [lia|]. cbn [length] in E. lia.
Qed.

Lemma map_result_raise {A B : Type} (f : A -> result B) (xs : list A) (e : exn) :
  map_result f xs = Raise e -> exists x, In x xs /\ f x = Raise e.
Proof.
  induction xs as [|x xs IH]; cbn [map_result]; [discriminate|].
  destruct (f x) as [e'|y] eqn:E.
  - intros H. exists x. split; [left; reflexivity|].
    unfold Raise in *. rewrite E. congruence.
  - destruct (map_result f xs) as [e'|ys]; [|discriminate].
    intros H. destruct (IH H) as (x' & Hin & Hx'). exists x'. split; [right; assumption|assumption].
Qed.

Lemma map_result_ok {A B : Type} (f : A -> result B) (xs : list A) :
  (forall x, In x xs -> exists y, f x = Ok y) ->
  exists ys, map_result f xs = Ok ys /\ Forall2 (fun x y => f x = Ok y) xs ys.
Proof.
  induction xs as [|x xs IH]; intros H; cbn [map_result].
  - exists []. split; [reflexivity|constructor].
  - destruct (H x (or_introl eq_refl)) as (y & Hy).
    destruct IH as (ys & E & HF); [intros x' Hx'; apply H; right; assumption|].
    rewrite Hy, E. exists (y :: ys). split; [reflexivity|].
    constructor; assumption.
Qed.

Lemma map_result_fails {A B : Type} (f : A -> result B) (xs : list A) (x : A) (e : exn) :
  In x xs -> f x = Raise e -> exists e', map_result f xs = Raise e'.
Proof.
  induction xs as [|x' xs IH]; intros Hin Hx; [destruct Hin|].
  cbn [map_result]. destruct (f x') as [e'|y] eqn:E; [exists e'; reflexivity|].
  destruct Hin as [->|Hin]; [rewrite Hx in E; discriminate|].
  destruct (IH Hin Hx) as (e' & ->). exists e'. reflexivity.
Qed.

(** The condition under which the precisions of an accumulator cannot be
    computed. *)
Definition undefined_precision (self : EvaluationMetrics) (k : Z) : Prop :=
  (k = 0%Z /\ all_relevant_items self <> []) \/
  ((0 < k)%Z /\ In [] (all_relevant_items self)).

(** X15.  [calculate_all_metrics] raises exactly when [k = 0] and a query
    was added, or [k > 0] and one of the added rankings is empty; the error
    is [ZeroDivisionError]. Without queries all three metrics are [0]. *)
Theorem calculate_all_metrics_raises (self : EvaluationMetrics) (k : Z) :
  (calculate_all_metrics self k = Raise ZeroDivisionError <->
   undefined_precision self k) /\
  (is_ok (calculate_all_metrics self k) = false <->
   calculate_all_metrics self k = Raise ZeroDivisionError) /\
  calculate_all_metrics new_metrics k =
  Ok {| p_at_k := 0; MAP := 0; ndcg_at_k := 0 |}.
Proof.
  split; [|split]; [| |reflexivity].
  - unfold calculate_all_metrics, undefined_precision.
    destruct (map_result _ _) as [e|ps] eqn:E.
    + apply map_result_raise in E. destruct E as (l & Hin & Hl).
      cbv beta in Hl.
      destruct (precision_at_k_cases l k) as [[Hc Hr]|[_ (p & Hp)]];
        unfold Raise, Ok in *; [|congruence].
      assert (e = ZeroDivisionError) by congruence. subst e.
      split; [intros _|reflexivity].
      destruct Hc as [->|[-> Hk]].
      * left. split; [reflexivity|]. intros Hnil. rewrite Hnil in Hin. destruct Hin.
      * right. split; assumption.
    + split; [discriminate|]. intros Hu. exfalso.
      assert (exists l, In l (all_relevant_items self) /\
                        precision_at_k l k = Raise ZeroDivisionError) as (l & Hin & Hl).
      { destruct Hu as [[-> Hne]|[Hk Hin]].
        - destruct (all_relevant_items self) as [|l ls]; [congruence|].
          exists l. split; [left; reflexivity|].
          destruct (precision_at_k_cases l 0) as [[_ Hr]|[Hc _]]; [exact Hr|].
          exfalso. apply Hc. left. reflexivity.
        - exists []. split; [assumption|].
          destruct (precision_at_k_cases [] k) as [[_ Hr]|[Hc _]]; [exact Hr|].
          exfalso. apply Hc. right. split; [reflexivity|assumption]. }
      destruct (map_result_fails
                  (fun relevant_items => precision_at_k relevant_items k)
                  _ l ZeroDivisionError Hin Hl) as (e' & He').
      unfold Raise in *. congruence.
  - unfold calculate_all_metrics.
    destruct (map_result _ _) as [e|ps] eqn:E; cbn [is_ok].
    + apply map_result_raise in E. destruct E as (l & Hin & Hl).
      cbv beta in Hl.
      destruct (precision_at_k_cases l k) as [[Hc Hr]|[_ (p & Hp)]];
        unfold Raise, Ok in *; [|congruence].
      assert (e = ZeroDivisionError) by congruence. subst e.
      split; reflexivity.
    + split; discriminate.
Qed.

Lemma precision_at_k_unit (relevant_items : list bool) (k : Z) :
  relevant_items <> [] -> (1 <= k)%Z ->
  exists p : R, precision_at_k relevant_items k = Ok p /\ (0 <= p <= 1)%R.
Proof.
  intros Hne Hk.
  destruct (precision_at_k_clamped relevant_items k Hne Hk) as (m & Hm & Em & E).
  rewrite E. eexists; split; [reflexivity|].
  set (top := firstn m relevant_items).
  assert (Htop : length top = m).
  { unfold top. rewrite length_firstn. lia. }
  pose proof (filter_length_le (fun b : bool => b) top) as Hle.
  set (c := length (List.filter (fun b : bool => b) top)) in *.
  assert (Hmpos : (0 < INR m)%R) by (apply lt_0_INR; lia).
  assert (Hc0 : (0 <= INR c)%R) by apply pos_INR.
  assert (Hcm : (INR c <= INR m)%R) by (apply le_INR; lia).
  split.
  - apply Rmult_le_reg_r with (INR m); [assumption|].
    unfold Rdiv. rewrite Rmult_assoc, Rinv_l by lra. lra.
  - apply Rmult_le_reg_r with (INR m); [assumption|].
    unfold Rdiv. rewrite Rmult_assoc, Rinv_l by lra. lra.
Qed.

Lemma normalized_dcg_unit (scores : list R) (k : option Z) :
  Forall (fun x => 0 <= x)%R scores -> (0 <= normalized_dcg scores k <= 1)%R.
Proof.
  intros Hnn.
  destruct (normalized_dcg_unfold scores k) as (n & _ & ->).
  pose proof (dcg_sorted_max scores 0 n) as Hmax.
  destruct (Rlt_dec 0 _) as [Hpos|]; [|lra].
  assert (H0 : (0 <= dcg_from 0 (firstn n scores))%R) by apply dcg_nonneg, Forall_take, Hnn.
  split.
  - apply Rmult_le_reg_r with (dcg_from 0 (firstn n (sort_desc (fun x => x) scores)));
      [assumption|].
    unfold Rdiv. rewrite Rmult_assoc, Rinv_l by lra. lra.
  - apply Rmult_le_reg_r with (dcg_from 0 (firstn n (sort_desc (fun x => x) scores)));
      [assumption|].
    unfold Rdiv. rewrite Rmult_assoc, Rinv_l by lra. lra.
Qed.

(** X16.  With [k >= 1], no empty ranking and no negative relevance score,
    the three metrics are returned and each is in [0, 1]. *)
Theorem calculate_all_metrics_range (self : EvaluationMetrics) (k : Z) :
  (1 <= k)%Z ->
  Forall (fun l => l <> []) (all_relevant_items self) ->
  Forall (Forall (fun x => 0 <= x)%R) (all_relevance_scores self) ->
  exists m, calculate_all_metrics self k = Ok m /\
            (0 <= p_at_k m <= 1)%R /\ (0 <= MAP m <= 1)%R /\
            (0 <= ndcg_at_k m <= 1)%R.
Proof.
  intros Hk Hne Hnn. unfold calculate_all_metrics.
  destruct (map_result_ok (fun relevant_items => precision_at_k relevant_items k)
              (all_relevant_items self)) as (ps & -> & HF).
  { intros l Hl. destruct (precision_at_k_unit l k) as (p & Hp & _); [|assumption|eauto].
    apply (proj1 (List.Forall_forall _ _) Hne). assumption. }
  eexists. split; [reflexivity|]. cbn [p_at_k MAP ndcg_at_k].
  split; [|split].
  - apply mean_or_zero_bounds; [lra|].
    clear -HF Hne Hk. induction HF as [|l p ls ps Hp _ IH]; [constructor|].
    inversion Hne as [|? ? Hl Hls]; subst.
    constructor; [|apply IH; assumption].
    destruct (precision_at_k_unit l k Hl Hk) as (p' & Hp' & Hb).
    cbv beta in Hp. unfold Ok in *. assert (p = p') by congruence. subst p'. exact Hb.
  - rewrite mean_average_precision_mean. apply mean_or_zero_bounds; [lra|].
    apply Forall_map. apply List.Forall_forall. intros l _. apply average_precision_unit.
  - apply mean_or_zero_bounds; [lra|].
    apply Forall_map. revert Hnn. apply List.Forall_impl.
    intros scores Hs. apply normalized_dcg_unit. exact Hs.
Qed.

Definition sample_metrics : EvaluationMetrics :=
  add_query_results
    (add_query_results new_metrics [true; false] [3; 1]%R)
    [false; true; true] [0; 2; 2]%R.

Lemma calculate_all_metrics_range_witness :
  (1 <= 2)%Z /\
  Forall (fun l => l <> []) (all_relevant_items sample_metrics) /\
  Forall (Forall (fun x => 0 <= x)%R) (all_relevance_scores sample_metrics) /\
  exists m, calculate_all_metrics sample_metrics 2 = Ok m /\
            (0 <= p_at_k m <= 1)%R /\ (0 <= MAP m <= 1)%R /\
            (0 <= ndcg_at_k m <= 1)%R.
Proof.
  assert (H1 : Forall (fun l : list bool => l <> []) (all_relevant_items sample_metrics)).
  { repeat constructor; discriminate. }
  assert (H2 : Forall (Forall (fun x => 0 <= x)%R) (all_relevance_scores sample_metrics)).
  { repeat constructor; lra. }
  split; [lia|]. split; [exact H1|]. split; [exact H2|].
  apply (calculate_all_metrics_range sample_metrics 2); [lia|exact H1|exact H2].
Defined.

End RankingMetricsFacts.

(** ** The extraction of skills *)

Module SkillExtractionFacts.
Import Py Re Skills Metrics SkillExtraction ReFacts NormalizeFacts.
Local Open Scope list_scope.

(** *** [re.search] on the pattern of a skill *)

(** [\bw\b] matches at a position: there is a word boundary, [w] follows,
    and there is a word boundary after it. *)
Definition occurs_at (w : str) (prev : option ascii) (s : str) : bool :=
  xorb (isw_opt prev) (isw_hd s) &&
  match starts w s with
  | Some t => xorb (isw_opt (last_of w prev)) (isw_hd t)
  | None => false
  end.

Lemma match_here_word_re (w : string) prev s :
  match match_here (word_re w) prev s with Some _ => true | None => false end =
  occurs_at (of_string w) prev s.
Proof.
  unfold match_here, word_re, lit, occurs_at.
  cbn [rmatch]. unfold word_before, word_after. cbn [m_prev m_rest].
  fold (isw_opt prev). fold (isw_hd s).
  destruct (xorb (isw_opt prev) (isw_hd s)); [|reflexivity].
  rewrite rmatch_lit. cbn [m_rest m_prev m_group rmatch andb].
  destruct (starts (of_string w) s) as [t|]; [|reflexivity].
  unfold word_before, word_after. cbn [m_prev m_rest].
  fold (isw_opt (last_of (of_string w) prev)). fold (isw_hd t).
  destruct (xorb _ _); reflexivity.
Qed.

Lemma search_from_word_re (w : string) prev s :
  search_from (word_re w) prev s =
  occurs_at (of_string w) prev s ||
  match s with
  | [] => false
  | c :: t => search_from (word_re w) (Some c) t
  end.
Proof.
  rewrite <- match_here_word_re.
  destruct s; cbn [search_from]; destruct (match_here _ _ _); reflexivity.
Qed.

Lemma last_of_app (a b : str) (d : option ascii) :
  last_of (a ++ b) d = last_of b (last_of a d).
Proof. revert d. induction a as [|x a IH]; intros d; [reflexivity|]. cbn. apply IH. Qed.

(** A successful search is an occurrence of [w] between two word
    boundaries. *)
Lemma search_from_spec (w : string) (s : str) : forall prev,
  search_from (word_re w) prev s = true <->
  exists pre post, s = pre ++ post /\
                   occurs_at (of_string w) (last_of pre prev) post = true.
Proof.
  induction s as [|c t IH]; intros prev; rewrite search_from_word_re.
  - rewrite orb_false_r. split.
    + intros H. exists [], []. split; [reflexivity|exact H].
    + intros (pre & post & E & H). symmetry in E. apply app_eq_nil in E.
      destruct E as [-> ->]. exact H.
  - rewrite orb_true_iff, IH. split.
    + intros [H|(pre & post & E & H)].
      * exists [], (c :: t). split; [reflexivity|exact H].
      * exists (c :: pre), post. split; [cbn; f_equal; exact E|exact H].
    + intros (pre & post & E & H). destruct pre as [|x pre].
      * left. cbn in E, H. subst post. exact H.
      * right. cbn in E. injection E as <- ->. exists pre, post.
        split; [reflexivity|exact H].
Qed.

(** *** [sorted] *)

Definition leb_str (a b : string) : Prop := String.leb a b = true.

Lemma insert_sorted_perm (x : string) (l : list string) :
  Permutation (insert_sorted x l) (x :: l).
Proof.
  induction l as [|y t IH]; cbn [insert_sorted]; [reflexivity|].
  destruct (String.leb x y); [reflexivity|]. rewrite IH. apply perm_swap.
Qed.

Lemma sorted_perm (l : list string) : Permutation (sorted l) l.
Proof.
  induction l as [|x t IH]; [reflexivity|].
  cbn [sorted fold_right]. fold (sorted t). rewrite insert_sorted_perm, IH. reflexivity.
Qed.

Lemma insert_sorted_Sorted (x : string) (l : list string) :
  Sorted leb_str l -> Sorted leb_str (insert_sorted x l).
Proof.
  induction 1 as [|y t Ht IH Hy]; cbn [insert_sorted]; [repeat constructor|].
  destruct (String.leb x y) eqn:E.
  - constructor; [constructor; assumption|constructor; exact E].
  - constructor; [exact IH|].
    assert (Hyx : leb_str y x).
    { destruct (String.leb_total x y) as [H|H]; [congruence|exact H]. }
    destruct t as [|z t]; cbn [insert_sorted]; [constructor; exact Hyx|].
    destruct (String.leb x z); constructor; [exact Hyx|].
    inversion Hy; assumption.
Qed.

Lemma sorted_Sorted (l : list string) : Sorted leb_str (sorted l).
Proof.
  induction l as [|x t IH]; [constructor|].
  cbn [sorted fold_right]. fold (sorted t). apply insert_sorted_Sorted, IH.
Qed.

Lemma sorted_In (l : list string) (x : string) : In x (sorted l) <-> In x l.
Proof.
  split; apply Permutation_in; [|symmetry]; apply sorted_perm.
Qed.

Lemma sorted_elements (X : gset string) :
  Sorted leb_str (sorted (elements X)) /\ List.NoDup (sorted (elements X)) /\
  forall x, In x (sorted (elements X)) <-> x ∈ X.
Proof.
  split; [apply sorted_Sorted|]. split.
  - eapply Permutation_NoDup; [symmetry; apply sorted_perm|].
    apply NoDup_ListNoDup, NoDup_elements.
  - intros x. rewrite sorted_In, <- list_elem_of_In, elem_of_elements. reflexivity.
Qed.

(** *** [extract_skills] *)

(** One of the two searches made for a skill succeeds. *)
Definition skill_found (norm_text : str) (skill : string) : bool :=
  search (pattern skill) norm_text ||
  (has_hyphen skill && search (hyphen_pattern skill) norm_text).

Lemma scan_skill_spec (norm_text : str) (found : gset string) (skill : string) :
  scan_skill norm_text found skill =
  if skill_found norm_text skill then {[skill]} ∪ found else found.
Proof.
  unfold scan_skill, skill_found.
  destruct (search (pattern skill) norm_text), (has_hyphen skill),
    (search (hyphen_pattern skill) norm_text); cbn; try reflexivity.
  rewrite (assoc_L (∪)), (idemp_L (∪)). reflexivity.
Qed.

Lemma scan_skills_spec (norm_text : str) (skills : list string) (found : gset string) :
  forall x, x ∈ fold_left (scan_skill norm_text) skills found <->
            x ∈ found \/ (In x skills /\ skill_found norm_text x = true).
Proof.
  revert found. induction skills as [|s skills IH]; intros found x; cbn [fold_left].
  - cbn. tauto.
  - rewrite IH, scan_skill_spec. cbn [In].
    destruct (skill_found norm_text s) eqn:E.
    + rewrite elem_of_union, elem_of_singleton. split.
      * intros [[->|H]|[H1 H2]]; auto.
      * intros [H|[[<-|H1] H2]]; auto.
    + split.
      * intros [H|[H1 H2]]; auto.
      * intros [H|[[<-|H1] H2]]; auto. congruence.
Qed.

Lemma scan_ontology_spec (norm_text : str) (ontology : Ontology) (found : gset string) :
  forall x,
    x ∈ fold_left (fun found item => fold_left (scan_skill norm_text) (snd item) found)
          ontology found <->
    x ∈ found \/ (In x (flat_map snd ontology) /\ skill_found norm_text x = true).
Proof.
  revert found. induction ontology as [|item rest IH]; intros found x; cbn [fold_left flat_map].
  - cbn. tauto.
  - rewrite IH, scan_skills_spec, in_app_iff. tauto.
Qed.

Lemma extract_skills_In (text : string) (ontology : Ontology) (skill : string) :
  In skill (extract_skills text ontology) <->
  text <> EmptyString /\ In skill (flat_map snd ontology) /\
  skill_found (normalize_text (of_string text)) skill = true.
Proof.
  unfold extract_skills.
  destruct text as [|c text]; [cbn [In]; tauto|].
  destruct ontology as [|item rest]; [cbn [In flat_map]; tauto|].
  cbv zeta.
  rewrite (proj2 (proj2 (sorted_elements _))), scan_ontology_spec.
  split.
  - intros [H|H]; [destruct (not_elem_of_empty _ H)|]. split; [discriminate|exact H].
  - intros [_ H]. right. exact H.
Qed.

(** X17.  [extract_skills] returns, in increasing order and once each, the
    skills of the ontology for which one of the two searches in the
    normalised text succeeds; an empty text gives no skill. *)
Theorem extract_skills_spec (text : string) (ontology : Ontology) :
  Sorted leb_str (extract_skills text ontology) /\
  List.NoDup (extract_skills text ontology) /\
  forall skill,
    In skill (extract_skills text ontology) <->
    text <> EmptyString /\ In skill (flat_map snd ontology) /\
    skill_found (normalize_text (of_string text)) skill = true.
Proof.
  split; [|split; [|apply extract_skills_In]].
  - unfold extract_skills.
    destruct text; [constructor|]. destruct ontology; [constructor|].
    apply sorted_elements.
  - unfold extract_skills.
    destruct text; [constructor|]. destruct ontology; [constructor|].
    apply sorted_elements.
Qed.

(** *** The shape of a normalised text *)

Lemma steps_shape (t : str) :
  Forall (fun c => kept c = true) (steps t) /\ tight (steps t) /\
  strip (steps t) = steps t.
Proof.
  unfold steps. cbv zeta. rewrite sub_not_kept.
  set (t6 := sub (word_re "devops") "devops" _).
  pose proof (map_clean_kept t6) as K7.
  set (t7 := map clean_char t6) in *.
  change (sub spaces_re " " t7) with (sub_from (length t7) spaces_re [space] None t7).
  destruct (squeeze_tight (length t7) None t7 (Nat.le_refl _)) as [T8 _].
  pose proof (squeeze_Forall (fun c => kept c = true) eq_refl (length t7) None t7
                (Nat.le_refl _) K7) as K8.
  set (t8 := sub_from (length t7) spaces_re [space] None t7) in *.
  split; [|split].
  - unfold strip. apply rstrip_Forall, lstrip_Forall. exact K8.
  - unfold strip. apply rstrip_tight, lstrip_tight. exact T8.
  - apply strip_idem.
Qed.

Lemma normalize_text_kept (t : str) :
  Forall (fun c => kept c = true) (normalize_text t).
Proof.
  rewrite normalize_text_steps. destruct t; [constructor|]. apply steps_shape.
Qed.

Lemma of_to_string (s : str) : of_string (to_string s) = s.
Proof. apply list_ascii_of_string_of_list_ascii. Qed.

Lemma to_of_string (s : string) : to_string (of_string s) = s.
Proof. apply string_of_list_ascii_of_string. Qed.

Lemma kept_plain (c : ascii) : kept c = true -> plain c = true.
Proof. by_cases_on c. Qed.

(** X18.  Whatever the text, its normal form holds only characters of
    [a-z0-9+#.-] and single spaces, none of them at either end; the empty
    text is its own normal form; and a normal form is normalised to a text
    that normalisation leaves as it is. *)
Theorem normalize_shape (text : string) :
  let out := of_string (normalize text) in
  Forall (fun c => kept c = true) out /\ tight out /\ strip out = out /\
  normalize EmptyString = EmptyString /\
  normalize (normalize (normalize text)) = normalize (normalize text).
Proof.
  cbv zeta.
  assert (E : forall t, of_string (normalize t) = normalize_text (of_string t)).
  { intros t. unfold normalize. apply of_to_string. }
  rewrite E, normalize_text_steps.
  split; [|split; [|split; [|split]]].
  - destruct (of_string text); [constructor|apply steps_shape].
  - destruct (of_string text); [exact I|apply steps_shape].
  - destruct (of_string text); [reflexivity|apply steps_shape].
  - reflexivity.
  - change (normalize (normalize (normalize text)))
      with (to_string (normalize_text (of_string (normalize (normalize text))))).
    rewrite (E (normalize text)).
    change (normalize (normalize text))
      with (to_string (normalize_text (of_string (normalize text)))).
    rewrite (E text).
    f_equal. apply normalize_text_idempotent.
    apply forallb_forall. intros c Hc. apply kept_plain.
    apply (proj1 (List.Forall_forall _ _) (normalize_text_kept (of_string text))). exact Hc.
Qed.

(** *** Skills that are never found *)

(** The two forms of a skill that are searched for. *)
Definition variant (skill : string) (w : str) : Prop :=
  w = lower (of_string skill) \/
  (has_hyphen skill = true /\
   w = map (fun c => if Ascii.eqb c hyphen then " "%char else c) (lower (of_string skill))).

Lemma occurs_at_spec (w : str) prev s :
  occurs_at w prev s = true <->
  exists t, s = w ++ t /\ xorb (isw_opt prev) (isw_hd s) = true /\
            xorb (isw_opt (last_of w prev)) (isw_hd t) = true.
Proof.
  unfold occurs_at. rewrite andb_true_iff. split.
  - intros [H1 H2]. destruct (starts w s) as [t|] eqn:E; [|discriminate].
    apply starts_app in E. exists t. auto.
  - intros (t & E & H1 & H2). split; [exact H1|].
    rewrite E, starts_self. exact H2.
Qed.

(** A skill is found exactly when one of its forms stands in the
    normalised text between two word boundaries. *)
Lemma skill_found_spec (norm_text : str) (skill : string) :
  skill_found norm_text skill = true <->
  exists w pre post,
    variant skill w /\ norm_text = pre ++ w ++ post /\
    xorb (isw_opt (last_of pre None)) (isw_hd (w ++ post)) = true /\
    xorb (isw_opt (last_of w (last_of pre None))) (isw_hd post) = true.
Proof.
  unfold skill_found, search, pattern, hyphen_pattern, skill_lower, unhyphenated.
  rewrite orb_true_iff, andb_true_iff, !search_from_spec.
  rewrite !of_to_string. split.
  - intros [(pre & post & E & H)|[Hh (pre & post & E & H)]];
      apply occurs_at_spec in H; destruct H as (t & Et & H1 & H2);
      eexists _, pre, t; subst post; (split; [|split; [exact E|split; [exact H1|exact H2]]]).
    + left. reflexivity.
    + right. split; [exact Hh|reflexivity].
  - intros (w & pre & post & [->|[Hh ->]] & E & H1 & H2).
    + left. exists pre, (lower (of_string skill) ++ post). split; [exact E|].
      apply occurs_at_spec. exists post. auto.
    + right. split; [exact Hh|]. eexists pre, (_ ++ post). split; [exact E|].
      apply occurs_at_spec. exists post. auto.
Qed.

Lemma variant_kept (skill : string) (w : str) :
  variant skill w -> Forall (fun c => kept c = true) w ->
  Forall (fun c => kept c = true) (lower (of_string skill)).
Proof.
  intros [->|[_ ->]] H; [exact H|].
  apply Forall_map in H. revert H. apply List.Forall_impl.
  intros c. cbv beta. destruct (Ascii.eqb c hyphen) eqn:E; [|auto].
  apply Ascii.eqb_eq in E. subst c. reflexivity.
Qed.

(** X19.  A skill whose lower-case form holds a character outside
    [a-z0-9+#.-] and the space is never extracted, whatever the text. *)
Theorem extract_skills_unreachable (text : string) (ontology : Ontology)
  (skill : string) :
  existsb (fun c => negb (kept c)) (lower (of_string skill)) = true ->
  ~ In skill (extract_skills text ontology).
Proof.
  intros Hbad Hin.
  apply extract_skills_In in Hin.
  destruct Hin as (_ & _ & Hf).
  apply skill_found_spec in Hf. destruct Hf as (w & pre & post & Hv & E & _ & _).
  pose proof (normalize_text_kept (of_string text)) as Hk. rewrite E in Hk.
  apply Forall_app in Hk. destruct Hk as [_ Hk].
  apply Forall_app in Hk. destruct Hk as [Hk _].
  pose proof (variant_kept skill w Hv Hk) as Hl.
  apply existsb_exists in Hbad. destruct Hbad as (c & Hc & Hn).
  apply (proj1 (List.Forall_forall _ _) Hl) in Hc. rewrite Hc in Hn. discriminate.
Qed.

Lemma extract_skills_unreachable_witness :
  existsb (fun c => negb (kept c)) (lower (of_string "CI/CD")) = true /\
  ~ In "CI/CD"%string
      (extract_skills "Built CI/CD pipelines" [("devops"%string, ["CI/CD"%string])]).
Proof.
  split; [reflexivity|].
  apply (extract_skills_unreachable "Built CI/CD pipelines"
           [("devops"%string, ["CI/CD"%string])] "CI/CD").
  reflexivity.
Defined.

Lemma search_word_toks (w : string) :
  wordy (of_string w) ->
  forall s prev, search_from (word_re w) prev s = true ->
    (isw_opt prev = false /\ hd_tok s = of_string w) \/ In (of_string w) (rest_toks s).
Proof.
  intros Hw. induction s as [|c t IH]; intros prev H; rewrite search_from_word_re in H;
    apply orb_true_iff in H; destruct H as [H|H].
  - apply occurs_at_spec in H. destruct H as (t & E & _ & _).
    destruct Hw as [Hne _]. destruct (of_string w); [congruence|discriminate].
  - discriminate.
  - apply occurs_at_spec in H. destruct H as (t' & E & H1 & H2).
    rewrite (last_of_wordy _ prev Hw) in H2.
    assert (Hs : isw_hd (c :: t) = true).
    { rewrite E. destruct Hw as [Hne Hall].
      destruct (of_string w) as [|x w']; [congruence|].
      cbn in Hall |- *. apply andb_true_iff in Hall. tauto. }
    rewrite Hs in H1. left. split; [destruct (isw_opt prev); [discriminate|reflexivity]|].
    rewrite E. apply toks_wordy_app; [exact Hw|].
    destruct (isw_hd t'); [discriminate|reflexivity].
  - right. destruct (IH _ H) as [[Hc Ht]|Hin]; cbn [rest_toks isw_opt] in *.
    + rewrite Hc. left. exact Ht.
    + destruct (is_word c); [exact Hin|right; exact Hin].
Qed.

Lemma lower_char_hyphen (c : ascii) :
  Ascii.eqb (lower_char c) hyphen = Ascii.eqb c hyphen.
Proof. by_cases_on c. Qed.

Lemma has_hyphen_lower (skill : string) :
  has_hyphen skill = existsb (fun c => Ascii.eqb c hyphen) (lower (of_string skill)).
Proof.
  unfold has_hyphen, lower. induction (of_string skill) as [|c t IH]; [reflexivity|].
  cbn [existsb map]. rewrite lower_char_hyphen, IH. reflexivity.
Qed.

(** X20.  On a text of ASCII characters without an underscore, a skill that
    is spelt as one of the abbreviations that [normalize] expands is never
    extracted. *)
Theorem extract_skills_abbreviation (text : string) (ontology : Ontology)
  (skill : string) :
  forallb plain (of_string text) = true ->
  In (skill_lower skill) abbreviations ->
  ~ In skill (extract_skills text ontology).
Proof.
  intros Hp Ha Hin.
  apply extract_skills_In in Hin.
  destruct Hin as (Hne & _ & Hf).
  assert (Hh : has_hyphen skill = false).
  { rewrite has_hyphen_lower. unfold skill_lower in Ha.
    rewrite <- (of_to_string (lower (of_string skill))).
    cbn in Ha. destruct Ha as [<-|[<-|[<-|[<-|[<-|[]]]]]]; reflexivity. }
  unfold skill_found in Hf. rewrite Hh, andb_false_l, orb_false_r in Hf.
  unfold search, pattern in Hf.
  assert (Hw : wordy (of_string (skill_lower skill))).
  { cbn in Ha. destruct Ha as [<-|[<-|[<-|[<-|[<-|[]]]]]]; wordy_tac. }
  assert (Hn : normal (normalize_text (of_string text))).
  { rewrite normalize_text_steps. destruct (of_string text) as [|c t] eqn:E.
    - destruct text; [congruence|discriminate].
    - apply steps_normal. exact Hp. }
  apply (normal_abbr _ Hn (skill_lower skill) Ha).
  destruct (search_word_toks _ Hw _ _ Hf) as [[_ H]|H]; [left; exact H|right; exact H].
Qed.

Lemma extract_skills_abbreviation_witness :
  forallb plain (of_string "ML and AI engineer") = true /\
  In (skill_lower "ML") abbreviations /\
  ~ In "ML"%string
      (extract_skills "ML and AI engineer" [("data"%string, ["ML"%string; "AI"%string])]).
Proof.
  split; [reflexivity|]. split; [left; reflexivity|].
  apply (extract_skills_abbreviation "ML and AI engineer"
           [("data"%string, ["ML"%string; "AI"%string])] "ML");
    [reflexivity|left; reflexivity].
Defined.

Lemma last_of_last (w : str) (c : ascii) (d : option ascii) :
  last w = Some c -> last_of w d = Some c.
Proof.
  revert d. induction w as [|x w IH]; intros d H; [discriminate|].
  cbn [last_of]. destruct w as [|y w]; [exact H|]. apply IH. exact H.
Qed.

Lemma last_map_char (f : ascii -> ascii) (w : str) :
  last (map f w) = option_map f (last w).
Proof.
  induction w as [|x w IH]; [reflexivity|].
  destruct w as [|y w]; [reflexivity|]. exact IH.
Qed.

Lemma variant_last (skill : string) (w : str) (c : ascii) :
  variant skill w -> last (lower (of_string skill)) = Some c -> is_word c = false ->
  exists c', last w = Some c' /\ is_word c' = false.
Proof.
  intros [->|[_ ->]] Hl Hc; [exists c; auto|].
  rewrite last_map_char, Hl. cbn. eexists; split; [reflexivity|].
  destruct (Ascii.eqb c hyphen); [reflexivity|exact Hc].
Qed.

(** X21.  A skill that ends in a character that is no letter, digit or
    underscore, such as [C++] or [C#], is extracted only from a text whose
    normal form holds one of its forms directly followed by a letter or a
    digit. *)
Theorem extract_skills_trailing_symbol (text : string) (ontology : Ontology)
  (skill : string) (c : ascii) :
  last (lower (of_string skill)) = Some c -> is_word c = false ->
  In skill (extract_skills text ontology) ->
  exists w pre d post,
    variant skill w /\
    normalize_text (of_string text) = pre ++ w ++ d :: post /\
    is_word d = true /\ kept d = true.
Proof.
  intros Hl Hc Hin.
  apply extract_skills_In in Hin.
  destruct Hin as (_ & _ & Hf).
  apply skill_found_spec in Hf. destruct Hf as (w & pre & post & Hv & E & _ & H2).
  destruct (variant_last skill w c Hv Hl Hc) as (c' & Hl' & Hc').
  rewrite (last_of_last w c' _ Hl') in H2. cbn [isw_opt] in H2. rewrite Hc' in H2.
  destruct post as [|d post]; [discriminate|]. cbn in H2.
  exists w, pre, d, post. split; [exact Hv|]. split; [exact E|]. split; [exact H2|].
  pose proof (normalize_text_kept (of_string text)) as Hk. rewrite E in Hk.
  apply Forall_app in Hk. destruct Hk as [_ Hk].
  apply Forall_app in Hk. destruct Hk as [_ Hk].
  inversion Hk; assumption.
Qed.

Lemma extract_skills_trailing_symbol_witness :
  last (lower (of_string "C++")) = Some "+"%char /\ is_word "+"%char = false /\
  In "C++"%string (extract_skills "C++17" [("languages"%string, ["C++"%string])]) /\
  exists w pre d post,
    variant "C++" w /\
    normalize_text (of_string "C++17") = pre ++ w ++ d :: post /\
    is_word d = true /\ kept d = true.
Proof.
  assert (H : In "C++"%string
                (extract_skills "C++17" [("languages"%string, ["C++"%string])])).
  { vm_compute. left. reflexivity. }
  split; [reflexivity|]. split; [reflexivity|]. split; [exact H|].
  exact (extract_skills_trailing_symbol "C++17" [("languages"%string, ["C++"%string])]
           "C++" "+"%char eq_refl eq_refl H).
Defined.


(** *** [extract_skills_with_categories] *)

Lemma scan_category_skill_step (norm_text : str) (acc : list string) (s x : string) :
  In x (scan_category_skill norm_text acc s) <->
  In x acc \/ (x = s /\ skill_found norm_text s = true).
Proof.
  unfold scan_category_skill, skill_found.
  destruct (search (pattern s) norm_text), (has_hyphen s),
    (search (hyphen_pattern s) norm_text); cbn [orb andb];
    rewrite ?in_app_iff; cbn [In]; intuition (subst; auto; discriminate).
Qed.

Lemma scan_category_skill_In (norm_text : str) (skills : list string) :
  forall (acc : list string) (x : string),
    In x (fold_left (scan_category_skill norm_text) skills acc) <->
    In x acc \/ (In x skills /\ skill_found norm_text x = true).
Proof.
  induction skills as [|s skills IH]; intros acc x; cbn [fold_left].
  - cbn. tauto.
  - rewrite IH, scan_category_skill_step. cbn [In]. split.
    + intros [[H|[-> H]]|[H1 H2]]; auto.
    + intros [H|[[<-|H1] H2]]; auto.
Qed.

(** What the loop over the categories stores for one category. *)
Definition category_entry (norm_text : str) (skills : list string)
  : option (list string) :=
  match fold_left (scan_category_skill norm_text) skills [] with
  | [] => None
  | category_skills => Some (sorted (elements (list_to_set category_skills : gset string)))
  end.

Lemma categories_lookup (norm_text : str) (ontology : Ontology) :
  List.NoDup (map fst ontology) ->
  forall (acc : gmap string (list string)) (category : string),
    fold_left
      (fun skills_by_category item =>
         let category_skills := fold_left (scan_category_skill norm_text) (snd item) [] in
         match category_skills with
         | [] => skills_by_category
         | _ => <[fst item := sorted (elements (list_to_set category_skills : gset string))]>
                  skills_by_category
         end) ontology acc !! category =
    match List.find (fun item => String.eqb (fst item) category) ontology with
    | Some item =>
        match category_entry norm_text (snd item) with
        | Some l => Some l
        | None => acc !! category
        end
    | None => acc !! category
    end.
Proof.
  induction ontology as [|item rest IH]; intros Hnd acc category; [reflexivity|].
  cbn [fold_left List.find]. cbn [map] in Hnd. inversion Hnd as [|? ? Hnotin Hnd']; subst.
  rewrite (IH Hnd'). cbv zeta.
  destruct (String.eqb_spec (fst item) category) as [E|E].
  - assert (Hf : List.find (fun item => String.eqb (fst item) category) rest = None).
    { destruct (List.find _ rest) as [item'|] eqn:F; [|reflexivity].
      apply find_some in F. destruct F as [Hin Heq]. apply String.eqb_eq in Heq.
      exfalso. apply Hnotin. rewrite E, <- Heq. apply in_map. exact Hin. }
    rewrite Hf. unfold category_entry.
    destruct (fold_left (scan_category_skill norm_text) (snd item) []); [reflexivity|].
    rewrite E. apply lookup_insert_eq.
  - destruct (fold_left (scan_category_skill norm_text) (snd item) []) eqn:F.
    + reflexivity.
    + rewrite lookup_insert_ne by exact E. reflexivity.
Qed.

(** X22.  For an ontology with one entry per category: a category is stored
    exactly when one of its skills is found, with these skills in increasing
    order and once each; and the skills of [extract_skills] are the skills
    stored under the categories. *)
Theorem extract_skills_with_categories_spec (text : string) (ontology : Ontology) :
  List.NoDup (map fst ontology) ->
  (forall category l,
     extract_skills_with_categories text ontology !! category = Some l ->
     l <> [] /\ Sorted leb_str l /\ List.NoDup l /\
     exists skills, In (category, skills) ontology /\
       forall skill, In skill l <->
                     In skill skills /\
                     skill_found (normalize_text (of_string text)) skill = true) /\
  (forall skill,
     In skill (extract_skills text ontology) <->
     exists category l,
       extract_skills_with_categories text ontology !! category = Some l /\ In skill l).
Proof.
  intros Hnd.
  assert (Hentry : forall skills l,
            category_entry (normalize_text (of_string text)) skills = Some l ->
            l <> [] /\ Sorted leb_str l /\ List.NoDup l /\
            forall skill, In skill l <->
                          In skill skills /\
                          skill_found (normalize_text (of_string text)) skill = true).
  { intros skills l. unfold category_entry.
    pose proof (scan_category_skill_In (normalize_text (of_string text)) skills []) as HI.
    destruct (fold_left _ skills []) as [|s0 found] eqn:F; [discriminate|].
    destruct (sorted_elements (list_to_set (s0 :: found))) as (H1 & H2 & H3).
    set (l' := sorted (elements (list_to_set (s0 :: found) : gset string))) in *.
    intros He. assert (El : l = l') by congruence. subst l.
    split; [|split; [exact H1|split; [exact H2|]]].
    - intros Hnil.
      assert (Hin : In s0 l').
      { apply H3, elem_of_list_to_set, list_elem_of_In. left. reflexivity. }
      rewrite Hnil in Hin. destruct Hin.
    - intros skill. rewrite H3, elem_of_list_to_set, list_elem_of_In, HI. cbn [In]. tauto. }
  assert (Hlookup : forall category,
            extract_skills_with_categories text ontology !! category =
            match text with
            | EmptyString => None
            | _ =>
                match List.find (fun item => String.eqb (fst item) category) ontology with
                | Some item => category_entry (normalize_text (of_string text)) (snd item)
                | None => None
                end
            end).
  { intros category. unfold extract_skills_with_categories.
    destruct text as [|c text]; [apply lookup_empty|].
    destruct ontology as [|item rest]; [apply lookup_empty|].
    cbv zeta. rewrite (categories_lookup _ _ Hnd), lookup_empty.
    destruct (List.find _ (item :: rest)); [|reflexivity].
    destruct (category_entry _ _); reflexivity. }
  split.
  - intros category l. rewrite Hlookup.
    destruct text as [|c text]; [discriminate|].
    destruct (List.find _ ontology) as [item|] eqn:F; [|discriminate].
    intros He. apply find_some in F. destruct F as [Hin Heq].
    apply String.eqb_eq in Heq.
    destruct (Hentry _ _ He) as (H1 & H2 & H3 & H4).
    split; [exact H1|]. split; [exact H2|]. split; [exact H3|].
    exists (snd item). split; [|exact H4].
    rewrite <- Heq. destruct item; exact Hin.
  - intros skill.
    rewrite extract_skills_In. split.
    + intros (Hne & Hin & Hf). apply in_flat_map in Hin.
      destruct Hin as (item & Hitem & Hs).
      assert (Hfind : exists item', List.find (fun i => String.eqb (fst i) (fst item)) ontology
                                    = Some item' /\ item' = item).
      { clear -Hnd Hitem. induction ontology as [|i rest IH]; [destruct Hitem|].
        cbn [List.find]. cbn [map] in Hnd. inversion Hnd as [|? ? Hnotin Hnd']; subst.
        destruct Hitem as [->|Hitem].
        - rewrite String.eqb_refl. eauto.
        - destruct (String.eqb_spec (fst i) (fst item)) as [E|E].
          + exfalso. apply Hnotin. rewrite E. apply in_map. exact Hitem.
          + apply IH; assumption. }
      destruct Hfind as (item' & Hfind & ->).
      destruct (category_entry (normalize_text (of_string text)) (snd item)) as [l|] eqn:He.
      * exists (fst item), l. rewrite Hlookup, Hfind.
        destruct text; [congruence|]. split; [exact He|].
        apply (proj2 (proj2 (proj2 (Hentry _ _ He)))). auto.
      * exfalso. unfold category_entry in He.
        pose proof (scan_category_skill_In (normalize_text (of_string text)) (snd item) [] skill)
          as HI.
        destruct (fold_left _ (snd item) []); [|discriminate].
        apply (proj2 HI). right. auto.
    + intros (category & l & Hl & Hin). rewrite Hlookup in Hl.
      destruct text as [|c text]; [discriminate|].
      destruct (List.find _ ontology) as [item|] eqn:F; [|discriminate].
      apply find_some in F. destruct F as [Hitem _].
      apply (proj2 (proj2 (proj2 (Hentry _ _ Hl)))) in Hin. destruct Hin as [Hs Hf].
      split; [discriminate|]. split; [|exact Hf].
      apply in_flat_map. exists item. auto.
Qed.

Definition sample_ontology : Ontology :=
  [("languages"%string, ["Python"%string; "Java"%string]);
   ("web"%string, ["Node-JS"%string; "React"%string])].

Lemma extract_skills_with_categories_witness :
  List.NoDup (map fst sample_ontology) /\
  forall skill,
    In skill (extract_skills "python and node js" sample_ontology) <->
    exists category l,
      extract_skills_with_categories "python and node js" sample_ontology !! category
      = Some l /\
      In skill l.
Proof.
  assert (H : List.NoDup (map fst sample_ontology)).
  { repeat constructor; cbn; intuition discriminate. }
  split; [exact H|].
  exact (proj2 (extract_skills_with_categories_spec "python and node js"
                  sample_ontology H)).
Defined.


(** *** [get_skill_suggestions] *)

(** The lower-case form of the skill is part of the normalised text. *)
Definition suggested (norm_text : str) (skill : string) : bool :=
  contains (lower (of_string skill)) norm_text.

Lemma not_in_spec (skill : string) (suggestions : list string) :
  not_in skill suggestions = true <-> ~ In skill suggestions.
Proof.
  unfold not_in. rewrite negb_true_iff. split.
  - intros H Hin. assert (E : existsb (String.eqb skill) suggestions = true).
    { apply existsb_exists. exists skill. split; [exact Hin|apply String.eqb_refl]. }
    congruence.
  - intros H. destruct (existsb _ _) eqn:E; [|reflexivity].
    apply existsb_exists in E. destruct E as (x & Hx & Ex).
    apply String.eqb_eq in Ex. subst x. contradiction.
Qed.

(** What a loop of [get_skill_suggestions] has done to the list it was
    entered with, over the skills [skills]. *)
Record extended (norm_text : str) (max_suggestions : Z) (skills : list string)
  (suggestions result : list string) : Prop := {
  ext_added : exists added, result = suggestions ++ added /\
                forall s, In s added -> In s skills /\ suggested norm_text s = true;
  ext_NoDup : List.NoDup result;
  ext_cap : (Z.of_nat (length result) <= max_suggestions)%Z;
  ext_all : (Z.of_nat (length result) < max_suggestions)%Z ->
            forall s, In s skills -> suggested norm_text s = true -> In s result
}.

Lemma suggest_skills_extended (norm_text : str) (max_suggestions : Z)
  (skills : list string) :
  forall suggestions,
    (Z.of_nat (length suggestions) < max_suggestions)%Z -> List.NoDup suggestions ->
    extended norm_text max_suggestions skills suggestions
      (suggest_skills norm_text max_suggestions skills suggestions).
Proof.
  induction skills as [|skill rest IH]; intros suggestions Hlen Hnd; cbn [suggest_skills].
  - constructor; [exists []; rewrite app_nil_r; split; [reflexivity|intros s []]
                 |exact Hnd|lia|intros _ s []].
  - fold (suggested norm_text skill).
    destruct (suggested norm_text skill && not_in skill suggestions) eqn:C.
    + apply andb_true_iff in C. destruct C as [Cs Cn]. apply not_in_spec in Cn.
      assert (Hnd' : List.NoDup (suggestions ++ [skill])).
      { apply NoDup_ListNoDup, NoDup_app. split; [apply NoDup_ListNoDup, Hnd|].
        split; [|apply NoDup_singleton].
        intros x Hx Hx'. apply list_elem_of_In in Hx, Hx'.
        destruct Hx' as [<-|[]]. contradiction. }
      assert (Hlen' : length (suggestions ++ [skill]) = S (length suggestions)).
      { rewrite length_app. cbn. lia. }
      destruct (Z.leb_spec max_suggestions (Z.of_nat (length (suggestions ++ [skill]))))
        as [Hbreak|Hgo].
      * constructor; [|exact Hnd'|lia|lia].
        exists [skill]. split; [reflexivity|].
        intros s [<-|[]]. split; [left; reflexivity|exact Cs].
      * destruct (IH _ Hgo Hnd') as [(added & E & Hadded) H2 H3 H4].
        constructor; [|exact H2|exact H3|].
        -- exists (skill :: added). split; [rewrite E, <- app_assoc; reflexivity|].
           intros s [<-|Hs]; [split; [left; reflexivity|exact Cs]|].
           destruct (Hadded s Hs). split; [right|]; assumption.
        -- intros Hlt s [<-|Hs] Hsug; [|apply H4; assumption].
           rewrite E. apply in_or_app. left. apply in_or_app. right. left. reflexivity.
    + destruct (IH _ Hlen Hnd) as [(added & E & Hadded) H2 H3 H4].
      constructor; [|exact H2|exact H3|].
      * exists added. split; [exact E|].
        intros s Hs. destruct (Hadded s Hs). split; [right|]; assumption.
      * intros Hlt s [<-|Hs] Hsug; [|apply H4; assumption].
        rewrite Hsug in C. cbn in C.
        destruct (not_in skill suggestions) eqn:N; [discriminate|].
        rewrite E. apply in_or_app. left.
        destruct (in_dec string_dec skill suggestions) as [Hin|Hout]; [exact Hin|].
        apply not_in_spec in Hout. congruence.
Qed.

Lemma suggest_categories_extended (norm_text : str) (max_suggestions : Z)
  (ontology : Ontology) :
  forall suggestions,
    (Z.of_nat (length suggestions) < max_suggestions)%Z -> List.NoDup suggestions ->
    extended norm_text max_suggestions (flat_map snd ontology) suggestions
      (suggest_categories norm_text max_suggestions ontology suggestions).
Proof.
  induction ontology as [|item rest IH]; intros suggestions Hlen Hnd;
    cbn [suggest_categories flat_map].
  - constructor; [exists []; rewrite app_nil_r; split; [reflexivity|intros s []]
                 |exact Hnd|lia|intros _ s []].
  - cbv zeta.
    destruct (suggest_skills_extended norm_text max_suggestions (snd item) suggestions
                Hlen Hnd) as [(added & E & Hadded) H2 H3 H4].
    set (inner := suggest_skills norm_text max_suggestions (snd item) suggestions) in *.
    destruct (Z.leb_spec max_suggestions (Z.of_nat (length inner))) as [Hbreak|Hgo].
    + constructor; [|exact H2|exact H3|lia].
      exists added. split; [exact E|].
      intros s Hs. destruct (Hadded s Hs). split; [apply in_or_app; left|]; assumption.
    + destruct (IH _ Hgo H2) as [(added' & E' & Hadded') H2' H3' H4'].
      constructor; [|exact H2'|exact H3'|].
      * exists (added ++ added'). split; [rewrite E', E, <- app_assoc; reflexivity|].
        intros s Hs. apply in_app_or in Hs. destruct Hs as [Hs|Hs].
        -- destruct (Hadded s Hs). split; [apply in_or_app; left|]; assumption.
        -- destruct (Hadded' s Hs). split; [apply in_or_app; right|]; assumption.
      * intros Hlt s Hs Hsug. apply in_app_or in Hs. destruct Hs as [Hs|Hs].
        -- rewrite E'. apply in_or_app. left. apply H4; [lia|assumption|assumption].
        -- apply H4'; assumption.
Qed.

(** With a limit of [0] or less each loop stops after its first
    suggestion. *)
Lemma suggest_skills_short (norm_text : str) (max_suggestions : Z)
  (skills : list string) :
  (max_suggestions <= 0)%Z ->
  length (suggest_skills norm_text max_suggestions skills []) <= 1.
Proof.
  intros Hmax. induction skills as [|skill rest IH]; cbn [suggest_skills]; [cbn; lia|].
  destruct (_ && _); [|exact IH].
  cbn [app length]. destruct (Z.leb_spec max_suggestions (Z.of_nat 1)); [cbn; lia|lia].
Qed.

Lemma suggest_categories_short (norm_text : str) (max_suggestions : Z)
  (ontology : Ontology) :
  (max_suggestions <= 0)%Z ->
  length (suggest_categories norm_text max_suggestions ontology []) <= 1.
Proof.
  intros Hmax. destruct ontology as [|item rest]; cbn [suggest_categories]; [cbn; lia|].
  cbv zeta. pose proof (suggest_skills_short norm_text max_suggestions (snd item) Hmax) as H.
  destruct (Z.leb_spec max_suggestions
              (Z.of_nat (length (suggest_skills norm_text max_suggestions (snd item) []))));
    [exact H|lia].
Qed.

(** X23.  [get_skill_suggestions] returns at most [max_suggestions] skills
    (none for a limit of [0] or less), each once, each a skill of the
    ontology whose lower-case form is part of the normalised text; and when
    it returns fewer than [max_suggestions] for a text that is not empty, it
    returns every such skill. *)
Theorem get_skill_suggestions_spec (text : string) (ontology : Ontology)
  (max_suggestions : Z) :
  List.NoDup (get_skill_suggestions text ontology max_suggestions) /\
  (Z.of_nat (length (get_skill_suggestions text ontology max_suggestions))
   <= Z.max 0 max_suggestions)%Z /\
  (forall s, In s (get_skill_suggestions text ontology max_suggestions) ->
             In s (flat_map snd ontology) /\
             suggested (normalize_text (of_string text)) s = true) /\
  (text <> EmptyString ->
   (Z.of_nat (length (get_skill_suggestions text ontology max_suggestions))
    < max_suggestions)%Z ->
   forall s, In s (flat_map snd ontology) ->
             suggested (normalize_text (of_string text)) s = true ->
             In s (get_skill_suggestions text ontology max_suggestions)).
Proof.
  unfold get_skill_suggestions.
  destruct text as [|c text].
  { split; [constructor|]. split; [cbn; lia|]. split; [intros s []|congruence]. }
  destruct ontology as [|item rest].
  { split; [constructor|]. split; [cbn; lia|]. split; [intros s []|intros _ _ s []]. }
  cbv zeta.
  set (norm_text := normalize_text (of_string (String c text))).
  set (ontology := item :: rest).
  destruct (Z.le_gt_cases max_suggestions 0) as [Hmax|Hmax].
  - pose proof (suggest_categories_short norm_text max_suggestions ontology Hmax) as Hs.
    assert (E : slice_to (suggest_categories norm_text max_suggestions ontology [])
                  max_suggestions = []).
    { unfold slice_to. destruct (Z.ltb_spec max_suggestions 0).
      - replace (Z.to_nat _) with 0 by lia. reflexivity.
      - replace (Z.to_nat max_suggestions) with 0 by lia. reflexivity. }
    rewrite E. split; [constructor|]. split; [cbn; lia|].
    split; [intros s []|]. cbn [length]. lia.
  - destruct (suggest_categories_extended norm_text max_suggestions ontology []
                ltac:(cbn; lia) (List.NoDup_nil _)) as [(added & E & Hadded) H2 H3 H4].
    assert (Es : slice_to (suggest_categories norm_text max_suggestions ontology [])
                   max_suggestions =
                 suggest_categories norm_text max_suggestions ontology []).
    { unfold slice_to. destruct (Z.ltb_spec max_suggestions 0); [lia|].
      apply firstn_all2. lia. }
    rewrite Es. split; [exact H2|]. split; [lia|]. split.
    + intros s Hs. rewrite E in Hs. cbn [app] in Hs. apply Hadded. exact Hs.
    + intros _ Hlt s Hs Hsug. apply H4; assumption.
Qed.

(** *** [calculate_skill_overlap] *)

Lemma list_to_set_nil_inv (l : list string) :
  (list_to_set l : gset string) = ∅ -> l = [].
Proof.
  destruct l as [|x l]; [reflexivity|]. intros H. exfalso.
  assert (Hx : x ∈ (list_to_set (x :: l) : gset string)).
  { apply elem_of_list_to_set, list_elem_of_In. left. reflexivity. }
  rewrite H in Hx. apply (not_elem_of_empty x Hx).
Qed.

Lemma overlap_unfold (skills1 skills2 : list string) :
  skills1 <> [] -> skills2 <> [] ->
  let set1 : gset string := list_to_set skills1 in
  let set2 : gset string := list_to_set skills2 in
  calculate_skill_overlap skills1 skills2 =
  (INR (size (set1 ∩ set2)) / INR (size (set1 ∪ set2)))%R /\
  0 < size (set1 ∪ set2) /\ size (set1 ∩ set2) <= size (set1 ∪ set2).
Proof.
  intros H1 H2 set1 set2.
  assert (Hpos : 0 < size (set1 ∪ set2)).
  { destruct (size (set1 ∪ set2)) eqn:E; [|lia]. exfalso.
    apply size_empty_iff in E. apply leibniz_equiv in E.
    apply H1, list_to_set_nil_inv. fold set1.
    apply leibniz_equiv. intros x. split; [|set_solver].
    intros Hx. rewrite <- E. apply elem_of_union. left. exact Hx. }
  split; [|split; [exact Hpos|]].
  - unfold calculate_skill_overlap.
    destruct skills1 as [|a l1]; [congruence|]. destruct skills2 as [|b l2]; [congruence|].
    cbv zeta. fold set1. fold set2.
    destruct (Nat.eqb_spec (size (set1 ∪ set2)) 0); [lia|reflexivity].
  - apply subseteq_size. intros x Hx. apply elem_of_intersection in Hx.
    apply elem_of_union. left. tauto.
Qed.

(** X24.  The overlap of two lists of skills is a value of [0, 1] that does
    not depend on their order; it is [0] exactly when they share no skill,
    and [1] exactly when they are not empty and hold the same skills. *)
Theorem calculate_skill_overlap_spec (skills1 skills2 : list string) :
  (0 <= calculate_skill_overlap skills1 skills2 <= 1)%R /\
  calculate_skill_overlap skills1 skills2 = calculate_skill_overlap skills2 skills1 /\
  (calculate_skill_overlap skills1 skills2 = 0%R <->
   forall s, ~ (In s skills1 /\ In s skills2)) /\
  (calculate_skill_overlap skills1 skills2 = 1%R <->
   skills1 <> [] /\ forall s, In s skills1 <-> In s skills2).
Proof.
  destruct (decide (skills1 = [])) as [->|H1].
  { assert (E : calculate_skill_overlap skills2 [] = 0%R) by (destruct skills2; reflexivity).
    rewrite E. cbn [calculate_skill_overlap].
    split; [lra|]. split; [reflexivity|]. split.
    - split; [intros _ s [[] _]|reflexivity].
    - split; [lra|intros [H _]; congruence]. }
  destruct (decide (skills2 = [])) as [->|H2].
  { assert (E : calculate_skill_overlap skills1 [] = 0%R) by (destruct skills1; reflexivity).
    rewrite E. cbn [calculate_skill_overlap].
    split; [lra|]. split; [reflexivity|]. split.
    - split; [intros _ s [_ []]|reflexivity].
    - split; [lra|]. intros [_ H]. destruct skills1 as [|a l]; [congruence|].
      destruct (proj1 (H a) (or_introl eq_refl)). }
  destruct (overlap_unfold skills1 skills2 H1 H2) as (E & Hpos & Hle).
  destruct (overlap_unfold skills2 skills1 H2 H1) as (E' & _ & _).
  cbv zeta in *. rewrite E, E'.
  set (set1 := list_to_set skills1 : gset string) in *.
  set (set2 := list_to_set skills2 : gset string) in *.
  assert (Hin1 : forall s, s ∈ set1 <-> In s skills1).
  { intros s. unfold set1. rewrite elem_of_list_to_set, list_elem_of_In. reflexivity. }
  assert (Hin2 : forall s, s ∈ set2 <-> In s skills2).
  { intros s. unfold set2. rewrite elem_of_list_to_set, list_elem_of_In. reflexivity. }
  assert (Hu : (0 < INR (size (set1 ∪ set2)))%R) by (apply lt_0_INR; exact Hpos).
  assert (Hi0 : (0 <= INR (size (set1 ∩ set2)))%R) by apply pos_INR.
  assert (Hiu : (INR (size (set1 ∩ set2)) <= INR (size (set1 ∪ set2)))%R)
    by (apply le_INR; exact Hle).
  split; [split|split; [|split]].
  - apply Rmult_le_reg_r with (INR (size (set1 ∪ set2))); [assumption|].
    unfold Rdiv. rewrite Rmult_assoc, Rinv_l by lra. lra.
  - apply Rmult_le_reg_r with (INR (size (set1 ∪ set2))); [assumption|].
    unfold Rdiv. rewrite Rmult_assoc, Rinv_l by lra. lra.
  - rewrite (comm_L (∩) set2 set1), (comm_L (∪) set2 set1). reflexivity.
  - split.
    + intros Hz s [Hs1 Hs2].
      assert (Hsz : size (set1 ∩ set2) = 0).
      { apply INR_eq. cbn [INR].
        apply Rmult_eq_reg_r with (/ INR (size (set1 ∪ set2)))%R;
          [|apply Rinv_neq_0_compat; lra].
        unfold Rdiv in Hz. lra. }
      apply size_empty_iff in Hsz.
      apply (not_elem_of_empty (C := gset string) s). rewrite <- Hsz.
      apply elem_of_intersection. split; [apply Hin1|apply Hin2]; assumption.
    + intros Hdis.
      assert (Hsz : size (set1 ∩ set2) = 0).
      { apply size_empty_iff. intros s. split; [|intros Hs; destruct (not_elem_of_empty s Hs)].
        intros Hs. apply elem_of_intersection in Hs. destruct Hs as [Hs1 Hs2].
        exfalso. apply (Hdis s). split; [apply Hin1|apply Hin2]; assumption. }
      rewrite Hsz. cbn [INR]. unfold Rdiv. lra.
  - split.
    + intros Hone. split; [exact H1|].
      assert (Hsz : size (set1 ∩ set2) = size (set1 ∪ set2)).
      { apply INR_eq. apply Rmult_eq_reg_r with (/ INR (size (set1 ∪ set2)))%R;
          [|apply Rinv_neq_0_compat; lra].
        rewrite Rinv_r by lra. exact Hone. }
      assert (Hsub : set1 ∩ set2 ⊆ set1 ∪ set2).
      { intros x Hx. apply elem_of_intersection in Hx. apply elem_of_union. tauto. }
      assert (Heq : forall x, x ∈ set1 ∪ set2 -> x ∈ set1 ∩ set2).
      { intros x Hx.
        rewrite (set_subseteq_size_eq (set1 ∩ set2) (set1 ∪ set2) Hsub ltac:(lia)).
        exact Hx. }
      intros s. rewrite <- Hin1, <- Hin2. split; intros Hs.
      * assert (Hx : s ∈ set1 ∩ set2) by (apply Heq, elem_of_union; tauto).
        apply elem_of_intersection in Hx. tauto.
      * assert (Hx : s ∈ set1 ∩ set2) by (apply Heq, elem_of_union; tauto).
        apply elem_of_intersection in Hx. tauto.
    + intros [_ Hsame].
      assert (Eset : set1 = set2).
      { apply leibniz_equiv. intros s. rewrite Hin1, Hin2. apply Hsame. }
      rewrite Eset, (idemp_L (∩)), (idemp_L (∪)). unfold Rdiv. apply Rinv_r.
      rewrite Eset, (idemp_L (∪)) in Hu. lra.
Qed.

End SkillExtractionFacts.

(** ** The years of experience *)

Module ExperienceFacts.
Import Py Re Models Pipeline ReFacts NormalizeFacts PipelineFacts.
Local Open Scope list_scope.

(** *** A match does not depend on what may follow it *)

Definition succeeds (o : option mstate) : Prop := o <> None.

Lemma star_loop_mono (greedy : bool)
  (body : mstate -> (mstate -> option mstate) -> option mstate)
  (k1 k2 : mstate -> option mstate) :
  (forall s c1 c2, (forall s', succeeds (c1 s') -> succeeds (c2 s')) ->
                   succeeds (body s c1) -> succeeds (body s c2)) ->
  (forall s, succeeds (k1 s) -> succeeds (k2 s)) ->
  forall fuel s, succeeds (star_loop greedy body k1 fuel s) ->
                 succeeds (star_loop greedy body k2 fuel s).
Proof.
  intros Hb Hk. unfold succeeds in *.
  induction fuel as [|fuel IH]; intros s.
  - rewrite !star_loop_0. apply Hk.
  - rewrite !star_loop_S. cbv zeta.
    pose proof (Hb s
      (fun s' => if length (m_rest s') <? length (m_rest s)
                 then star_loop greedy body k1 fuel s' else None)
      (fun s' => if length (m_rest s') <? length (m_rest s)
                 then star_loop greedy body k2 fuel s' else None)) as Hagain.
    cbv beta in Hagain.
    assert (Hc : forall s',
      (if length (m_rest s') <? length (m_rest s)
       then star_loop greedy body k1 fuel s' else None) <> None ->
      (if length (m_rest s') <? length (m_rest s)
       then star_loop greedy body k2 fuel s' else None) <> None).
    { intros s'. destruct (_ <? _); [apply IH|auto]. }
    specialize (Hagain Hc). specialize (Hk s).
    destruct greedy.
    + destruct (body s _) as [e1|]; destruct (body s _) as [e2|]; try discriminate; auto.
      intros _. exfalso. apply Hagain; [discriminate|reflexivity].
    + destruct (k1 s) as [e1|]; destruct (k2 s) as [e2|]; try discriminate; auto.
      intros _. exfalso. apply Hk; [discriminate|reflexivity].
Qed.

(** If the pattern matches with one continuation, it matches with every
    continuation that accepts at least the same positions. *)
Lemma rmatch_mono (r : re) :
  forall s k1 k2, (forall s', succeeds (k1 s') -> succeeds (k2 s')) ->
                  succeeds (rmatch r s k1) -> succeeds (rmatch r s k2).
Proof.
  induction r as [|p|a IHa b IHb|a IHa b IHb|greedy a IHa|a IHa|];
    intros s k1 k2 Hk; cbn [rmatch].
  - apply Hk.
  - destruct (m_rest s) as [|c t]; [auto|]. destruct (p c); [apply Hk|auto].
  - apply IHa. intros s'. apply IHb. exact Hk.
  - specialize (IHa s k1 k2 Hk). specialize (IHb s k1 k2 Hk). unfold succeeds in *.
    destruct (rmatch a s k1); destruct (rmatch a s k2); try discriminate; auto.
    intros _. exfalso. apply IHa; [discriminate|reflexivity].
  - apply star_loop_mono; [|exact Hk]. intros s0 c1 c2 Hc. apply IHa. exact Hc.
  - apply IHa. intros s'. apply Hk.
  - destruct (xorb _ _); [apply Hk|auto].
Qed.

(** *** A match reads forwards *)

Lemma star_loop_reads (greedy : bool) (a : re) (k : mstate -> option mstate) :
  (forall s k e, rmatch a s k = Some e ->
     exists s', k s' = Some e /\ length (m_rest s') <= length (m_rest s)) ->
  forall fuel s e,
    star_loop greedy (rmatch a) k fuel s = Some e ->
    exists s', k s' = Some e /\ length (m_rest s') <= length (m_rest s).
Proof.
  intros IHa. induction fuel as [|fuel IH]; intros s e H.
  - rewrite star_loop_0 in H. exists s. auto.
  - rewrite star_loop_S in H. cbv zeta in H.
    assert (Hagain : forall e,
      rmatch a s (fun s' => if length (m_rest s') <? length (m_rest s)
                            then star_loop greedy (rmatch a) k fuel s' else None) = Some e ->
      exists s', k s' = Some e /\ length (m_rest s') <= length (m_rest s)).
    { intros e0 H0. apply IHa in H0. destruct H0 as (s1 & H1 & Hl1).
      destruct (length (m_rest s1) <? length (m_rest s)); [|discriminate].
      apply IH in H1. destruct H1 as (s2 & H2 & Hl2). exists s2. split; [exact H2|lia]. }
    destruct greedy.
    + destruct (rmatch a s _) as [e0|] eqn:E0.
      * injection H as <-. apply Hagain. reflexivity.
      * exists s. auto.
    + destruct (k s) as [e0|] eqn:Ek.
      * exists s. rewrite Ek. auto.
      * apply Hagain. exact H.
Qed.

Lemma rmatch_reads (r : re) :
  forall s k e, rmatch r s k = Some e ->
    exists s', k s' = Some e /\ length (m_rest s') <= length (m_rest s).
Proof.
  induction r as [|p|a IHa b IHb|a IHa b IHb|greedy a IHa|a IHa|];
    intros s k e H; cbn [rmatch] in H.
  - exists s. auto.
  - destruct (m_rest s) as [|c t] eqn:Es; [discriminate|].
    destruct (p c); [|discriminate]. eexists. split; [exact H|]. cbn. lia.
  - apply IHa in H. destruct H as (s1 & H1 & Hl1).
    apply IHb in H1. destruct H1 as (s2 & H2 & Hl2). exists s2. split; [exact H2|lia].
  - destruct (rmatch a s k) as [e0|] eqn:Ea.
    + injection H as <-. apply IHa in Ea. exact Ea.
    + apply IHb in H. exact H.
  - apply (star_loop_reads greedy a k IHa) in H. exact H.
  - apply IHa in H. destruct H as (s1 & H1 & Hl1). eexists. split; [exact H1|exact Hl1].
  - destruct (xorb _ _); [|discriminate]. exists s. auto.
Qed.

(** A pattern that begins with [(\d+)] reads at least one character. *)
Lemma number_first_reads (rest : re) (prev : option ascii) (s : str) (e : mstate) :
  match_here (Seq number rest) prev s = Some e -> length (m_rest e) < length s.
Proof.
  unfold match_here, number. cbn [rmatch]. intros H.
  apply plus_chr_reads in H. destruct H as (ds & s' & H1 & H2 & _ & _ & H5).
  apply rmatch_reads in H5. destruct H5 as (s'' & [= ->] & Hl).
  cbn [m_rest] in H1, Hl. rewrite H1, length_app.
  destruct ds; [congruence|]. cbn [length]. lia.
Qed.

(** *** When [findall] finds something *)

Lemma findall_from_found (r : re) :
  forall fuel prev s, findall_from fuel r prev s <> [] ->
    exists pre post, s = pre ++ post /\
                     succeeds (match_here r (last_of pre prev) post).
Proof.
  induction fuel as [|fuel IH]; intros prev s H; cbn [findall_from] in H; [congruence|].
  destruct s as [|c t]; [congruence|].
  destruct (match_here r prev (c :: t)) as [e|] eqn:E.
  - exists [], (c :: t). split; [reflexivity|]. cbn [last_of]. rewrite E. discriminate.
  - apply IH in H. destruct H as (pre & post & -> & Hm).
    exists (c :: pre), post. split; [reflexivity|exact Hm].
Qed.

Lemma findall_from_finds (r : re) :
  (forall prev s e, match_here r prev s = Some e -> length (m_rest e) < length s) ->
  forall fuel prev s pre post,
    length s <= fuel -> s = pre ++ post ->
    succeeds (match_here r (last_of pre prev) post) ->
    findall_from fuel r prev s <> [].
Proof.
  intros Hreads. induction fuel as [|fuel IH]; intros prev s pre post Hlen Hs Hm.
  - destruct s; [|cbn in Hlen; lia].
    symmetry in Hs. apply app_eq_nil in Hs. destruct Hs as [-> ->].
    cbn [last_of] in Hm. destruct (match_here r prev []) as [e|] eqn:E; [|congruence].
    apply Hreads in E. cbn in E. lia.
  - destruct s as [|c t].
    + symmetry in Hs. apply app_eq_nil in Hs. destruct Hs as [-> ->].
      cbn [last_of] in Hm. destruct (match_here r prev []) as [e|] eqn:E; [|congruence].
      apply Hreads in E. cbn in E. lia.
    + cbn [findall_from].
      destruct (match_here r prev (c :: t)) as [e|] eqn:E.
      * pose proof (Hreads _ _ _ E) as Hl. apply Nat.ltb_lt in Hl. rewrite Hl. discriminate.
      * destruct pre as [|x pre].
        -- cbn in Hs. subst post. cbn [last_of] in Hm. rewrite E in Hm. congruence.
        -- cbn in Hs. injection Hs as <- ->.
           apply (IH (Some c) _ pre post); [cbn in Hlen; lia|reflexivity|exact Hm].
Qed.

(** *** The fifth pattern *)

Definition yr_pattern : re := Seq number (Seq spaces (lit true "yr")).
Definition yr_dot_pattern : re :=
  Seq number (Seq spaces (Seq (lit true "yr") (lit_char true "."))).

(** Where [(\d+)\s*yr\.] matches, [(\d+)\s*yr] matches. *)
Lemma yr_dot_yr (prev : option ascii) (s : str) :
  succeeds (match_here yr_dot_pattern prev s) -> succeeds (match_here yr_pattern prev s).
Proof.
  unfold match_here, yr_dot_pattern, yr_pattern.
  change (rmatch (Seq number (Seq spaces (Seq (lit true "yr") (lit_char true ".")))) ?s Some)
    with (rmatch number s (fun s1 => rmatch spaces s1 (fun s2 =>
            rmatch (lit true "yr") s2 (fun s3 => rmatch (lit_char true ".") s3 Some)))).
  change (rmatch (Seq number (Seq spaces (lit true "yr"))) ?s Some)
    with (rmatch number s (fun s1 => rmatch spaces s1 (fun s2 =>
            rmatch (lit true "yr") s2 Some))).
  apply rmatch_mono. intros s1. apply rmatch_mono. intros s2. apply rmatch_mono.
  intros s3 _. discriminate.
Qed.

Lemma yr_dot_found (text : str) :
  findall yr_pattern text = [] -> findall yr_dot_pattern text = [].
Proof.
  intros H4. destruct (findall yr_dot_pattern text) as [|g gs] eqn:H5; [reflexivity|].
  exfalso.
  destruct (findall_from_found yr_dot_pattern (length text) None text) as (pre & post & E & Hm).
  { unfold findall in H5. rewrite H5. discriminate. }
  apply yr_dot_yr in Hm.
  apply (findall_from_finds yr_pattern (number_first_reads _) (length text) None text pre post
           (Nat.le_refl _) E Hm).
  exact H4.
Qed.

(** X25.  The fifth pattern never decides: whenever it has a match, the
    fourth pattern, which is tried before it, has one; the years found are
    those found without the fifth pattern. *)
Theorem fifth_pattern_never_decides (text : str) :
  explicit_years patterns text = explicit_years (removelast patterns) text /\
  (findall (nth 4 patterns Eps) text <> [] -> findall (nth 3 patterns Eps) text <> []).
Proof.
  split.
  - unfold patterns. cbn [removelast explicit_years].
    repeat match goal with
           | |- context [findall ?p text] =>
               lazymatch goal with
               | H : findall p text = _ |- _ => fail
               | _ => destruct (findall p text) eqn:?
               end
           end; try reflexivity.
    exfalso.
    match goal with
    | H4 : findall (Seq number (Seq spaces (lit true "yr"))) text = [] |- _ =>
        pose proof (yr_dot_found text H4) as H5
    end.
    unfold yr_dot_pattern in H5. congruence.
  - intros H5 H4. apply H5. apply (yr_dot_found text). exact H4.
Qed.


(** *** The value is a whole number of years *)

Lemma int_of_digits_nonneg (s : str) : (0 <= int_of_digits s)%Z.
Proof.
  unfold int_of_digits.
  assert (H : forall acc, (0 <= acc)%Z ->
            (0 <= fold_left (fun acc c => (10 * acc + digit_value c)%Z) s acc)%Z).
  { induction s as [|c t IH]; intros acc Hacc; cbn [fold_left]; [exact Hacc|].
    apply IH. unfold digit_value. lia. }
  apply H. lia.
Qed.

Lemma explicit_years_some (ps : list re) (text : str) (years : result R) :
  explicit_years ps text = Some years ->
  exists p, In p ps /\ findall p text <> [] /\
            years = max_floats (map float_of_digits (List.filter isdigit (findall p text))).
Proof.
  induction ps as [|p ps IH]; cbn [explicit_years]; [discriminate|].
  destruct (findall p text) as [|g gs] eqn:E.
  - intros H. destruct (IH H) as (q & Hq & Hne & Hy). exists q. split; [right; exact Hq|auto].
  - intros [= <-]. exists p. split; [left; reflexivity|]. rewrite E. split; [discriminate|reflexivity].
Qed.

(** The value of the body of [_extract_experience], by cases on what the
    patterns find. *)
Lemma extract_experience_body_value (text : str) :
  exists n : Z,
    (0 <= n)%Z /\
    extract_experience_body text = Ok (IZR n) /\
    (explicit_years patterns text = None -> (n <= 15)%Z).
Proof.
  unfold extract_experience_body.
  destruct (explicit_years patterns text) as [years|] eqn:E.
  - apply explicit_years_some in E. destruct E as (p & Hp & Hne & ->).
    assert (Hnum : numeric p).
    { apply (proj1 (List.Forall_forall _ _) patterns_numeric). exact Hp. }
    pose proof (findall_isdigit p text Hnum) as Hdig.
    rewrite (filter_all _ _ Hdig).
    destruct (max_floats_is_max (map float_of_digits (findall p text)))
      as (m & Hm & Hin & _).
    { destruct (findall p text); [congruence|discriminate]. }
    apply in_map_iff in Hin. destruct Hin as (g & <- & _).
    exists (int_of_digits g). rewrite Hm.
    split; [apply int_of_digits_nonneg|]. split; [reflexivity|discriminate].
  - destruct (findall date_pattern text) as [|d ds].
    + exists 0%Z. split; [lia|]. split; [reflexivity|lia].
    + set (n := length (d :: ds)).
      exists (Z.min (Z.of_nat n) 15).
      assert (Hmin : Rmin (INR n) 15 = IZR (Z.min (Z.of_nat n) 15)).
      { rewrite INR_IZR_INZ. unfold Rmin.
        destruct (Rle_dec (IZR (Z.of_nat n)) 15) as [Hle|Hgt].
        - apply le_IZR in Hle. rewrite Z.min_l by exact Hle. reflexivity.
        - rewrite Z.min_r; [reflexivity|].
          destruct (Z.le_gt_cases 15 (Z.of_nat n)) as [H|H]; [exact H|].
          exfalso. apply Hgt. apply IZR_le. lia. }
      rewrite Hmin. split; [lia|]. split; [reflexivity|lia].
Qed.

Lemma experience_whole (text : string) :
  exists n : Z, (0 <= n)%Z /\ _extract_experience text = IZR n.
Proof.
  destruct (extract_experience_body_value (of_string text)) as (n & Hn & E & _).
  exists n. split; [exact Hn|]. unfold _extract_experience. rewrite E. reflexivity.
Qed.

(** X26.  [_extract_experience] never reaches its [except] clause, and the
    value it returns is a whole number that is not negative; without an
    explicit mention of years it is at most [15]. *)
Theorem extract_experience_whole (text : string) :
  exists n : Z,
    (0 <= n)%Z /\
    extract_experience_body (of_string text) = Ok (IZR n) /\
    _extract_experience text = IZR n /\
    (explicit_years patterns (of_string text) = None -> (n <= 15)%Z).
Proof.
  destruct (extract_experience_body_value (of_string text)) as (n & Hn & E & H15).
  exists n. split; [exact Hn|]. split; [exact E|]. split; [|exact H15].
  unfold _extract_experience. rewrite E. reflexivity.
Qed.

End ExperienceFacts.

(** ** The pipeline *)

Module JobPipelineFacts.
Import Py Re Models Matcher Pipeline SkillExtraction JobPipeline.
Import ReFacts NormalizeFacts MatcherFacts PipelineFacts SkillExtractionFacts ExperienceFacts.
Local Open Scope string_scope.
Local Open Scope list_scope.

(** *** Titles and companies *)

(** The test that the loops of [_extract_job_title] and [_extract_company]
    make on a stripped line. *)
Definition qualifies (max_words : nat) (keywords : list string) (line : str) : bool :=
  match line with [] => false | _ => true end
  && Nat.leb (count_words false line) max_words
  && any_keyword keywords line.

Lemma first_line_spec (max_words : nat) (keywords : list string) (lines : list str) :
  match first_line max_words keywords lines with
  | Some found =>
      exists pre line post,
        lines = pre ++ line :: post /\ found = to_string (strip line) /\
        qualifies max_words keywords (strip line) = true /\
        Forall (fun l => qualifies max_words keywords (strip l) = false) pre
  | None => Forall (fun l => qualifies max_words keywords (strip l) = false) lines
  end.
Proof.
  induction lines as [|line rest IH]; cbn [first_line]; [constructor|].
  cbv zeta. fold (qualifies max_words keywords (strip line)).
  destruct (qualifies max_words keywords (strip line)) eqn:Q.
  - exists [], line, rest. split; [reflexivity|]. split; [reflexivity|].
    split; [exact Q|constructor].
  - destruct (first_line max_words keywords rest) as [found|].
    + destruct IH as (pre & l & post & -> & Hf & Hq & Hpre).
      exists (line :: pre), l, post. split; [reflexivity|]. split; [exact Hf|].
      split; [exact Hq|constructor; assumption].
    + constructor; assumption.
Qed.

Lemma split_lines_no_newline (s : str) :
  Forall (Forall (fun c => c <> newline)) (split_lines s).
Proof.
  induction s as [|c t IH]; cbn [split_lines]; [repeat constructor|].
  destruct (Ascii.eqb_spec c newline) as [E|E].
  - constructor; [constructor|exact IH].
  - destruct (split_lines t) as [|line lines]; [repeat constructor; exact E|].
    inversion IH; subst. constructor; [constructor; assumption|assumption].
Qed.

Lemma strip_Forall (P : ascii -> Prop) (s : str) : Forall P s -> Forall P (strip s).
Proof. intros H. unfold strip. apply rstrip_Forall, lstrip_Forall, H. Qed.

(** What the two functions may return for a text: a line among the first
    twenty, stripped, that passes the test, when there is one (the first
    such), and nothing otherwise. *)
Definition chosen (max_words : nat) (keywords : list string) (text : string)
  (r : option string) : Prop :=
  match r with
  | Some found =>
      found <> EmptyString /\
      strip (of_string found) = of_string found /\
      Forall (fun c => c <> newline) (of_string found) /\
      count_words false (of_string found) <= max_words /\
      (exists keyword, In keyword keywords /\
         contains (of_string keyword) (lower (of_string found)) = true) /\
      exists pre line post,
        firstn 20 (split_lines (of_string text)) = pre ++ line :: post /\
        of_string found = strip line /\
        Forall (fun l => qualifies max_words keywords (strip l) = false) pre
  | None =>
      Forall (fun l => qualifies max_words keywords (strip l) = false)
        (firstn 20 (split_lines (of_string text)))
  end.

(** X27.  The title (the company) that is extracted is the first of the
    first twenty lines of the text that, stripped, is not empty, has at most
    six (four) words and holds one of the keywords in lower case; it is
    returned stripped, so it is not empty, begins and ends with no white
    space and holds no line break. Where no such line is among the first
    twenty, nothing is returned. *)
Theorem extract_title_company_spec (text : string) :
  chosen 6 title_keywords text (_extract_job_title text) /\
  chosen 4 company_keywords text (_extract_company text).
Proof.
  assert (H : forall max_words keywords,
            chosen max_words keywords text
              (first_line max_words keywords
                 (firstn 20 (split_lines (of_string text))))).
  { intros max_words keywords.
    unfold chosen.
    pose proof (first_line_spec max_words keywords (firstn 20 (split_lines (of_string text))))
      as Hspec.
    destruct (first_line _ _ _) as [found|]; [|exact Hspec].
    destruct Hspec as (pre & line & post & E & -> & Hq & Hpre).
    rewrite of_to_string.
    unfold qualifies in Hq. apply andb_true_iff in Hq. destruct Hq as [Hq Hk].
    apply andb_true_iff in Hq. destruct Hq as [Hne Hw].
    split; [|split; [|split; [|split; [|split]]]].
    - destruct (strip line); [discriminate|]. discriminate.
    - apply strip_idem.
    - apply strip_Forall.
      assert (Hin : In line (firstn 20 (split_lines (of_string text)))).
      { rewrite E. apply in_or_app. right. left. reflexivity. }
      apply (proj1 (List.Forall_forall _ _)
               (Forall_take _ 20 _ (split_lines_no_newline (of_string text)))).
      exact Hin.
    - apply Nat.leb_le. exact Hw.
    - unfold any_keyword in Hk. apply existsb_exists in Hk. exact Hk.
    - exists pre, line, post. auto. }
  split; apply H.
Qed.


(** *** [process_job_description] *)

Lemma process_job_description_fst (self : ProcessingPipeline) (file_path : string)
  (required : option (list string)) :
  fst (process_job_description self file_path required) =
  process_job_description_body self file_path required.
Proof.
  unfold process_job_description.
  destruct (process_job_description_body self file_path required); reflexivity.
Qed.

(** What a match lists as missing when the job description lists no
    preferred skill. *)
Lemma missing_without_preferred (order : SetOrder) (model : SentenceTransformer)
  (resume : Resume) (jd : JobDescription) (mr : MatchResult) :
  preferred_skills jd = [] ->
  match_resume_to_jd order model resume jd = Ok mr ->
  forall x, x ∈ missing_skills mr <-> x ∈ required_skills jd /\ x ∉ skills resume.
Proof.
  intros Hp H x. unfold match_resume_to_jd in H. apply new_MatchResult_inv in H.
  destruct H as (_ & _ & -> & _).
  unfold _safe_get_skills, _safe_get_skills_jd, jd_skills.
  rewrite Hp, app_nil_r, !safe_set_list_to_set.
  rewrite to_list_elem, elem_of_difference, !elem_of_list_to_set. reflexivity.
Qed.

(** X28.  [process_job_description] raises what the reader of the file
    raises, and [ValueError] on a blank text. Otherwise the job description
    holds the text; its required skills are the list passed, unless that is
    left out or empty, in which case they are the skills extracted; it has
    no preferred skill, so that the skills a match reports as missing are
    the required skills that the resume lacks. *)
Theorem process_job_description_spec (self : ProcessingPipeline) (file_path : string)
  (required : option (list string)) :
  match text_from_file (collaborators self) file_path with
  | inl e => fst (process_job_description self file_path required) = Raise e
  | inr text =>
      if is_blank text
      then fst (process_job_description self file_path required) =
           Raise (ValueError "No text content found in the file")
      else exists jd,
          fst (process_job_description self file_path required) = Ok jd /\
          jd_raw_text jd = text /\
          (forall l, required = Some l -> l <> [] -> required_skills jd = l) /\
          (required = None \/ required = Some [] ->
           required_skills jd =
           Pipeline.extract_skills (collaborators self) text (ontology self)) /\
          preferred_skills jd = [] /\
          jd_skills jd = required_skills jd /\
          title jd = _extract_job_title text /\
          company jd = _extract_company text /\
          forall order model resume mr,
            match_resume_to_jd order model resume jd = Ok mr ->
            forall x, x ∈ missing_skills mr <->
                      x ∈ required_skills jd /\ x ∉ skills resume
  end.
Proof.
  rewrite process_job_description_fst. unfold process_job_description_body.
  cbv zeta. destruct (text_from_file (collaborators self) file_path) as [e|text];
    cbn [bind]; [reflexivity|].
  destruct (is_blank text); [reflexivity|].
  eexists. split; [reflexivity|]. cbn [jd_raw_text required_skills preferred_skills
                                        title company].
  split; [reflexivity|]. split.
  { intros l -> Hl. destruct l; [congruence|reflexivity]. }
  split.
  { intros [->| ->]; reflexivity. }
  split; [reflexivity|]. split.
  { unfold jd_skills. cbn [required_skills preferred_skills]. apply app_nil_r. }
  split; [reflexivity|]. split; [reflexivity|].
  intros order model resume mr Hmr.
  revert Hmr. apply missing_without_preferred. reflexivity.
Qed.

(** *** [process_resume] and the batch *)

(** What holds of every resume that [process_resume] returns. *)
Definition processed (self : ProcessingPipeline) (resume : Resume) : Prop :=
  is_blank (raw_text resume) = false /\
  (exists n : Z, (0 <= n)%Z /\ experience resume = IZR n) /\
  education resume = extract_name (collaborators self) (raw_text resume) /\
  skills resume =
    Pipeline.extract_skills (collaborators self) (raw_text resume) (ontology self).

Lemma process_resume_fst (self : ProcessingPipeline) (file_path : string) :
  fst (process_resume self file_path) = process_resume_body self file_path.
Proof.
  unfold process_resume. destruct (process_resume_body self file_path); reflexivity.
Qed.

Lemma process_resume_body_cases (self : ProcessingPipeline) (file_path : string) :
  match text_from_file (collaborators self) file_path with
  | inl e => process_resume_body self file_path = Raise e
  | inr text =>
      if is_blank text
      then process_resume_body self file_path =
           Raise (ValueError "No text content found in the file")
      else exists resume,
          process_resume_body self file_path = Ok resume /\
          raw_text resume = text /\ processed self resume
  end.
Proof.
  unfold process_resume_body. cbv zeta.
  destruct (text_from_file (collaborators self) file_path) as [e|text];
    cbn [bind]; [reflexivity|].
  destruct (is_blank text) eqn:B; [reflexivity|].
  destruct (extract_pii (collaborators self) text) as [email phone].
  eexists. split; [reflexivity|]. split; [reflexivity|].
  unfold processed. cbn [raw_text experience education skills].
  split; [exact B|]. split; [|split; reflexivity].
  apply experience_whole.
Qed.

(** X29.  [process_resume] raises what the reader of the file raises, and
    [ValueError] on a blank text, and logs the error; otherwise it returns a
    resume of the text whose years of experience are a whole number that is
    not negative, and whose field [education] holds the name that
    [extract_name] finds. *)
Theorem process_resume_outcome (self : ProcessingPipeline) (file_path : string) :
  match text_from_file (collaborators self) file_path with
  | inl e =>
      process_resume self file_path =
      (Raise e, [InfoProcessing file_path; ErrorResume file_path e])
  | inr text =>
      if is_blank text
      then process_resume self file_path =
           (Raise (ValueError "No text content found in the file"),
            [InfoProcessing file_path;
             ErrorResume file_path (ValueError "No text content found in the file")])
      else exists resume,
          process_resume self file_path =
          (Ok resume,
           [InfoProcessing file_path;
            InfoProcessed (length (skills resume)) (experience resume)]) /\
          raw_text resume = text /\ processed self resume
  end.
Proof.
  pose proof (process_resume_body_cases self file_path) as H.
  unfold process_resume.
  destruct (text_from_file (collaborators self) file_path) as [e|text].
  - rewrite H. reflexivity.
  - destruct (is_blank text).
    + rewrite H. reflexivity.
    + destruct H as (resume & -> & H1 & H2). exists resume. auto.
Qed.

Lemma successes_processed (self : ProcessingPipeline) (file_paths : list string) :
  Forall (processed self) (successes self file_paths).
Proof.
  unfold successes. apply List.Forall_forall. intros resume Hin.
  apply in_flat_map in Hin. destruct Hin as (p & _ & Hr).
  rewrite process_resume_fst in Hr.
  pose proof (process_resume_body_cases self p) as H.
  destruct (text_from_file (collaborators self) p) as [e|text].
  - rewrite H in Hr. destruct Hr.
  - destruct (is_blank text).
    + rewrite H in Hr. destruct Hr.
    + destruct H as (r & E & _ & Hp). rewrite E in Hr. destruct Hr as [<-|[]]. exact Hp.
Qed.

Lemma successes_failures_length (self : ProcessingPipeline) (file_paths : list string) :
  length (successes self file_paths) + length (failures self file_paths) =
  length file_paths.
Proof.
  unfold successes, failures.
  induction file_paths as [|p ps IH]; [reflexivity|].
  cbn [flat_map List.filter]. rewrite length_app.
  destruct (fst (process_resume self p)) as [e|resume]; cbn [is_ok negb length app];
    cbn [length] in *; lia.
Qed.

(** X30.  Every path of a batch is either answered by a resume or counted as
    a failure; every resume returned is one that [process_resume] returns,
    with a text that is not blank and a whole number of years; and the last
    record logged gives the two counts. *)
Theorem process_multiple_resumes_invariant (self : ProcessingPipeline)
  (file_paths : list string) :
  length (fst (process_multiple_resumes self file_paths)) +
    length (failures self file_paths) = length file_paths /\
  Forall (processed self) (fst (process_multiple_resumes self file_paths)) /\
  last (snd (process_multiple_resumes self file_paths)) =
    Some (InfoSummary (length (fst (process_multiple_resumes self file_paths)))
            (length file_paths)).
Proof.
  rewrite process_multiple_resumes_unfold. cbn [fst snd].
  split; [apply successes_failures_length|]. split; [apply successes_processed|].
  apply last_snoc.
Qed.

End JobPipelineFacts.
